(** * MiniPlaces challenge: the custom convolution operator, the PGD attack
      and the gradient saliency map of [a2/code/student_code.py].

    The development is a shallow embedding of three pieces of the file:
    - [CustomConv2DFunction.forward] / [backward] (lines 23-123),
    - [PGDAttack.perturb] (lines 607-654),
    - [GradAttention.explain] (lines 659-697).

    Around them it covers [CustomConv2d.forward] and [SimpleNet.forward], the
    callers of the operator and of the attack, and the network classes of the
    file ([SimpleNet], [SimpleNetBN2D], [LessSimpleNetBN2D_ConvDW],
    [SimpleNetBN2D_ConvDW], [VGGNet], [MobileNet] and the blocks they are
    built from) as maps on tensor shapes.

    Scalars.  Tensor entries are floating-point numbers in the source.  The
    embedding works in exact arithmetic and takes [Z] as the scalar ring: the
    facts that are proved are ring identities and facts about the order, and
    rounding is outside the model.

    Library calls.  [unfold], [fold], [einsum], [view], [expand], the
    broadcasting arithmetic, [clamp], [sign], [abs], [max], [argmin] and
    [argmax] belong to PyTorch; they are modelled here from their documented
    behaviour, each next to a comment that says so. *)

From Stdlib Require Import ZArith List Lia Bool Arith QArith.
Import ListNotations.

Set Implicit Arguments.

(* ================================================================== *)
(** * Python results and values *)
(* ================================================================== *)

(** The exceptions the modelled code can raise. *)
Inductive exn : Type :=
| AssertionError
| AttributeError
| IndexError
| RuntimeError
| TypeError
| ValueError.

Inductive result (A : Type) : Type :=
| Ok (a : A)
| Raise (e : exn).
Arguments Ok {A} a.
Arguments Raise {A} e.

Definition rbind {A B} (r : result A) (k : A -> result B) : result B :=
  match r with
  | Ok a => k a
  | Raise e => Raise e
  end.

Declare Scope result_scope.
Delimit Scope result_scope with result.
Notation "x <- r ;; k" := (rbind r (fun x => k))
  (at level 61, r at next level, right associativity) : result_scope.
Notation "' pat <- r ;; k" := (rbind r (fun x => match x with pat => k end))
  (at level 61, pat pattern, r at next level, right associativity) : result_scope.

Definition is_ok {A} (r : result A) : bool :=
  match r with Ok _ => true | Raise _ => false end.

(** A Python value passed where the source expects an [int]: [stride],
    [padding].  [bool] is a subclass of [int] in Python and is read as
    [PyInt 1] or [PyInt 0]. *)
Inductive pyval : Type :=
| PyInt (z : Z)
| PyFloat (q : Q)
| PyNone.

(** [isinstance(v, int)] *)
Definition isinstance_int (v : pyval) : bool :=
  match v with PyInt _ => true | _ => false end.

(* ================================================================== *)
(** * Finite sums over an index range *)
(* ================================================================== *)

Open Scope Z_scope.

(** [zsum n f] is the sum of [f 0], ..., [f (n-1)]. *)
Fixpoint zsum (n : nat) (f : nat -> Z) : Z :=
  match n with
  | O => 0
  | S m => zsum m f + f m
  end.

(* ================================================================== *)
(** * Dense tensors *)
(* ================================================================== *)

(** A contiguous tensor: its sizes and its entries in row-major order, as
    [torch.Tensor] stores them. *)
Record tensor : Type := mkT { shape : list nat; data : list Z }.

Definition numel (sh : list nat) : nat := fold_right Nat.mul 1%nat sh.

(** The storage holds exactly one entry per index. *)
Definition wf (t : tensor) : Prop := length (data t) = numel (shape t).

(** Row-major position of a multi-index. *)
Fixpoint offset (sh idx : list nat) : nat :=
  match sh, idx with
  | _ :: sh', i :: idx' => (i * numel sh' + offset sh' idx')%nat
  | _, _ => O
  end.

(** The multi-index of a row-major position. *)
Fixpoint unravel (sh : list nat) (k : nat) : list nat :=
  match sh with
  | [] => []
  | _ :: sh' => (k / numel sh')%nat :: unravel sh' (k mod numel sh')%nat
  end.

(** [t[idx]] *)
Definition tget (t : tensor) (idx : list nat) : Z :=
  nth (offset (shape t) idx) (data t) 0.

(** The tensor of shape [sh] whose entry at [idx] is [f idx]. *)
Definition tab (sh : list nat) (f : list nat -> Z) : tensor :=
  mkT sh (map (fun k => f (unravel sh k)) (seq 0 (numel sh))).

(** A multi-index lies inside a shape. *)
Definition in_range (idx sh : list nat) : Prop := Forall2 lt idx sh.

(** [t.size(i)]: [IndexError] when the tensor has no dimension [i]. *)
Definition size (t : tensor) (i : nat) : result Z :=
  match nth_error (shape t) i with
  | Some d => Ok (Z.of_nat d)
  | None => Raise IndexError
  end.

(* ------------------------------------------------------------------ *)
(** ** Broadcasting *)
(* ------------------------------------------------------------------ *)

(** PyTorch's broadcasting rule for one dimension: equal sizes, or one of
    them is 1. *)
Definition bdim (x y : nat) : option nat :=
  if (x =? y)%nat then Some x
  else if (x =? 1)%nat then Some y
  else if (y =? 1)%nat then Some x
  else None.

(** The index used in a dimension of size [d] when the result index is [i]:
    a dimension of size 1 is read at 0. *)
Definition bix (d i : nat) : nat := if (d =? 1)%nat then O else i.

(** Shapes are aligned on the right: the shorter one gets leading 1s. *)
Definition pad1 (r : nat) (sh : list nat) : list nat :=
  repeat 1%nat (r - length sh) ++ sh.

Fixpoint bshape (a b : list nat) : option (list nat) :=
  match a, b with
  | [], [] => Some []
  | x :: a', y :: b' =>
      match bdim x y, bshape a' b' with
      | Some d, Some r => Some (d :: r)
      | _, _ => None
      end
  | _, _ => None
  end.

Definition bidx (sh idx : list nat) : list nat :=
  map (fun di => bix (fst di) (snd di)) (combine sh idx).

(** The entry of [t] that a result of rank [r] reads at [idx]. *)
Definition bget (t : tensor) (r : nat) (idx : list nat) : Z :=
  let sh := pad1 r (shape t) in
  nth (offset sh (bidx sh idx)) (data t) 0.

(** An elementwise binary operation with broadcasting ([a + b], [a - b]);
    [RuntimeError] when the shapes do not broadcast. *)
Definition tzip (f : Z -> Z -> Z) (a b : tensor) : result tensor :=
  let r := Nat.max (length (shape a)) (length (shape b)) in
  match bshape (pad1 r (shape a)) (pad1 r (shape b)) with
  | Some sh => Ok (tab sh (fun idx => f (bget a r idx) (bget b r idx)))
  | None => Raise RuntimeError
  end.

Definition tadd : tensor -> tensor -> result tensor := tzip Z.add.
Definition tsub : tensor -> tensor -> result tensor := tzip Z.sub.

(** An elementwise unary operation ([abs], [sign], [clamp], a scalar factor). *)
Definition tmap (f : Z -> Z) (t : tensor) : tensor :=
  mkT (shape t) (map f (data t)).

(* ------------------------------------------------------------------ *)
(** ** [view] and [expand] *)
(* ------------------------------------------------------------------ *)

(** The product of a list of sizes. *)
Definition zprod (dims : list Z) : Z := fold_right Z.mul 1 dims.

(** The product of the sizes given to [view], the entry [-1] left out. *)
Definition known_prod (dims : list Z) : Z :=
  fold_right (fun d acc => if d =? -1 then acc else d * acc) 1 dims.

(** [t.view( *dims )]: the same storage under new sizes.  At most one size
    may be [-1]; it is inferred from the number of entries, which fails
    when the other sizes multiply to 0 or do not divide it.
    (Every tensor of this development is contiguous.) *)
Definition view (t : tensor) (dims : list Z) : result tensor :=
  if existsb (fun d => d <? -1) dims then Raise RuntimeError
  else
    let n := Z.of_nat (numel (shape t)) in
    let p := known_prod dims in
    match length (filter (Z.eqb (-1)) dims) with
    | O => if p =? n then Ok (mkT (map Z.to_nat dims) (data t))
           else Raise RuntimeError
    | 1%nat =>
        if negb (p =? 0) && (n mod p =? 0)
        then Ok (mkT (map (fun d => Z.to_nat (if d =? -1 then n / p else d)) dims)
                     (data t))
        else Raise RuntimeError
    | _ => Raise RuntimeError
    end.

(** One dimension of [expand]: size [-1] keeps the dimension, an equal size
    keeps it, and a dimension of size 1 can be expanded to any size. *)
Definition expand_dim (d : nat) (z : Z) : option nat :=
  if z =? -1 then Some d
  else if z =? Z.of_nat d then Some d
  else if (d =? 1)%nat && (0 <=? z) then Some (Z.to_nat z)
  else None.

Fixpoint expand_shape (sh : list nat) (sizes : list Z) : option (list nat) :=
  match sh, sizes with
  | [], [] => Some []
  | d :: sh', z :: sizes' =>
      match expand_dim d z, expand_shape sh' sizes' with
      | Some d', Some r => Some (d' :: r)
      | _, _ => None
      end
  | _, _ => None
  end.

(** [t.expand( *sizes )], for as many sizes as [t] has dimensions (the only
    use the source makes of it); anything else is reported as an error. *)
Definition expand (t : tensor) (sizes : list Z) : result tensor :=
  match expand_shape (shape t) sizes with
  | Some sh => Ok (tab sh (fun idx => bget t (length sh) idx))
  | None => Raise RuntimeError
  end.

(* ------------------------------------------------------------------ *)
(** ** Patch extraction and accumulation: [unfold] and [fold] *)
(* ------------------------------------------------------------------ *)

(** Number of window positions along one axis:
    [floor((size + 2*padding - kernel) / stride) + 1]. *)
Definition out_size (sz padding kernel_size stride : Z) : Z :=
  (sz + 2 * padding - kernel_size) / stride + 1.

(** Entry [(i, j)] of the zero-padded plane [(n, c)] of a rank-4 tensor. *)
Definition padded (x : tensor) (p n c i j : nat) : Z :=
  match shape x with
  | [_; _; H; W] =>
      if ((p <=? i) && (i <? H + p) && (p <=? j) && (j <? W + p))%nat
      then tget x [n; c; (i - p)%nat; (j - p)%nat]
      else 0
  | _ => 0
  end.

(** [torch.nn.functional.unfold(x, kernel_size, padding=, stride=)] on a
    batched input [(N, C, H, W)]: the result has shape [(N, C*K*K, L)],
    row [j = (c*K + a)*K + b] and column [l = u*W_out + v] holding the padded
    input at [(n, c, u*stride + a, v*stride + b)].  The arguments are checked
    as PyTorch checks them: positive kernel and stride, non-negative padding,
    a non-empty input and at least one window position per axis. *)
Definition unfold (x : tensor) (kernel_size padding stride : Z) : result tensor :=
  match shape x with
  | [N; C; H; W] =>
      if (kernel_size <=? 0) || (padding <? 0) || (stride <=? 0)
      then Raise RuntimeError
      else if (numel (shape x) =? 0)%nat then Raise RuntimeError
      else
        let Ho := out_size (Z.of_nat H) padding kernel_size stride in
        let Wo := out_size (Z.of_nat W) padding kernel_size stride in
        if (Ho <? 1) || (Wo <? 1) then Raise RuntimeError
        else
          let k := Z.to_nat kernel_size in
          let p := Z.to_nat padding in
          let s := Z.to_nat stride in
          let wo := Z.to_nat Wo in
          Ok (tab [N; (C * k * k)%nat; (Z.to_nat Ho * wo)%nat]
                (fun idx =>
                   match idx with
                   | [n; j; l] =>
                       padded x p n (j / (k * k))
                         (l / wo * s + (j / k) mod k)
                         (l mod wo * s + j mod k)
                   | _ => 0
                   end))
  | _ => Raise RuntimeError
  end.

(** [torch.nn.functional.fold(g, (H, W), kernel_size, padding=, stride=)] on
    [(N, C*K*K, L)]: every entry of every patch is added into the position of
    the padded [(H, W)] plane it was taken from, and the padding border is
    dropped.  Written from the side of the result: entry [(n, c, h, w)] is
    the sum of the patch entries [(a, b)] of the windows [(u, v)] that lie
    on it, that is with [u*stride + a = h + padding] and
    [v*stride + b = w + padding]. *)
Definition fold (g : tensor) (output_size : Z * Z)
    (kernel_size padding stride : Z) : result tensor :=
  match shape g with
  | [N; J; L] =>
      let (H, W) := output_size in
      if (kernel_size <=? 0) || (padding <? 0) || (stride <=? 0)
         || (H <=? 0) || (W <=? 0)
      then Raise RuntimeError
      else if (numel (shape g) =? 0)%nat then Raise RuntimeError
      else
        let k := Z.to_nat kernel_size in
        let p := Z.to_nat padding in
        let s := Z.to_nat stride in
        let Ho := out_size H padding kernel_size stride in
        let Wo := out_size W padding kernel_size stride in
        if (Ho <? 1) || (Wo <? 1) then Raise RuntimeError
        else
          let ho := Z.to_nat Ho in
          let wo := Z.to_nat Wo in
          if negb (J mod (k * k) =? 0)%nat || negb (L =? ho * wo)%nat
          then Raise RuntimeError
          else
            Ok (tab [N; (J / (k * k))%nat; Z.to_nat H; Z.to_nat W]
                  (fun idx =>
                     match idx with
                     | [n; c; h; w] =>
                         zsum k (fun a => zsum k (fun b =>
                         zsum ho (fun u => zsum wo (fun v =>
                           if ((u * s + a =? h + p) && (v * s + b =? w + p))%nat
                           then tget g [n; ((c * k + a) * k + b)%nat;
                                        (u * wo + v)%nat]
                           else 0))))
                     | _ => 0
                     end))
  | _ => Raise RuntimeError
  end.

(* ------------------------------------------------------------------ *)
(** ** The three contractions and the reduction of the operator *)
(* ------------------------------------------------------------------ *)

Definition lift_dim (d : option nat) : result nat :=
  match d with Some n => Ok n | None => Raise RuntimeError end.

(** [torch.einsum('ncw,oc->now', a, b)] *)
Definition einsum_ncw_oc_now (a b : tensor) : result tensor :=
  match shape a, shape b with
  | [N; C1; W], [Co; C2] =>
      (C <- lift_dim (bdim C1 C2) ;;
       Ok (tab [N; Co; W]
             (fun idx =>
                match idx with
                | [n; o; w] =>
                    zsum C (fun c => tget a [n; bix C1 c; w] * tget b [o; bix C2 c])
                | _ => 0
                end)))%result
  | _, _ => Raise RuntimeError
  end.

(** [torch.einsum('nouv,oiab->niabuv', g, w)] *)
Definition einsum_nouv_oiab_niabuv (g w : tensor) : result tensor :=
  match shape g, shape w with
  | [N; O1; U; V], [O2; Ci; A; B] =>
      (Co <- lift_dim (bdim O1 O2) ;;
       Ok (tab [N; Ci; A; B; U; V]
             (fun idx =>
                match idx with
                | [n; i; a; b; u; v] =>
                    zsum Co (fun o => tget g [n; bix O1 o; u; v]
                                     * tget w [bix O2 o; i; a; b])
                | _ => 0
                end)))%result
  | _, _ => Raise RuntimeError
  end.

(** [torch.einsum('nouv,ncuv->oc', g, x)] *)
Definition einsum_nouv_ncuv_oc (g x : tensor) : result tensor :=
  match shape g, shape x with
  | [N1; Co; U1; V1], [N2; C; U2; V2] =>
      (N <- lift_dim (bdim N1 N2) ;;
       U <- lift_dim (bdim U1 U2) ;;
       V <- lift_dim (bdim V1 V2) ;;
       Ok (tab [Co; C]
             (fun idx =>
                match idx with
                | [o; c] =>
                    zsum N (fun n => zsum U (fun u => zsum V (fun v =>
                      tget g [bix N1 n; o; bix U1 u; bix V1 v]
                      * tget x [bix N2 n; c; bix U2 u; bix V2 v])))
                | _ => 0
                end)))%result
  | _, _ => Raise RuntimeError
  end.

(** [g.sum((0, 2, 3))] on a rank-4 tensor. *)
Definition sum_023 (g : tensor) : result tensor :=
  match shape g with
  | [N; Co; U; V] =>
      Ok (tab [Co]
            (fun idx =>
               match idx with
               | [o] => zsum N (fun n => zsum U (fun u => zsum V (fun v =>
                          tget g [n; o; u; v])))
               | _ => 0
               end))
  | _ => Raise IndexError
  end.

(* ================================================================== *)
(** * Part I: [CustomConv2DFunction] *)
(* ================================================================== *)

(** The context object [ctx] that autograd hands to [forward] and later to
    [backward].  [needs_input_grad] is filled in by autograd before
    [forward] runs (one flag per tensor argument: input, weight, bias); the
    other attributes do not exist until [forward] assigns them. *)
Record Ctx : Type := mkCtx {
  needs_input_grad : bool * bool * bool;
  ctx_batch_size : option Z;
  ctx_stride : option pyval;
  ctx_padding : option pyval;
  ctx_input_height : option Z;
  ctx_input_width : option Z;
  saved_tensors : option (tensor * tensor * option tensor)
}.

(** The context of a fresh call. *)
Definition new_ctx (needs : bool * bool * bool) : Ctx :=
  mkCtx needs None None None None None None.

(** Code that reads and writes a state [S] and may raise; the state
    survives an exception, as the attributes of a Python object do. *)
Definition ST (S A : Type) : Type := S -> result A * S.

Definition ret {S A} (a : A) : ST S A := fun c => (Ok a, c).

Definition bind {S A B} (m : ST S A) (k : A -> ST S B) : ST S B :=
  fun c => match m c with
           | (Ok a, c') => k a c'
           | (Raise e, c') => (Raise e, c')
           end.

Definition lift {S A} (r : result A) : ST S A := fun c => (r, c).

Definition raise {S A} (e : exn) : ST S A := fun c => (Raise e, c).

Declare Scope st_scope.
Delimit Scope st_scope with st.
Notation "x <- m ;; k" := (bind m (fun x => k))
  (at level 61, m at next level, right associativity) : st_scope.
Notation "' pat <- m ;; k" := (bind m (fun x => match x with pat => k end))
  (at level 61, pat pattern, m at next level, right associativity) : st_scope.
Notation "m ;;; k" := (bind m (fun _ => k))
  (at level 61, right associativity) : st_scope.

(** Code of the operator: the state is [ctx]. *)
Definition M (A : Type) : Type := ST Ctx A.

(** [assert b] *)
Definition assert_ (b : bool) : M unit :=
  if b then ret tt else raise AssertionError.

(** [assert isinstance(v, int) and ok(v)]; the integer is handed on. *)
Definition assert_int (v : pyval) (ok : Z -> bool) : M Z :=
  match v with
  | PyInt z => if ok z then ret z else raise AssertionError
  | _ => raise AssertionError
  end.

(** Attribute assignments [ctx.attr = value]. *)
Definition set_batch_size (n : Z) : M unit :=
  fun c => (Ok tt, mkCtx (needs_input_grad c) (Some n) (ctx_stride c)
                     (ctx_padding c) (ctx_input_height c) (ctx_input_width c)
                     (saved_tensors c)).
Definition set_stride (v : pyval) : M unit :=
  fun c => (Ok tt, mkCtx (needs_input_grad c) (ctx_batch_size c) (Some v)
                     (ctx_padding c) (ctx_input_height c) (ctx_input_width c)
                     (saved_tensors c)).
Definition set_padding (v : pyval) : M unit :=
  fun c => (Ok tt, mkCtx (needs_input_grad c) (ctx_batch_size c) (ctx_stride c)
                     (Some v) (ctx_input_height c) (ctx_input_width c)
                     (saved_tensors c)).
Definition set_input_height (h : Z) : M unit :=
  fun c => (Ok tt, mkCtx (needs_input_grad c) (ctx_batch_size c) (ctx_stride c)
                     (ctx_padding c) (Some h) (ctx_input_width c)
                     (saved_tensors c)).
Definition set_input_width (w : Z) : M unit :=
  fun c => (Ok tt, mkCtx (needs_input_grad c) (ctx_batch_size c) (ctx_stride c)
                     (ctx_padding c) (ctx_input_height c) (Some w)
                     (saved_tensors c)).

(** [ctx.save_for_backward(windows, weight, bias)] *)
Definition save_for_backward (windows weight : tensor) (bias : option tensor)
  : M unit :=
  fun c => (Ok tt, mkCtx (needs_input_grad c) (ctx_batch_size c) (ctx_stride c)
                     (ctx_padding c) (ctx_input_height c) (ctx_input_width c)
                     (Some (windows, weight, bias))).

(** Reading an attribute that was never assigned is an [AttributeError]. *)
Definition get_attr {A} (proj : Ctx -> option A) : M A :=
  fun c => match proj c with
           | Some a => (Ok a, c)
           | None => (Raise AttributeError, c)
           end.

(** [windows, weight, bias = ctx.saved_tensors]: nothing saved is the empty
    tuple, which does not unpack. *)
Definition get_saved : M (tensor * tensor * option tensor) :=
  fun c => match saved_tensors c with
           | Some s => (Ok s, c)
           | None => (Raise ValueError, c)
           end.

Definition get_needs : M (bool * bool * bool) :=
  fun c => (Ok (needs_input_grad c), c).

(** A method call on [bias]: [None] has no attribute [view]. *)
Definition deref (b : option tensor) : result tensor :=
  match b with
  | Some t => Ok t
  | None => Raise AttributeError
  end.

(** A Python value used where PyTorch wants an integer. *)
Definition as_int (v : pyval) : result Z :=
  match v with
  | PyInt z => Ok z
  | _ => Raise TypeError
  end.

(** [C_o, C_i = weight.size()[:2]] *)
Definition size_2 (t : tensor) : result (Z * Z) :=
  match firstn 2 (shape t) with
  | [a; b] => Ok (Z.of_nat a, Z.of_nat b)
  | _ => Raise ValueError
  end.

(** [C_o, H_o, W_o = grad_output.size()[1:]] *)
Definition size_tail3 (t : tensor) : result (Z * Z * Z) :=
  match tl (shape t) with
  | [a; b; c] => Ok (Z.of_nat a, Z.of_nat b, Z.of_nat c)
  | _ => Raise ValueError
  end.

Open Scope st_scope.

(** Lines 42-58 of [forward]: the sanity checks and the saving of the
    convolution parameters.  The result is what the rest of the function
    uses: kernel size, batch size, input height and width, stride and
    padding. *)
Definition forward_checks (input_feats weight : tensor) (stride padding : pyval)
  : M (Z * Z * Z * Z * Z * Z) :=
  (* sanity check *)
  k2 <- lift (size weight 2) ;;
  k3 <- lift (size weight 3) ;;
  assert_ (k2 =? k3) ;;;
  ci <- lift (size input_feats 1) ;;
  cw <- lift (size weight 1) ;;
  assert_ (ci =? cw) ;;;
  s <- assert_int stride (fun z => z >? 0) ;;
  p <- assert_int padding (fun z => z >=? 0) ;;
  (* save the conv params *)
  kernel_size <- lift (size weight 2) ;;
  n <- lift (size input_feats 0) ;;
  set_batch_size n ;;;
  set_stride stride ;;;
  set_padding padding ;;;
  h <- lift (size input_feats 2) ;;
  set_input_height h ;;;
  w <- lift (size input_feats 3) ;;
  set_input_width w ;;;
  (* make sure this is a valid convolution *)
  assert_ (kernel_size <=? h + 2 * p) ;;;
  assert_ (kernel_size <=? w + 2 * p) ;;;
  ret (kernel_size, n, h, w, s, p).

(** Lines 63-74 of [forward]: the computation of the output. *)
Definition forward_compute (input_feats weight : tensor) (bias : option tensor)
    (kernel_size batch_size input_height input_width stride padding : Z)
  : M tensor :=
  '(C_o, C_i) <- lift (size_2 weight) ;;
  let H_o := 1 + (input_height + 2 * padding - kernel_size) / stride in
  let W_o := 1 + (input_width + 2 * padding - kernel_size) / stride in
  windows <- lift (unfold input_feats kernel_size padding stride) ;;
  kernels <- lift (view weight [C_o; C_i * kernel_size * kernel_size]) ;;
  prod <- lift (einsum_ncw_oc_now windows kernels) ;;
  out0 <- lift (view prod [-1; C_o; H_o; W_o]) ;;
  b <- lift (deref bias) ;;
  bv <- lift (view b [1; -1; 1; 1]) ;;
  be <- lift (expand bv [batch_size; -1; H_o; W_o]) ;;
  output <- lift (tadd out0 be) ;;
  (* save for backward *)
  save_for_backward windows weight bias ;;;
  ret output.

(** [CustomConv2DFunction.forward(ctx, input_feats, weight, bias, stride,
    padding)] *)
Definition forward (input_feats weight : tensor) (bias : option tensor)
    (stride padding : pyval) : M tensor :=
  '(kernel_size, n, h, w, s, p) <- forward_checks input_feats weight stride padding ;;
  forward_compute input_feats weight bias kernel_size n h w s p.

(** [CustomConv2DFunction.backward(ctx, grad_output)].  The source returns
    five values, the last two (for [stride] and [padding]) always [None];
    the model returns the first three. *)
Definition backward (grad_output : tensor)
  : M (option tensor * option tensor * option tensor) :=
  (* unpack tensors and initialize the grads *)
  '(windows, weight, bias) <- get_saved ;;
  (* recover the conv params *)
  kernel_size <- lift (size weight 2) ;;
  stride <- get_attr ctx_stride ;;
  padding <- get_attr ctx_padding ;;
  batch_size <- get_attr ctx_batch_size ;;
  input_height <- get_attr ctx_input_height ;;
  input_width <- get_attr ctx_input_width ;;
  (* compute the gradients w.r.t. input and params *)
  C_i <- lift (size weight 1) ;;
  '(C_o, H_o, W_o) <- lift (size_tail3 grad_output) ;;
  '(need_input, need_weight, need_bias) <- get_needs ;;
  grad_input <-
    (if need_input then
       g6 <- lift (einsum_nouv_oiab_niabuv grad_output weight) ;;
       grad_windows <- lift (view g6 [batch_size; C_i * kernel_size * kernel_size; -1]) ;;
       p <- lift (as_int padding) ;;
       s <- lift (as_int stride) ;;
       gi <- lift (fold grad_windows (input_height, input_width) kernel_size p s) ;;
       ret (Some gi)
     else ret None) ;;
  grad_weight <-
    (if need_weight then
       w4 <- lift (view windows [batch_size; -1; H_o; W_o]) ;;
       g2 <- lift (einsum_nouv_ncuv_oc grad_output w4) ;;
       gw <- lift (view g2 [C_o; C_i; kernel_size; kernel_size]) ;;
       ret (Some gw)
     else ret None) ;;
  grad_bias <-
    (match bias with
     | Some _ =>
         if need_bias then
           (* compute the gradients w.r.t. bias (if any) *)
           gb <- lift (sum_023 grad_output) ;;
           ret (Some gb)
         else ret None
     | None => ret None
     end) ;;
  ret (grad_input, grad_weight, grad_bias).

Close Scope st_scope.

(* ================================================================== *)
(** * Part III: [PGDAttack] and [GradAttention] *)
(* ================================================================== *)

(* ------------------------------------------------------------------ *)
(** ** Reductions along dimension 1 *)
(* ------------------------------------------------------------------ *)

(** Index of the first minimum of [f 0], ..., [f (c-1)]. *)
Fixpoint argmin_upto (c : nat) (f : nat -> Z) : nat :=
  match c with
  | O => O
  | S c' => let i := argmin_upto c' f in
            if (0 <? c')%nat && (f c' <? f i) then c' else i
  end.

(** Index of the first maximum of [f 0], ..., [f (c-1)]. *)
Fixpoint argmax_upto (c : nat) (f : nat -> Z) : nat :=
  match c with
  | O => O
  | S c' => let i := argmax_upto c' f in
            if (0 <? c')%nat && (f i <? f c') then c' else i
  end.

(** The maximum of [f 0], ..., [f (c-1)], for [c >= 1]. *)
Fixpoint zmax_upto (c : nat) (f : nat -> Z) : Z :=
  match c with
  | O => 0
  | S c' => if (c' =? 0)%nat then f O else Z.max (zmax_upto c' f) (f c')
  end.

(** A reduction [r] along dimension 1: from shape [n :: c :: rest] to
    [n :: rest].  Fewer than two dimensions is an [IndexError], an empty
    dimension 1 an error as well. *)
Definition reduce_dim1 (r : nat -> (nat -> Z) -> Z) (t : tensor) : result tensor :=
  match shape t with
  | n :: c :: rest =>
      if (c =? 0)%nat then Raise IndexError
      else Ok (tab (n :: rest)
                 (fun idx =>
                    match idx with
                    | i :: tl => r c (fun k => tget t (i :: k :: tl))
                    | [] => 0
                    end))
  | _ => Raise IndexError
  end.

(** [torch.argmin(t, dim=1)] *)
Definition argmin_dim1 : tensor -> result tensor :=
  reduce_dim1 (fun c f => Z.of_nat (argmin_upto c f)).

(** [torch.argmax(t, dim=1)] *)
Definition argmax_dim1 : tensor -> result tensor :=
  reduce_dim1 (fun c f => Z.of_nat (argmax_upto c f)).

(** [torch.max(t, 1)[0]] *)
Definition max_dim1 : tensor -> result tensor := reduce_dim1 zmax_upto.

(** [torch.clamp(x, lo, hi)] on one entry. *)
Definition clamp (lo hi x : Z) : Z := Z.min (Z.max x lo) hi.

(* ------------------------------------------------------------------ *)
(** ** Tensors under autograd *)
(* ------------------------------------------------------------------ *)

(** How autograd sees a tensor: it does not require gradients (such a
    tensor is a leaf by convention), it is a leaf that requires them, or it
    is the result of an operation on a tensor that requires them. *)
Inductive gstate : Type := NoGrad | LeafGrad | NonLeaf.

(** A tensor object: its entries, its autograd state and its [.grad]. *)
Record tobj : Type := mkObj { val : tensor; gst : gstate; grad : option tensor }.

Definition requires_grad (t : tobj) : bool :=
  match gst t with NoGrad => false | _ => true end.

Definition is_leaf (t : tobj) : bool :=
  match gst t with NonLeaf => false | _ => true end.

(** [t.requires_grad = b]: PyTorch refuses to change the flag of a tensor
    that is not a leaf. *)
Definition set_requires_grad (t : tobj) (b : bool) : result tobj :=
  match gst t with
  | NonLeaf => Raise RuntimeError
  | _ => Ok (mkObj (val t) (if b then LeafGrad else NoGrad) (grad t))
  end.

(** [t.clone()]: a new tensor with the same entries; it is part of the graph
    of [t] when [t] requires gradients. *)
Definition clone (t : tobj) : tobj :=
  mkObj (val t) (if requires_grad t then NonLeaf else NoGrad) None.

(** The result [v] of an operation, [req] telling whether an operand
    requires gradients. *)
Definition derived (v : tensor) (req : bool) : tobj :=
  mkObj v (if req then NonLeaf else NoGrad) None.

(** [t.detach_()] *)
Definition detach_ (t : tobj) : tobj := mkObj (val t) NoGrad (grad t).

(** Reading [t.grad] where a tensor is needed: [None] is a [TypeError]. *)
Definition get_grad (t : tobj) : result tensor :=
  match grad t with
  | Some g => Ok g
  | None => Raise TypeError
  end.

(** Autograd adds a new gradient to the one already stored. *)
Definition accumulate (old : option tensor) (g : tensor) : result tensor :=
  match old with
  | None => Ok g
  | Some o => tadd o g
  end.

(* ------------------------------------------------------------------ *)
(** ** The model and the loss as black boxes *)
(* ------------------------------------------------------------------ *)

(** A differentiable classifier: its predictions for an input, which may
    depend on the [training] flag, and the gradient that reverse-mode
    differentiation returns at the input for a gradient [g] at the
    predictions.  The predictions have a class dimension (dimension 1) with
    at least one class, and an input gradient has the shape of the input. *)
Record network : Type := mkNet {
  fwd : bool -> tensor -> tensor;
  vjp : bool -> tensor -> tensor -> tensor;
  fwd_classes : forall m x, exists n c rest, shape (fwd m x) = n :: S c :: rest;
  vjp_shape : forall m x g, shape (vjp m x g) = shape x;
  vjp_wf : forall m x g, wf x -> wf (vjp m x g)
}.

(** A differentiable loss [(predictions, targets) -> scalar]: its value and
    its gradient at the predictions. *)
Record lossfn : Type := mkLoss {
  loss : tensor -> tensor -> Z;
  dloss : tensor -> tensor -> tensor
}.

(** The mutable part of a model object: its [training] flag.  [queries]
    is a record of the forward calls made so far, each with the value of the
    flag under which the model ran. *)
Record mstate : Type := mkM { training : bool; queries : list bool }.

(** What [perturb] and [explain] can change: the caller's [input] tensor
    and the model. *)
Record heap : Type := mkHeap { input : tobj; model : mstate }.

Definition get_input : ST heap tobj := fun h => (Ok (input h), h).

Definition put_input (t : tobj) : ST heap unit :=
  fun h => (Ok tt, mkHeap t (model h)).

Definition get_training : ST heap bool := fun h => (Ok (training (model h)), h).

(** [self.training = b] *)
Definition set_training (b : bool) : ST heap unit :=
  fun h => (Ok tt, mkHeap (input h) (mkM b (queries (model h)))).

(** [pred = model(x)]: the model runs under its current flag; the flag is
    returned with the predictions because the graph that [backward] walks
    later was built under it. *)
Definition call_model (net : network) (x : tensor) : ST heap (tensor * bool) :=
  fun h =>
    let m := training (model h) in
    (Ok (fwd net m x, m),
     mkHeap (input h) (mkM m (queries (model h) ++ [m]))).

(** [loss = loss_fn(pred, target); loss.backward()] seen from the tensor
    [x] the model was called on: when [x] requires gradients, the gradient
    of the loss at [x] is accumulated into [x.grad]. *)
Definition loss_backward (net : network) (l : lossfn) (m : bool)
    (x : tobj) (pred target : tensor) : result tobj :=
  if requires_grad x then
    (g <- accumulate (grad x) (vjp net m (val x) (dloss l pred target)) ;;
     Ok (mkObj (val x) (gst x) (Some g)))%result
  else Ok x.

(* ------------------------------------------------------------------ *)
(** ** [PGDAttack] *)
(* ------------------------------------------------------------------ *)

(** The attributes set by [PGDAttack.__init__]. *)
Record PGDAttack : Type := mkPGD {
  loss_fn : lossfn;
  num_steps : Z;
  step_size : Z;
  epsilon : Z
}.

Open Scope st_scope.

(** One pass through the body of the loop of [perturb] (lines 646-651). *)
Definition pgd_step (self : PGDAttack) (net : network) (output : tobj)
  : ST heap tobj :=
  output <- lift (set_requires_grad output true) ;;
  '(pred, m) <- call_model net (val output) ;;
  target <- lift (argmin_dim1 pred) ;;
  output <- lift (loss_backward net (loss_fn self) m output pred target) ;;
  g <- lift (get_grad output) ;;
  v <- lift (tsub (val output) (tmap (Z.mul (step_size self)) (tmap Z.sgn g))) ;;
  let output := derived v (requires_grad output) in
  ret (detach_ output).

(** [for _ in range(n)] around the body. *)
Fixpoint pgd_loop (self : PGDAttack) (net : network) (n : nat) (output : tobj)
  : ST heap tobj :=
  match n with
  | O => ret output
  | S n' => output' <- pgd_step self net output ;;
            pgd_loop self net n' output'
  end.

(** [PGDAttack.perturb(self, model, input)] *)
Definition perturb (self : PGDAttack) (net : network) : ST heap tobj :=
  (* clone the input tensor and disable the gradients *)
  inp <- get_input ;;
  let output := clone inp in
  inp' <- lift (set_requires_grad inp false) ;;
  put_input inp' ;;;
  (* loop over the number of steps *)
  output <- pgd_loop self net (Z.to_nat (num_steps self)) output ;;
  inp <- get_input ;;
  d <- lift (tsub (val output) (val inp)) ;;
  let delta := tmap (clamp (- epsilon self) (epsilon self)) d in
  v <- lift (tadd (val inp) delta) ;;
  ret (derived v (requires_grad inp || requires_grad output)).

(** Lines 217-222 of [SimpleNet.forward], the caller of [perturb] in the
    source: in training mode the model switches itself to inference mode,
    attacks its own input and switches back.  [pgd] stands for
    [PGDAttack(nn.CrossEntropyLoss())]. *)
Definition SimpleNet_forward_attack (pgd : PGDAttack) (net : network)
  : ST heap tobj :=
  tr <- get_training ;;
  if tr then
    set_training false ;;;
    x <- perturb pgd net ;;
    set_training true ;;;
    ret x
  else get_input.

(* ------------------------------------------------------------------ *)
(** ** [GradAttention] *)
(* ------------------------------------------------------------------ *)

(** [if input.grad is not None: input.grad.zero_()] *)
Definition zero_grad (t : tobj) : tobj :=
  match grad t with
  | Some g => mkObj (val t) (gst t) (Some (tmap (fun _ => 0) g))
  | None => t
  end.

(** [GradAttention.explain(self, model, input)], [self.loss_fn] being [l]. *)
Definition explain (l : lossfn) (net : network) : ST heap tensor :=
  (* make sure input receive grads *)
  inp <- get_input ;;
  inp <- lift (set_requires_grad inp true) ;;
  put_input inp ;;;
  put_input (zero_grad inp) ;;;
  inp <- get_input ;;
  '(pred, m) <- call_model net (val inp) ;;
  target <- lift (argmax_dim1 pred) ;;
  inp <- lift (loss_backward net l m inp pred target) ;;
  put_input inp ;;;
  g <- lift (get_grad inp) ;;
  mx <- lift (max_dim1 (tmap Z.abs g)) ;;
  n <- lift (size (val inp) 0) ;;
  h <- lift (size (val inp) 2) ;;
  w <- lift (size (val inp) 3) ;;
  lift (view mx [n; 1; h; w]).

Close Scope st_scope.

(** Number of window positions along an axis of size [sz], as a natural
    number: [floor((sz + 2p - k) / s) + 1]. *)
Definition osz (sz p k s : nat) : nat := ((sz + 2 * p - k) / s + 1)%nat.

(** The context once [forward] has stored the parameters of a call. *)
Definition ctx_with (c : Ctx) (N H W : nat) (stride padding : pyval)
    (saved : option (tensor * tensor * option tensor)) : Ctx :=
  mkCtx (needs_input_grad c) (Some (Z.of_nat N)) (Some stride) (Some padding)
    (Some (Z.of_nat H)) (Some (Z.of_nat W)) saved.

(** The ways a call of [forward] on a rank-4 input and a rank-4 weight can
    violate the preconditions of the operator. *)
Inductive violates (x w : tensor) (stride padding : pyval) : Prop :=
| non_square_kernel Co Cw K1 K2 :
    shape w = [Co; Cw; K1; K2] -> K1 <> K2 -> violates x w stride padding
| channel_mismatch N Ci H W Co Cw K1 K2 :
    shape x = [N; Ci; H; W] -> shape w = [Co; Cw; K1; K2] -> Ci <> Cw ->
    violates x w stride padding
| stride_not_int :
    isinstance_int stride = false -> violates x w stride padding
| stride_not_positive z :
    stride = PyInt z -> z <= 0 -> violates x w stride padding
| padding_not_int :
    isinstance_int padding = false -> violates x w stride padding
| padding_negative z :
    padding = PyInt z -> z < 0 -> violates x w stride padding
| kernel_too_tall N Ci H W Co Cw K1 K2 p :
    shape x = [N; Ci; H; W] -> shape w = [Co; Cw; K1; K2] ->
    padding = PyInt p -> Z.of_nat K1 > Z.of_nat H + 2 * p ->
    violates x w stride padding
| kernel_too_wide N Ci H W Co Cw K1 K2 p :
    shape x = [N; Ci; H; W] -> shape w = [Co; Cw; K1; K2] ->
    padding = PyInt p -> Z.of_nat K1 > Z.of_nat W + 2 * p ->
    violates x w stride padding.

(** The sum of [f] over all the indices of a shape. *)
Fixpoint sum_over (sh : list nat) (f : list nat -> Z) : Z :=
  match sh with
  | [] => f []
  | d :: sh' => zsum d (fun i => sum_over sh' (fun idx => f (i :: idx)))
  end.

(** The pairing of two tensors of one shape: the sum of the products of
    their entries. *)
Definition tdot (a b : tensor) : Z :=
  sum_over (shape a) (fun idx => tget a idx * tget b idx).

(** [torch.ones(sh)] *)
Definition ones (sh : list nat) : tensor := tab sh (fun _ => 1).

(* ------------------------------------------------------------------ *)
(** ** A small call of the operator, used to run the definitions *)
(* ------------------------------------------------------------------ *)

(** A [1 x 1 x 3 x 3] input, two [1 x 2 x 2] filters and their bias. *)
Definition ex_input : tensor := mkT [1; 1; 3; 3]%nat [1; 2; 3; 4; 5; 6; 7; 8; 9].
Definition ex_weight : tensor := mkT [2; 1; 2; 2]%nat [1; 0; 0; 1; 1; 1; 1; 1].
Definition ex_bias : tensor := mkT [2]%nat [10; 20].
Definition ex_grad_output : tensor := mkT [1; 2; 2; 2]%nat [1; 1; 1; 1; 1; 1; 1; 1].
Definition ex_ctx : Ctx := new_ctx (true, true, true).

(** A weight whose kernels are [2 x 3]. *)
Definition ex_weight_2x3 : tensor :=
  mkT [2; 1; 2; 3]%nat [1; 0; 0; 1; 1; 1; 1; 1; 0; 0; 0; 0].

(** The attributes of a [CustomConv2d] layer that its [forward] uses;
    [bias=False] at construction leaves [layer_bias] at [None]. *)
Record CustomConv2d : Type := mkConv {
  layer_weight : tensor;
  layer_bias : option tensor;
  layer_stride : pyval;
  layer_padding : pyval
}.

(** [CustomConv2d.forward(self, input)] (line 166). *)
Definition CustomConv2d_forward (self : CustomConv2d) (input : tensor) : M tensor :=
  forward input (layer_weight self) (layer_bias self)
    (layer_stride self) (layer_padding self).

(** A layer built with [bias=False]. *)
Definition ex_layer_no_bias : CustomConv2d :=
  mkConv ex_weight None (PyInt 1) (PyInt 0).

(* ------------------------------------------------------------------ *)
(** ** The attack as the specification words it *)
(* ------------------------------------------------------------------ *)

(** An operation applied entry by entry to two tensors of one shape. *)
Definition ewise2 (f : Z -> Z -> Z) (a b : tensor) : tensor :=
  mkT (shape a) (map (fun xy => f (fst xy) (snd xy)) (combine (data a) (data b))).

(** The least confident class of every sample: the position of the smallest
    prediction score along the class dimension. *)
Definition least_confident (pred : tensor) : tensor :=
  match shape pred with
  | n :: c :: rest =>
      tab (n :: rest)
        (fun idx =>
           match idx with
           | i :: tl => Z.of_nat (argmin_upto c (fun k => tget pred (i :: k :: tl)))
           | [] => 0
           end)
  | _ => pred
  end.

(** One iteration: the gradient of the loss against the least confident
    class, then [x - step_size * sign(gradient)]. *)
Definition pgd_spec_step (self : PGDAttack) (net : network) (m : bool)
    (x : tensor) : tensor :=
  let pred := fwd net m x in
  let target := least_confident pred in
  let gradient := vjp net m x (dloss (loss_fn self) pred target) in
  ewise2 (fun xi gi => xi - step_size self * Z.sgn gi) x gradient.

(** [num_steps] iterations from the input, then the displacement clipped to
    [[-epsilon, epsilon]] and added back to the input. *)
Definition pgd_spec (self : PGDAttack) (net : network) (m : bool)
    (inp : tensor) : tensor :=
  let out := Nat.iter (Z.to_nat (num_steps self)) (pgd_spec_step self net m) inp in
  ewise2 (fun xi oi => xi + clamp (- epsilon self) (epsilon self) (oi - xi)) inp out.

(** The heap after [n] more forward calls of the model. *)
Definition queried (n : nat) (h : heap) : heap :=
  mkHeap (input h)
    (mkM (training (model h))
       (queries (model h) ++ repeat (training (model h)) n)).

(** The entries of a tensor object, its gradient flag cleared. *)
Definition no_grad (t : tobj) : tobj := mkObj (val t) NoGrad (grad t).

(* ------------------------------------------------------------------ *)
(** ** A small classifier and loss, used to run the definitions *)
(* ------------------------------------------------------------------ *)

(** A linear two-class model on any input: the score of class 0 is the sum
    of the products of the entries with the coefficients [-3, -2, -1, 0, 1,
    ...], and the score of class 1 is its opposite.  Its input gradient for
    a gradient [g] at the two scores is [(g0 - g1)] times the coefficients. *)
Definition ex_coeff (k : nat) : Z := Z.of_nat k - 3.

Definition ex_score (x : tensor) : Z :=
  zsum (length (data x)) (fun k => ex_coeff k * nth k (data x) 0).

Definition ex_fwd (m : bool) (x : tensor) : tensor :=
  mkT [1; 2]%nat [ex_score x; - ex_score x].

Definition ex_vjp (m : bool) (x g : tensor) : tensor :=
  mkT (shape x)
    (map (fun k => (nth 0 (data g) 0 - nth 1 (data g) 0) * ex_coeff k)
       (seq 0 (numel (shape x)))).

Definition ex_net : network :=
  mkNet ex_fwd ex_vjp
    (fun m x => ex_intro _ 1%nat (ex_intro _ 1%nat (ex_intro _ [] eq_refl)))
    (fun m x g => eq_refl)
    (fun m x g _ =>
       eq_trans (length_map _ (seq 0 (numel (shape x))))
                (length_seq (numel (shape x)) 0)).

(** The loss is the score of the target class of the first sample. *)
Definition ex_loss : lossfn :=
  mkLoss
    (fun pred target => nth (Z.to_nat (nth 0 (data target) 0)) (data pred) 0)
    (fun pred target =>
       mkT (shape pred)
         (map (fun k => if (Z.of_nat k =? nth 0 (data target) 0) then 1 else 0)
            (seq 0 (length (data pred))))).

(** Three steps of size 1 within a budget of 2. *)
Definition ex_attack : PGDAttack := mkPGD ex_loss 3 1 2.

(** The same attack without iterations. *)
Definition ex_attack_0 : PGDAttack := mkPGD ex_loss 0 1 2.

(** A [1 x 2 x 2 x 2] image, as a batch from a data loader (no gradients)
    and as a leaf that requires gradients. *)
Definition ex_image_data : tensor := mkT [1; 2; 2; 2]%nat [5; -3; 0; 2; 1; 1; -4; 7].
Definition ex_image : tobj := mkObj ex_image_data NoGrad None.
Definition ex_image_grad : tobj := mkObj ex_image_data LeafGrad None.

(** A model in training mode that has not been called yet. *)
Definition ex_model : mstate := mkM true [].

Definition ex_heap : heap := mkHeap ex_image ex_model.
Definition ex_heap_grad : heap := mkHeap ex_image_grad ex_model.

(** The most confident class of every sample: the position of the largest
    prediction score along the class dimension. *)
Definition most_confident (pred : tensor) : tensor :=
  match shape pred with
  | n :: c :: rest =>
      tab (n :: rest)
        (fun idx =>
           match idx with
           | i :: tl => Z.of_nat (argmax_upto c (fun k => tget pred (i :: k :: tl)))
           | [] => 0
           end)
  | _ => pred
  end.

(** The [.grad] of a tensor object, when there is one, has the shape of the
    tensor. *)
Definition grad_ok (t : tobj) : Prop :=
  match grad t with
  | Some g => shape g = shape (val t) /\ wf g
  | None => True
  end.

(** The gradient that [explain] obtains for an input with entries [x]. *)
Definition saliency_grad (l : lossfn) (net : network) (m : bool) (x : tensor)
  : tensor :=
  let pred := fwd net m x in
  vjp net m x (dloss l pred (most_confident pred)).

(** C8 as the specification states it, for one call: the model is queried
    in inference mode only, its flag is restored, and the caller's input
    tensor is the same object state as before. *)
Definition perturb_frame_claim (self : PGDAttack) (net : network) (h : heap)
  : Prop :=
  forall out h',
    perturb self net h = (Ok out, h') ->
    (forall q, In q (skipn (length (queries (model h))) (queries (model h'))) ->
               q = false)
    /\ training (model h') = training (model h)
    /\ input h' = input h.

(* ------------------------------------------------------------------ *)
(** ** Tensors built from other tensors, used to state how calls of the
       operator relate *)
(* ------------------------------------------------------------------ *)

(** [torch.nn.functional.pad(x, (p, p, p, p))]: a border of [p] zeros around
    every plane of a rank-4 tensor. *)
Definition zero_pad (x : tensor) (p : nat) : tensor :=
  match shape x with
  | [N; C; H; W] =>
      tab [N; C; (H + 2 * p)%nat; (W + 2 * p)%nat]
        (fun idx =>
           match idx with
           | [n; c; i; j] => padded x p n c i j
           | _ => 0
           end)
  | _ => x
  end.


(** Whether position [i] of an axis of size [sz] lies under one of the
    [osz sz p k s] windows of size [k] placed every [s] positions on the
    axis padded by [p]. *)
Definition covered (sz p k s i : nat) : bool :=
  existsb (fun u => (u * s <=? i + p)%nat && (i + p <? u * s + k)%nat)
    (seq 0 (osz sz p k s)).

(** The [1 x 1] kernels that copy channel [c] to channel [c], and
    [torch.zeros(sh)]. *)
Definition eye_kernel (C : nat) : tensor :=
  tab [C; C; 1%nat; 1%nat]
    (fun idx =>
       match idx with
       | o :: c :: _ => if (o =? c)%nat then 1 else 0
       | _ => 0
       end).

Definition zeros (sh : list nat) : tensor := tab sh (fun _ => 0).

(** The sum over input channels and kernel offsets that makes entry
    [(n, o, u, v)] of a convolution of the input [x], padded by [p], with
    the kernels [w] of size [K] at stride [s]. *)
Definition conv_entry (x w : tensor) (Ci K p s n o u v : nat) : Z :=
  zsum Ci (fun c => zsum K (fun a => zsum K (fun b =>
    padded x p n c (u * s + a) (v * s + b) * tget w [o; c; a; b]))).

(** A [1 x 1 x 4 x 4] input whose last two rows and columns lie under no
    window of size 2 at stride 3, and the same input with those entries
    changed. *)
Definition ex_input_4x4 : tensor :=
  mkT [1; 1; 4; 4]%nat [1; 2; 3; 4; 5; 6; 7; 8; 9; 10; 11; 12; 13; 14; 15; 16].
Definition ex_input_4x4' : tensor :=
  mkT [1; 1; 4; 4]%nat [1; 2; 0; 0; 5; 6; 0; 0; 0; 0; 0; 0; 0; 0; 0; 0].

(** A second input, weight and bias of the shapes of [ex_input],
    [ex_weight] and [ex_bias]. *)
Definition ex_input2 : tensor := mkT [1; 1; 3; 3]%nat [0; 1; 0; -1; 2; -1; 0; 1; 0].
Definition ex_weight2 : tensor := mkT [2; 1; 2; 2]%nat [0; 1; 1; 0; 2; 0; 0; -2].
Definition ex_bias2 : tensor := mkT [2]%nat [-1; 1].

(** Code that only reads its state. *)
Definition reads_only {S A : Type} (m : ST S A) : Prop := forall c, snd (m c) = c.

(** Code of the operator that leaves what was saved for [backward], and the
    flags set by autograd, as they are. *)
Definition keeps_saved {A : Type} (m : M A) : Prop :=
  forall c, saved_tensors (snd (m c)) = saved_tensors c
            /\ needs_input_grad (snd (m c)) = needs_input_grad c.

(* ------------------------------------------------------------------ *)
(** ** [SimpleNet.forward], the caller of the attack *)
(* ------------------------------------------------------------------ *)

Open Scope st_scope.

(** [SimpleNet.forward(self, x)] (lines 215-227).  [net] is the body of the
    network (lines 223-226: [features], [avgpool], [view], [fc]); inside the
    attack the model is in inference mode, where a call of the model is a
    call of that body. *)
Definition SimpleNet_forward (pgd : PGDAttack) (net : network) : ST heap tensor :=
  x <- SimpleNet_forward_attack pgd net ;;
  '(pred, _) <- call_model net (val x) ;;
  ret pred.

Close Scope st_scope.

(** The image as the result of an operation on a tensor that requires
    gradients, and as a tensor without a batch dimension. *)
Definition ex_image_nonleaf : tobj := mkObj ex_image_data NonLeaf None.
Definition ex_heap_nonleaf : heap := mkHeap ex_image_nonleaf ex_model.
Definition ex_image_rank3 : tobj :=
  mkObj (mkT [2; 2; 2]%nat [5; -3; 0; 2; 1; 1; -4; 7]) NoGrad None.
Definition ex_heap_rank3 : heap := mkHeap ex_image_rank3 ex_model.

(** An attack whose budget is negative. *)
Definition ex_attack_neg : PGDAttack := mkPGD ex_loss 3 1 (-2).

(** An attack whose steps cannot use up the budget. *)
Definition ex_attack_wide : PGDAttack := mkPGD ex_loss 3 1 5.

(* ================================================================== *)
(** * Part II: the networks, as maps on shapes *)
(* ================================================================== *)

(** The networks of Part II are stacks of PyTorch layers.  Which shape a
    layer returns for an input shape, and whether it raises instead, does
    not depend on the entries of the input; a module is modelled here by that
    map.  The flag is [training], which [model.train()] and [model.eval()]
    set on a module and all its submodules together.  Shapes are those of
    batched inputs [(N, C, H, W)]; the rules are the ones PyTorch documents
    for each layer. *)
Definition nn_Module : Type := bool -> list nat -> result (list nat).

Open Scope nat_scope.

(** [nn.Conv2d(inp, out, kernel_size, stride, padding, dilation, groups)]:
    the input must have [inp] channels and the padded planes must hold the
    dilated kernel.  [groups] decides which channels are mixed, not the
    shape of the result; [bias] plays no role either. *)
Definition Conv2d (inp out kernel_size stride padding dilation groups : nat)
  : nn_Module :=
  fun _ sh =>
    match sh with
    | [N; C; H; W] =>
        let k := dilation * (kernel_size - 1) + 1 in
        if negb (C =? inp) then Raise RuntimeError
        else if stride =? 0 then Raise RuntimeError
        else if (H + 2 * padding <? k) || (W + 2 * padding <? k)
        then Raise RuntimeError
        else Ok [N; out; (H + 2 * padding - k) / stride + 1;
                 (W + 2 * padding - k) / stride + 1]
    | _ => Raise RuntimeError
    end.

(** [nn.ReLU(inplace=True)] *)
Definition ReLU : nn_Module := fun _ sh => Ok sh.

(** [nn.MaxPool2d(kernel_size, stride, padding)]: the padding is at most
    half the kernel, and there must be room for one window. *)
Definition MaxPool2d (kernel_size stride padding : nat) : nn_Module :=
  fun _ sh =>
    match sh with
    | [N; C; H; W] =>
        if (kernel_size / 2 <? padding) || (stride =? 0) then Raise RuntimeError
        else if (H + 2 * padding <? kernel_size) || (W + 2 * padding <? kernel_size)
        then Raise RuntimeError
        else Ok [N; C; (H + 2 * padding - kernel_size) / stride + 1;
                 (W + 2 * padding - kernel_size) / stride + 1]
    | _ => Raise RuntimeError
    end.

(** [nn.BatchNorm2d(num_features)]: a rank-4 input ([ValueError] otherwise);
    in training mode more than one value per channel ([ValueError]
    otherwise); [num_features] channels. *)
Definition BatchNorm2d (num_features : nat) : nn_Module :=
  fun training sh =>
    match sh with
    | [N; C; H; W] =>
        if training && (N * (H * W) =? 1) then Raise ValueError
        else if negb (C =? num_features) then Raise RuntimeError
        else Ok sh
    | _ => Raise ValueError
    end.

(** [nn.AvgPool2d(kernel_size)]: the stride is the kernel size. *)
Definition AvgPool2d (kernel_size : nat) : nn_Module :=
  fun _ sh =>
    match sh with
    | [N; C; H; W] =>
        if kernel_size =? 0 then Raise RuntimeError
        else if (H <? kernel_size) || (W <? kernel_size) then Raise RuntimeError
        else Ok [N; C; (H - kernel_size) / kernel_size + 1;
                 (W - kernel_size) / kernel_size + 1]
    | _ => Raise RuntimeError
    end.

(** [nn.AdaptiveAvgPool2d((1, 1))] *)
Definition AdaptiveAvgPool2d_1_1 : nn_Module :=
  fun _ sh =>
    match sh with
    | [N; C; H; W] =>
        if (H =? 0) || (W =? 0) then Raise RuntimeError else Ok [N; C; 1; 1]
    | _ => Raise RuntimeError
    end.

(** [nn.Linear(in_features, out_features)] on a matrix of rows. *)
Definition Linear (in_features out_features : nat) : nn_Module :=
  fun _ sh =>
    match sh with
    | [N; F] => if F =? in_features then Ok [N; out_features] else Raise RuntimeError
    | _ => Raise RuntimeError
    end.

(** [nn.Sequential( *layers )] *)
Fixpoint Sequential (layers : list nn_Module) : nn_Module :=
  fun training sh =>
    match layers with
    | [] => Ok sh
    | l :: rest => rbind (l training sh) (Sequential rest training)
    end.

(** [x.view(x.size(0), -1)], by the [view] and [size] of the tensor model. *)
Definition view_flat (sh : list nat) : result (list nat) :=
  (n <- size (mkT sh []) 0 ;;
   t <- view (mkT sh []) [n; (-1)%Z] ;;
   Ok (shape t))%result.

(** [out += identity]: [identity] is broadcast to the shape of [out], which
    an in-place operation cannot change. *)
Definition iadd (out identity : list nat) : result (list nat) :=
  let r := Nat.max (length out) (length identity) in
  match bshape (pad1 r out) (pad1 r identity) with
  | Some sh => if list_eq_dec Nat.eq_dec sh out then Ok out else Raise RuntimeError
  | None => Raise RuntimeError
  end.

Open Scope result_scope.

(** What [conv_op(inp, out, kernel_size=, stride=, padding=)] builds. *)
Definition conv_op_t : Type := nat -> nat -> nat -> nat -> nat -> nn_Module.

(** [conv_op = nn.Conv2d], the default. *)
Definition nn_Conv2d : conv_op_t :=
  fun inp out kernel_size stride padding => Conv2d inp out kernel_size stride padding 1 1.

(* ------------------------------------------------------------------ *)
(** ** [SimpleNet] *)
(* ------------------------------------------------------------------ *)

(** [self.features] of [SimpleNet] (lines 183-210). *)
Definition SimpleNet_features (conv_op : conv_op_t) : nn_Module :=
  Sequential [
    (* conv1 block: 3x conv 3x3 *)
    conv_op 3 64 7 2 3;
    ReLU;
    (* max pooling 1/2 *)
    MaxPool2d 3 2 1;
    (* conv2 block: simple bottleneck *)
    conv_op 64 64 1 1 0;
    ReLU;
    conv_op 64 64 3 1 1;
    ReLU;
    conv_op 64 256 1 1 0;
    ReLU;
    (* max pooling 1/2 *)
    MaxPool2d 3 2 1;
    (* conv3 block: simple bottleneck *)
    conv_op 256 64 1 1 0;
    ReLU;
    conv_op 64 64 3 1 1;
    ReLU;
    conv_op 64 256 1 1 0;
    ReLU;
    (* max pooling 1/2 *)
    MaxPool2d 3 2 1;
    (* conv4 block: conv 3x3 *)
    conv_op 256 512 3 1 1;
    ReLU
  ].

(** Lines 223-227 of [SimpleNet.forward]: the network proper, after the
    adversarial branch. *)
Definition SimpleNet_body (conv_op : conv_op_t) (num_classes : nat) : nn_Module :=
  fun training x =>
    x <- SimpleNet_features conv_op training x ;;
    x <- AdaptiveAvgPool2d_1_1 training x ;;
    x <- view_flat x ;;
    Linear 512 num_classes training x.

(* ------------------------------------------------------------------ *)
(** ** Depthwise convolutions and residual blocks *)
(* ------------------------------------------------------------------ *)

(** [conv_dw(inp, out, kernel_size, stride, padding, dilation)] (lines
    287-294): a depthwise convolution, then a [1 x 1] convolution. *)
Definition conv_dw (inp out kernel_size stride padding dilation : nat) : nn_Module :=
  Sequential [
    Conv2d inp inp kernel_size stride padding dilation inp;
    Conv2d inp out 1 1 0 1 1
  ].

Definition conv3x3 (inp out stride : nat) : nn_Module :=
  conv_dw inp out 3 stride 1 1.

Definition conv1x1 (inp out stride : nat) : nn_Module :=
  conv_dw inp out 1 stride 0 1.

Definition downsample (inp out stride : nat) : nn_Module :=
  Sequential [
    conv1x1 inp out stride;
    BatchNorm2d out
  ].

(** [BasicBlock(inp, out, stride, downsample).forward] (lines 312-334). *)
Definition BasicBlock (inp outp stride : nat) (downsample : option nn_Module)
  : nn_Module :=
  let conv1 := conv3x3 inp outp stride in
  let bn1 := BatchNorm2d outp in
  let relu := ReLU in
  let conv2 := conv3x3 outp outp 1 in
  let bn2 := BatchNorm2d outp in
  fun training x =>
    let identity := x in
    out <- conv1 training x ;;
    out <- bn1 training out ;;
    out <- relu training out ;;
    out <- conv2 training out ;;
    out <- bn2 training out ;;
    identity <- match downsample with
                | Some d => d training x
                | None => Ok identity
                end ;;
    out <- iadd out identity ;;
    relu training out.

(** [Bottleneck(inp, out, stride, downsample).forward] (lines 336-362). *)
Definition Bottleneck (inp outp stride : nat) (downsample : option nn_Module)
  : nn_Module :=
  let conv1 := conv1x1 inp outp 1 in
  let bn1 := BatchNorm2d outp in
  let conv2 := conv3x3 outp outp stride in
  let bn2 := BatchNorm2d outp in
  let conv3 := conv1x1 outp inp 1 in
  let bn3 := BatchNorm2d inp in
  let relu := ReLU in
  fun training x =>
    let identity := x in
    out <- conv1 training x ;;
    out <- bn1 training out ;;
    out <- relu training out ;;
    out <- conv2 training out ;;
    out <- bn2 training out ;;
    out <- relu training out ;;
    out <- conv3 training out ;;
    out <- bn3 training out ;;
    identity <- match downsample with
                | Some d => d training x
                | None => Ok identity
                end ;;
    out <- iadd out identity ;;
    relu training out.

(* ------------------------------------------------------------------ *)
(** ** [LessSimpleNetBN2D_ConvDW] *)
(* ------------------------------------------------------------------ *)

Definition LessSimpleNetBN2D_ConvDW_features : nn_Module :=
  Sequential [
    BatchNorm2d 3;
    (* conv1 block: 3x conv 3x3 *)
    conv_dw 3 64 7 2 3 1;
    BatchNorm2d 64;
    ReLU;
    BasicBlock 64 256 2 (Some (downsample 64 256 2));
    BasicBlock 256 512 1 (Some (downsample 256 512 1));
    (* max pooling 1/2 *)
    MaxPool2d 3 2 1;
    (* conv2 block: simple bottleneck *)
    BatchNorm2d 512;
    Bottleneck 512 128 2 (Some (downsample 512 512 2));
    (* max pooling 1/2 *)
    MaxPool2d 3 2 1;
    (* conv3 block: simple bottleneck *)
    BatchNorm2d 512;
    Bottleneck 512 128 2 (Some (downsample 512 512 2))
  ].

(** [LessSimpleNetBN2D_ConvDW.forward] (lines 396-401); [conv_op] is not
    used by the class. *)
Definition LessSimpleNetBN2D_ConvDW_forward (conv_op : conv_op_t) (num_classes : nat)
  : nn_Module :=
  fun training x =>
    x <- LessSimpleNetBN2D_ConvDW_features training x ;;
    x <- AdaptiveAvgPool2d_1_1 training x ;;
    x <- view_flat x ;;
    Linear 512 num_classes training x.

(* ------------------------------------------------------------------ *)
(** ** [SimpleNetBN2D_ConvDW] *)
(* ------------------------------------------------------------------ *)

(** The [conv_dw] local to [SimpleNetBN2D_ConvDW.__init__] (lines 408-414);
    it differs from the one of the module in its bias only. *)
Definition SimpleNetBN2D_ConvDW_conv_dw (inp out kernel_size stride padding : nat)
  : nn_Module :=
  Sequential [
    Conv2d inp inp kernel_size stride padding 1 inp;
    Conv2d inp out 1 1 0 1 1
  ].

Definition SimpleNetBN2D_ConvDW_features : nn_Module :=
  let conv_dw := SimpleNetBN2D_ConvDW_conv_dw in
  Sequential [
    BatchNorm2d 3;
    (* conv1 block: 3x conv 3x3 *)
    conv_dw 3 64 7 2 3;
    ReLU;
    (* max pooling 1/2 *)
    MaxPool2d 3 2 1;
    (* conv2 block: simple bottleneck *)
    BatchNorm2d 64;
    conv_dw 64 64 1 1 0;
    ReLU;
    conv_dw 64 64 3 1 1;
    ReLU;
    conv_dw 64 256 1 1 0;
    ReLU;
    (* max pooling 1/2 *)
    MaxPool2d 3 2 1;
    (* conv3 block: simple bottleneck *)
    BatchNorm2d 256;
    conv_dw 256 64 1 1 0;
    ReLU;
    conv_dw 64 64 3 1 1;
    ReLU;
    conv_dw 64 256 1 1 0;
    ReLU;
    (* max pooling 1/2 *)
    MaxPool2d 3 2 1;
    (* conv4 block: conv 3x3 *)
    BatchNorm2d 256;
    conv_dw 256 512 3 1 1;
    ReLU;
    BatchNorm2d 512
  ].

Definition SimpleNetBN2D_ConvDW_forward (conv_op : conv_op_t) (num_classes : nat)
  : nn_Module :=
  fun training x =>
    x <- SimpleNetBN2D_ConvDW_features training x ;;
    x <- AdaptiveAvgPool2d_1_1 training x ;;
    x <- view_flat x ;;
    Linear 512 num_classes training x.

(* ------------------------------------------------------------------ *)
(** ** [MobileNet] *)
(* ------------------------------------------------------------------ *)

(** The [conv_dw] and [conv_batch_norm] local to [MobileNet.__init__]
    (lines 559-574). *)
Definition MobileNet_conv_dw (inp out stride : nat) : nn_Module :=
  Sequential [
    Conv2d inp inp 3 stride 1 1 inp;
    BatchNorm2d inp;
    ReLU;
    Conv2d inp out 1 1 0 1 1;
    BatchNorm2d out;
    ReLU
  ].

Definition MobileNet_conv_batch_norm (inp out stride : nat) : nn_Module :=
  Sequential [
    Conv2d inp out 3 stride 1 1 1;
    BatchNorm2d out;
    ReLU
  ].

Definition MobileNet_features : nn_Module :=
  let conv_dw := MobileNet_conv_dw in
  let conv_batch_norm := MobileNet_conv_batch_norm in
  Sequential [
    conv_batch_norm 3 32 2;
    conv_dw 32 64 1;
    conv_dw 64 128 2;
    conv_dw 128 128 1;
    conv_dw 128 256 2;
    conv_dw 256 256 1;
    conv_dw 256 512 2;
    conv_dw 512 512 1;
    conv_dw 512 512 1;
    conv_dw 512 512 1;
    conv_dw 512 512 1;
    conv_dw 512 512 1;
    conv_dw 512 512 2;
    conv_dw 512 512 1;
    AvgPool2d 7
  ].

(** [MobileNet.forward] (lines 594-598).  The class takes [conv_op] and
    [num_classes] and uses neither: the last layer is [nn.Linear(512, 100)]. *)
Definition MobileNet_forward (conv_op : conv_op_t) (num_classes : nat) : nn_Module :=
  fun training x =>
    x <- MobileNet_features training x ;;
    x <- view_flat x ;;
    Linear 512 100 training x.

Close Scope result_scope.

(* ------------------------------------------------------------------ *)
(** ** The constructors of the network classes *)
(* ------------------------------------------------------------------ *)

(** The classes of Part II and their common base class. *)
Inductive pyclass : Type :=
| cls_nn_Module
| cls_SimpleNet
| cls_SimpleNetBN2D
| cls_BasicBlock
| cls_Bottleneck
| cls_LessSimpleNetBN2D_ConvDW
| cls_SimpleNetBN2D_ConvDW
| cls_VGGNet
| cls_MobileNet.

Definition pyclass_eqb (c d : pyclass) : bool :=
  match c, d with
  | cls_nn_Module, cls_nn_Module | cls_SimpleNet, cls_SimpleNet
  | cls_SimpleNetBN2D, cls_SimpleNetBN2D | cls_BasicBlock, cls_BasicBlock
  | cls_Bottleneck, cls_Bottleneck
  | cls_LessSimpleNetBN2D_ConvDW, cls_LessSimpleNetBN2D_ConvDW
  | cls_SimpleNetBN2D_ConvDW, cls_SimpleNetBN2D_ConvDW
  | cls_VGGNet, cls_VGGNet | cls_MobileNet, cls_MobileNet => true
  | _, _ => false
  end.

(** The base classes named in the [class] statements: every class of
    Part II derives from [nn.Module] and from nothing else. *)
Definition bases (c : pyclass) : list pyclass :=
  match c with
  | cls_nn_Module => []
  | _ => [cls_nn_Module]
  end.

(** [issubclass(c, d)]; one level of [bases] reaches every ancestor here. *)
Definition issubclass (c d : pyclass) : bool :=
  pyclass_eqb c d || existsb (pyclass_eqb d) (bases c).

(** What the first line of an [__init__] can raise. *)
Inductive ctor_exn : Type :=
| NameError
| SuperTypeError.

(** [super(name, self).__init__()], for [self] an instance of
    [self_class].  The name is looked up first: [None] stands for a name
    that is bound neither in the module nor among the builtins.  Then
    [self] must be an instance of the class found. *)
Definition super_init (name : option pyclass) (self_class : pyclass)
  : ctor_exn + unit :=
  match name with
  | None => inl NameError
  | Some c => if issubclass self_class c then inr tt else inl SuperTypeError
  end.

(** [cls( *args )] for a class whose [__init__] starts with the [super]
    call [sup] and then builds the module [m]. *)
Definition construct (sup : ctor_exn + unit) (m : nn_Module) : ctor_exn + nn_Module :=
  match sup with
  | inl e => inl e
  | inr _ => inr m
  end.

(** [self.features] of [SimpleNetBN2D] (lines 234-267). *)
Definition SimpleNetBN2D_features (conv_op : conv_op_t) : nn_Module :=
  Sequential [
    (* batch-norm the input, and each pool output *)
    BatchNorm2d 3;
    (* conv1 block: 3x conv 3x3 *)
    conv_op 3 64 7 2 3;
    ReLU;
    (* max pooling 1/2 *)
    MaxPool2d 3 2 1;
    BatchNorm2d 64;
    (* conv2 block: simple bottleneck *)
    conv_op 64 64 1 1 0;
    ReLU;
    conv_op 64 64 3 1 1;
    ReLU;
    conv_op 64 256 1 1 0;
    ReLU;
    (* max pooling 1/2 *)
    MaxPool2d 3 2 1;
    BatchNorm2d 256;
    (* conv3 block: simple bottleneck *)
    conv_op 256 64 1 1 0;
    ReLU;
    conv_op 64 64 3 1 1;
    ReLU;
    conv_op 64 256 1 1 0;
    ReLU;
    (* max pooling 1/2 *)
    MaxPool2d 3 2 1;
    BatchNorm2d 256;
    (* conv4 block: conv 3x3 *)
    conv_op 256 512 3 1 1;
    ReLU;
    BatchNorm2d 512
  ].

(** [self.features] of [VGGNet] (lines 465-540). *)
Definition VGGNet_features (conv_op : conv_op_t) : nn_Module :=
  Sequential [
    BatchNorm2d 3;
    conv_op 3 64 3 1 1; ReLU;
    conv_op 64 64 3 1 1; ReLU;
    (* pool 1 *)
    MaxPool2d 2 2 0;
    BatchNorm2d 64;
    conv_op 64 128 3 1 1; ReLU;
    conv_op 128 128 3 1 1; ReLU;
    (* pool 2 *)
    MaxPool2d 2 2 0;
    BatchNorm2d 128;
    conv_op 128 256 3 1 1; ReLU;
    conv_op 256 256 3 1 1; ReLU;
    conv_op 256 256 3 1 1; ReLU;
    (* pool 3 *)
    MaxPool2d 2 2 0;
    BatchNorm2d 256;
    conv_op 256 512 3 1 1; ReLU;
    conv_op 512 512 3 1 1; ReLU;
    conv_op 512 512 3 1 1; ReLU;
    (* pool 4 *)
    MaxPool2d 2 2 0;
    BatchNorm2d 512;
    conv_op 512 512 3 1 1; ReLU;
    conv_op 512 512 3 1 1; ReLU;
    conv_op 512 512 3 1 1; ReLU;
    (* pool 5 *)
    MaxPool2d 2 2 0;
    BatchNorm2d 512
  ].

(** The head shared by the classes: [avgpool], [view] and [fc]. *)
Definition with_head (features : nn_Module) (num_classes : nat) : nn_Module :=
  fun training x =>
    (x <- features training x ;;
     x <- AdaptiveAvgPool2d_1_1 training x ;;
     x <- view_flat x ;;
     Linear 512 num_classes training x)%result.

(** The constructors, each with the [super] call its [__init__] starts
    with: [SimpleNet] (line 181), [SimpleNetBN2D] (line 232, which names
    [SimpleNet]), [LessSimpleNetBN2D_ConvDW] (line 368),
    [SimpleNetBN2D_ConvDW] (line 406), [VGGNet] (line 464, which names
    [NotSoSimpleNet], a name bound nowhere) and [MobileNet] (line 557). *)
Definition SimpleNet_new (conv_op : conv_op_t) (num_classes : nat) :=
  construct (super_init (Some cls_SimpleNet) cls_SimpleNet)
    (SimpleNet_body conv_op num_classes).

Definition SimpleNetBN2D_new (conv_op : conv_op_t) (num_classes : nat) :=
  construct (super_init (Some cls_SimpleNet) cls_SimpleNetBN2D)
    (with_head (SimpleNetBN2D_features conv_op) num_classes).

Definition LessSimpleNetBN2D_ConvDW_new (conv_op : conv_op_t) (num_classes : nat) :=
  construct (super_init (Some cls_LessSimpleNetBN2D_ConvDW) cls_LessSimpleNetBN2D_ConvDW)
    (LessSimpleNetBN2D_ConvDW_forward conv_op num_classes).

Definition SimpleNetBN2D_ConvDW_new (conv_op : conv_op_t) (num_classes : nat) :=
  construct (super_init (Some cls_SimpleNetBN2D_ConvDW) cls_SimpleNetBN2D_ConvDW)
    (SimpleNetBN2D_ConvDW_forward conv_op num_classes).

Definition VGGNet_new (conv_op : conv_op_t) (num_classes : nat) :=
  construct (super_init None cls_VGGNet)
    (with_head (VGGNet_features conv_op) num_classes).

Definition MobileNet_new (conv_op : conv_op_t) (num_classes : nat) :=
  construct (super_init (Some cls_MobileNet) cls_MobileNet)
    (MobileNet_forward conv_op num_classes).

(** [ceil(h / 2)]: the size left by a window of stride 2 with padding
    [(kernel_size - 1) / 2]. *)
Definition half (h : nat) : nat := (h + 1) / 2.

(** A module whose result in training mode, when there is one, is its
    result in inference mode. *)
Definition mode_mono (m : nn_Module) : Prop :=
  forall sh, is_ok (m true sh) = true -> m true sh = m false sh.

Close Scope nat_scope.

(* ================================================================== *)
(** * Properties of the tensor model *)
(* ================================================================== *)

Section IndexArithmetic.

Lemma offset_lt (sh idx : list nat) :
in_range idx sh -> (offset sh idx < numel sh)%nat.
Proof.
intros H; induction H as [|i d idx sh Hi _ IH]; simpl; [lia|].
nia.
Qed.

Lemma unravel_offset (sh idx : list nat) :
in_range idx sh -> unravel sh (offset sh idx) = idx.
Proof.
intros H; induction H as [|i d idx sh Hi Hr IH]; simpl; [reflexivity|].
pose proof (offset_lt Hr) as Hlt.
assert (Hq : ((i * numel sh + offset sh idx) / numel sh = i)%nat).
{ symmetry. apply Nat.div_unique with (r := offset sh idx); lia. }
assert (Hm : ((i * numel sh + offset sh idx) mod numel sh = offset sh idx)%nat).
{ symmetry. apply Nat.mod_unique with (q := i); lia. }
rewrite Hq, Hm, IH. reflexivity.
Qed.

Lemma offset_unravel (sh : list nat) :
forall k, (k < numel sh)%nat ->
          in_range (unravel sh k) sh /\ offset sh (unravel sh k) = k.
Proof.
induction sh as [|d sh IH]; intros k Hk; simpl in *.
- split; [constructor | lia].
- assert (Hpos : (numel sh <> 0)%nat) by (intros E; rewrite E in Hk; lia).
  assert (Hm : (k mod numel sh < numel sh)%nat) by (apply Nat.mod_upper_bound; exact Hpos).
  destruct (IH _ Hm) as [Hr Ho].
  split.
  + constructor; [|exact Hr].
    apply Nat.Div0.div_lt_upper_bound. lia.
  + rewrite Ho. pose proof (Nat.div_mod_eq k (numel sh)). lia.
Qed.

End IndexArithmetic.

Section Tabulate.

Lemma shape_tab sh f : shape (tab sh f) = sh.
Proof. reflexivity. Qed.

Lemma wf_tab sh f : wf (tab sh f).
Proof. unfold wf, tab; simpl. now rewrite length_map, length_seq. Qed.

Lemma nth_tab sh f k :
(k < numel sh)%nat -> nth k (data (tab sh f)) 0 = f (unravel sh k).
Proof.
intros Hk. unfold tab; simpl.
rewrite nth_indep with (d' := f (unravel sh 0)) by now rewrite length_map, length_seq.
rewrite map_nth with (f := fun k => f (unravel sh k)) (d := O).
now rewrite seq_nth.
Qed.

Lemma tget_tab sh f idx :
in_range idx sh -> tget (tab sh f) idx = f idx.
Proof.
intros H. unfold tget. rewrite shape_tab.
rewrite nth_tab by now apply offset_lt.
now rewrite unravel_offset.
Qed.

(** Two well-formed tensors of one shape with the same entries are equal. *)
Lemma tensor_ext (a b : tensor) :
shape a = shape b -> wf a -> wf b ->
(forall k, (k < numel (shape a))%nat -> nth k (data a) 0 = nth k (data b) 0) ->
a = b.
Proof.
destruct a as [sa da], b as [sb db]; unfold wf; simpl.
intros -> Ha Hb H. f_equal.
apply nth_ext with (d := 0) (d' := 0); [congruence|].
intros n Hn. apply H. lia.
Qed.

End Tabulate.

Section Sums.

Lemma zsum_ext n f g :
(forall i, (i < n)%nat -> f i = g i) -> zsum n f = zsum n g.
Proof.
induction n as [|n IH]; intros H; simpl; [reflexivity|].
rewrite IH by (intros; apply H; lia). rewrite H by lia. reflexivity.
Qed.

Lemma zsum_0 n : zsum n (fun _ => 0) = 0.
Proof. induction n; simpl; lia. Qed.

Lemma zsum_add n f g :
zsum n (fun i => f i + g i) = zsum n f + zsum n g.
Proof. induction n as [|n IH]; simpl; [reflexivity|]. rewrite IH. lia. Qed.

Lemma zsum_sub n f g :
zsum n (fun i => f i - g i) = zsum n f - zsum n g.
Proof. induction n as [|n IH]; simpl; [reflexivity|]. rewrite IH. lia. Qed.

Lemma zsum_mul_l n c f :
zsum n (fun i => c * f i) = c * zsum n f.
Proof. induction n as [|n IH]; simpl; [lia|]. rewrite IH. lia. Qed.

Lemma zsum_mul_r n c f :
zsum n (fun i => f i * c) = zsum n f * c.
Proof. induction n as [|n IH]; simpl; [lia|]. rewrite IH. lia. Qed.

(** Two nested sums can be exchanged. *)
Lemma zsum_swap n m (f : nat -> nat -> Z) :
zsum n (fun i => zsum m (fun j => f i j))
= zsum m (fun j => zsum n (fun i => f i j)).
Proof.
induction n as [|n IH]; simpl.
- now rewrite zsum_0.
- rewrite IH, <- zsum_add. reflexivity.
Qed.

(** A sum with a single non-zero term. *)
Lemma zsum_single n k (f : nat -> Z) :
zsum n (fun i => if (i =? k)%nat then f i else 0)
= if (k <? n)%nat then f k else 0.
Proof.
induction n as [|n IH]; simpl; [reflexivity|].
rewrite IH.
destruct (Nat.eqb_spec n k) as [->|Hne].
- rewrite Nat.ltb_irrefl.
  replace (k <? S k)%nat with true by (symmetry; apply Nat.ltb_lt; lia). lia.
- destruct (Nat.ltb_spec k n), (Nat.ltb_spec k (S n)); lia.
Qed.

End Sums.

Section ViewLemmas.

Lemma known_prod_nonneg dims :
Forall (fun d => 0 <= d) dims -> known_prod dims = zprod dims.
Proof.
induction 1 as [|d dims Hd _ IH]; simpl; [reflexivity|].
destruct (Z.eqb_spec d (-1)); [lia|]. now rewrite IH.
Qed.

Lemma existsb_nonneg dims :
Forall (fun d => 0 <= d) dims -> existsb (fun d => d <? -1) dims = false.
Proof.
induction 1 as [|d dims Hd _ IH]; simpl; [reflexivity|].
rewrite IH. destruct (Z.ltb_spec d (-1)); [lia|reflexivity].
Qed.

Lemma filter_nonneg dims :
Forall (fun d => 0 <= d) dims -> filter (Z.eqb (-1)) dims = [].
Proof.
induction 1 as [|d dims Hd _ IH]; cbn [filter]; [reflexivity|].
destruct (Z.eqb_spec (-1) d); [lia|exact IH].
Qed.

Lemma view_exact t dims :
Forall (fun d => 0 <= d) dims ->
zprod dims = Z.of_nat (numel (shape t)) ->
view t dims = Ok (mkT (map Z.to_nat dims) (data t)).
Proof.
intros Hd Hp. unfold view.
rewrite existsb_nonneg, filter_nonneg, known_prod_nonneg by assumption.
cbn [length]. now rewrite Hp, Z.eqb_refl.
Qed.

Lemma view_infer t pre post :
Forall (fun d => 0 <= d) pre -> Forall (fun d => 0 <= d) post ->
zprod pre * zprod post <> 0 ->
Z.of_nat (numel (shape t)) mod (zprod pre * zprod post) = 0 ->
view t (pre ++ -1 :: post)
= Ok (mkT (map Z.to_nat pre
           ++ Z.to_nat (Z.of_nat (numel (shape t)) / (zprod pre * zprod post))
           :: map Z.to_nat post) (data t)).
Proof.
intros Hpre Hpost Hnz Hmod. unfold view.
assert (Hk : known_prod (pre ++ -1 :: post) = zprod pre * zprod post).
{ clear Hnz Hmod. induction Hpre as [|d pre Hd _ IH]; simpl.
  - rewrite known_prod_nonneg by assumption.
    destruct (zprod post); reflexivity.
  - destruct (Z.eqb_spec d (-1)); [lia|]. rewrite IH. unfold zprod. lia. }
rewrite existsb_app. cbn [existsb].
rewrite !existsb_nonneg by assumption. cbn [orb].
replace (-1 <? -1) with false by reflexivity. cbn [orb].
rewrite filter_app. cbn [filter]. rewrite Z.eqb_refl.
rewrite !filter_nonneg by assumption. cbn [app length].
rewrite Hk.
destruct (Z.eqb_spec (zprod pre * zprod post) 0); [contradiction|].
rewrite Hmod. cbn [negb andb Z.eqb].
f_equal. f_equal. rewrite map_app. cbn [map]. rewrite Z.eqb_refl.
f_equal.
- apply map_ext_in. intros d Hin.
  rewrite Forall_forall in Hpre. specialize (Hpre d Hin).
  destruct (Z.eqb_spec d (-1)); [lia|reflexivity].
- f_equal. apply map_ext_in. intros d Hin.
  rewrite Forall_forall in Hpost. specialize (Hpost d Hin).
  destruct (Z.eqb_spec d (-1)); [lia|reflexivity].
Qed.

End ViewLemmas.

Section Broadcast.

Lemma bix_lt d i : (i < d)%nat -> bix d i = i.
Proof. unfold bix. destruct (Nat.eqb_spec d 1); lia. Qed.

Lemma bdim_refl d : bdim d d = Some d.
Proof. unfold bdim. now rewrite Nat.eqb_refl. Qed.

Lemma bshape_refl sh : bshape sh sh = Some sh.
Proof. induction sh as [|d sh IH]; simpl; [reflexivity|]. now rewrite bdim_refl, IH. Qed.

Lemma pad1_same sh : pad1 (length sh) sh = sh.
Proof. unfold pad1. now rewrite Nat.sub_diag. Qed.

Lemma bidx_in_range sh idx : in_range idx sh -> bidx sh idx = idx.
Proof.
unfold bidx. induction 1 as [|i d idx sh Hi _ IH]; simpl; [reflexivity|].
now rewrite bix_lt, IH.
Qed.

Lemma bget_in_range t idx :
in_range idx (shape t) -> bget t (length (shape t)) idx = tget t idx.
Proof.
intros H. unfold bget, tget. rewrite pad1_same.
now rewrite bidx_in_range.
Qed.

Lemma tzip_same f a b :
shape a = shape b ->
tzip f a b = Ok (tab (shape a) (fun idx => f (bget a (length (shape a)) idx)
                                            (bget b (length (shape a)) idx))).
Proof.
intros E. unfold tzip. rewrite <- E, Nat.max_id, pad1_same, bshape_refl.
reflexivity.
Qed.

Lemma tget_tzip_same f a b r idx :
shape a = shape b -> tzip f a b = Ok r -> in_range idx (shape a) ->
shape r = shape a /\ wf r /\ tget r idx = f (tget a idx) (tget b idx).
Proof.
intros E Hr Hi. rewrite tzip_same in Hr by assumption.
injection Hr as <-. split; [reflexivity|]. split; [apply wf_tab|].
rewrite tget_tab by assumption.
rewrite bget_in_range by assumption.
rewrite E. rewrite bget_in_range by now rewrite <- E. reflexivity.
Qed.

End Broadcast.

Section PatchIndex.

Lemma out_size_nat sz p k s :
(k <= sz + 2 * p)%nat -> (0 < s)%nat ->
out_size (Z.of_nat sz) (Z.of_nat p) (Z.of_nat k) (Z.of_nat s)
= Z.of_nat (osz sz p k s).
Proof.
intros Hk Hs. unfold out_size, osz.
rewrite Nat2Z.inj_add, Nat2Z.inj_div, Nat2Z.inj_sub by lia.
f_equal. f_equal. lia.
Qed.

Lemma osz_pos sz p k s : (0 < osz sz p k s)%nat.
Proof. unfold osz. lia. Qed.

Lemma split2_div d i j : (j < d)%nat -> ((i * d + j) / d = i)%nat.
Proof. intros H. symmetry. apply Nat.div_unique with (r := j); lia. Qed.

Lemma split2_mod d i j : (j < d)%nat -> ((i * d + j) mod d = j)%nat.
Proof. intros H. symmetry. apply Nat.mod_unique with (q := i); lia. Qed.

Lemma split3_hi k c a b :
(a < k)%nat -> (b < k)%nat -> (((c * k + a) * k + b) / (k * k) = c)%nat.
Proof.
intros Ha Hb. symmetry. apply Nat.div_unique with (r := (a * k + b)%nat); nia.
Qed.

Lemma split3_mid k c a b :
(a < k)%nat -> (b < k)%nat -> ((((c * k + a) * k + b) / k) mod k = a)%nat.
Proof. intros Ha Hb. rewrite split2_div by assumption. now apply split2_mod. Qed.

Lemma split3_lo k c a b :
(b < k)%nat -> (((c * k + a) * k + b) mod k = b)%nat.
Proof. intros Hb. now apply split2_mod. Qed.

Lemma split3_lt C k c a b :
(c < C)%nat -> (a < k)%nat -> (b < k)%nat -> ((c * k + a) * k + b < C * k * k)%nat.
Proof. intros. nia. Qed.

Lemma split2_lt n d i j : (i < n)%nat -> (j < d)%nat -> (i * d + j < n * d)%nat.
Proof. intros. nia. Qed.

End PatchIndex.

Section UnfoldLemmas.

Variables (x : tensor) (N C H W K p s : nat).
Hypothesis Hx : shape x = [N; C; H; W].
Hypothesis Hne : (0 < N /\ 0 < C /\ 0 < H /\ 0 < W)%nat.
Hypothesis HK : (0 < K)%nat.
Hypothesis Hs : (0 < s)%nat.
Hypothesis HKH : (K <= H + 2 * p)%nat.
Hypothesis HKW : (K <= W + 2 * p)%nat.

Let ho := osz H p K s.
Let wo := osz W p K s.

Lemma unfold_ok :
unfold x (Z.of_nat K) (Z.of_nat p) (Z.of_nat s)
= Ok (tab [N; (C * K * K)%nat; (ho * wo)%nat]
        (fun idx =>
           match idx with
           | [n; j; l] =>
               padded x p n (j / (K * K))
                 (l / wo * s + (j / K) mod K)
                 (l mod wo * s + j mod K)
           | _ => 0
           end)).
Proof.
unfold unfold. rewrite Hx.
destruct (Z.leb_spec (Z.of_nat K) 0); [lia|].
destruct (Z.ltb_spec (Z.of_nat p) 0); [lia|].
destruct (Z.leb_spec (Z.of_nat s) 0); [lia|].
cbn [orb].
destruct (Nat.eqb_spec (numel [N; C; H; W]) 0) as [E|_].
{ simpl in E. nia. }
rewrite !out_size_nat by assumption.
fold ho wo.
pose proof (osz_pos H p K s). pose proof (osz_pos W p K s).
destruct (Z.ltb_spec (Z.of_nat ho) 1); [unfold ho in *; lia|].
destruct (Z.ltb_spec (Z.of_nat wo) 1); [unfold wo in *; lia|].
cbn [orb]. rewrite !Nat2Z.id. reflexivity.
Qed.

Lemma unfold_entry (t : tensor) n c a b u v :
unfold x (Z.of_nat K) (Z.of_nat p) (Z.of_nat s) = Ok t ->
(n < N)%nat -> (c < C)%nat -> (a < K)%nat -> (b < K)%nat ->
(u < ho)%nat -> (v < wo)%nat ->
tget t [n; ((c * K + a) * K + b)%nat; (u * wo + v)%nat]
= padded x p n c (u * s + a) (v * s + b).
Proof.
rewrite unfold_ok. intros [= <-] Hn Hc Ha Hb Hu Hv.
rewrite tget_tab.
- rewrite split3_hi, split3_mid, split3_lo, split2_div, split2_mod by assumption.
  reflexivity.
- repeat constructor; try assumption.
  + now apply split3_lt.
  + now apply split2_lt.
Qed.

End UnfoldLemmas.

Section ExpandLemmas.

Lemma expand_dim_one n : expand_dim 1 (Z.of_nat n) = Some n.
Proof.
unfold expand_dim.
destruct (Z.eqb_spec (Z.of_nat n) (-1)); [lia|].
destruct (Z.eqb_spec (Z.of_nat n) (Z.of_nat 1)) as [E|E].
- apply Nat2Z.inj in E. now subst.
- cbn [Nat.eqb andb]. destruct (Z.leb_spec 0 (Z.of_nat n)); [|lia].
  now rewrite Nat2Z.id.
Qed.

Lemma expand_dim_keep d : expand_dim d (-1) = Some d.
Proof. reflexivity. Qed.

(** [bias.view(1, -1, 1, 1).expand(N, -1, H_o, W_o)] *)
Lemma expand_bias (bv : tensor) Co N ho wo :
shape bv = [1; Co; 1; 1]%nat ->
exists be,
  expand bv [Z.of_nat N; -1; Z.of_nat ho; Z.of_nat wo] = Ok be
  /\ shape be = [N; Co; ho; wo] /\ wf be
  /\ forall n o u v, (n < N)%nat -> (o < Co)%nat -> (u < ho)%nat -> (v < wo)%nat ->
       tget be [n; o; u; v] = nth o (data bv) 0.
Proof.
intros Hs. unfold expand. rewrite Hs. cbn [expand_shape].
rewrite !expand_dim_one, expand_dim_keep.
eexists; split; [reflexivity|]. split; [reflexivity|]. split; [apply wf_tab|].
intros n o u v Hn Ho Hu Hv.
rewrite tget_tab by (repeat constructor; assumption).
unfold bget, pad1. rewrite Hs. cbn [length Nat.sub repeat app].
unfold bidx. cbn [combine map fst snd]. rewrite (bix_lt Ho).
unfold bix. cbn [Nat.eqb offset numel fold_right]. f_equal. lia.
Qed.

End ExpandLemmas.

Lemma forward_checks_spec (x w : tensor) (stride padding : pyval) (c : Ctx)
      (N Ci H W Co Cw K1 K2 : nat) :
  shape x = [N; Ci; H; W] -> shape w = [Co; Cw; K1; K2] ->
  match forward_checks x w stride padding c with
  | (Ok (k, n, h, wd, s, p), c') =>
      K1 = K2 /\ Ci = Cw /\ stride = PyInt s /\ 0 < s /\ padding = PyInt p /\ 0 <= p
      /\ Z.of_nat K1 <= Z.of_nat H + 2 * p /\ Z.of_nat K1 <= Z.of_nat W + 2 * p
      /\ k = Z.of_nat K1 /\ n = Z.of_nat N /\ h = Z.of_nat H /\ wd = Z.of_nat W
      /\ c' = mkCtx (needs_input_grad c) (Some (Z.of_nat N)) (Some stride) (Some padding)
                    (Some (Z.of_nat H)) (Some (Z.of_nat W)) (saved_tensors c)
  | (Raise e, c') =>
      e = AssertionError /\ saved_tensors c' = saved_tensors c
      /\ needs_input_grad c' = needs_input_grad c
  end.
Proof.
  intros Hx Hw.
  unfold forward_checks, bind, lift, size. rewrite Hx, Hw. cbn [nth_error].
  unfold assert_ at 1.
  destruct (Z.eqb_spec (Z.of_nat K1) (Z.of_nat K2)) as [E1|E1]; [|cbn; auto].
  cbn [ret raise]. unfold assert_ at 1.
  destruct (Z.eqb_spec (Z.of_nat Ci) (Z.of_nat Cw)) as [E2|E2]; [|cbn; auto].
  cbn [ret raise].
  destruct stride as [s| |]; cbn [assert_int raise]; auto.
  destruct (Z.gtb_spec s 0) as [E3|E3]; cbn [ret raise]; auto.
  destruct padding as [p| |]; cbn [assert_int raise]; auto.
  destruct (Z.geb_spec p 0) as [E4|E4]; cbn [ret raise]; auto.
  cbn [set_batch_size set_stride set_padding set_input_height set_input_width
       needs_input_grad ctx_batch_size ctx_stride ctx_padding ctx_input_height
       ctx_input_width saved_tensors].
  unfold assert_ at 1.
  destruct (Z.leb_spec (Z.of_nat K1) (Z.of_nat H + 2 * p)) as [E5|E5]; cbn [ret raise]; auto.
  unfold assert_ at 1.
  destruct (Z.leb_spec (Z.of_nat K1) (Z.of_nat W + 2 * p)) as [E6|E6]; cbn [ret raise]; auto.
  repeat split; try lia; auto.
Qed.

Section ForwardLemmas.

Variables (x w : tensor) (N Ci H W Co K p s : nat).
Hypothesis Hx : shape x = [N; Ci; H; W].
Hypothesis Hw : shape w = [Co; Ci; K; K].
Hypothesis Hne : (0 < N /\ 0 < Ci /\ 0 < H /\ 0 < W)%nat.
Hypothesis HCo : (0 < Co)%nat.
Hypothesis HK : (0 < K)%nat.
Hypothesis Hs : (0 < s)%nat.
Hypothesis HKH : (K <= H + 2 * p)%nat.
Hypothesis HKW : (K <= W + 2 * p)%nat.

Let ho := osz H p K s.
Let wo := osz W p K s.
Let stride := PyInt (Z.of_nat s).
Let padding := PyInt (Z.of_nat p).


Lemma forward_checks_ok c :
forward_checks x w stride padding c
= (Ok (Z.of_nat K, Z.of_nat N, Z.of_nat H, Z.of_nat W, Z.of_nat s, Z.of_nat p),
   ctx_with c N H W stride padding (saved_tensors c)).
Proof.
unfold forward_checks, bind, lift, size. rewrite Hx, Hw. cbn [nth_error].
rewrite !Z.eqb_refl. cbn [assert_ ret].
unfold stride, padding. cbn [assert_int].
destruct (Z.gtb_spec (Z.of_nat s) 0); [|lia].
destruct (Z.geb_spec (Z.of_nat p) 0); [|lia].
cbn [ret set_batch_size set_stride set_padding set_input_height set_input_width
     needs_input_grad ctx_batch_size ctx_stride ctx_padding ctx_input_height
     ctx_input_width saved_tensors].
destruct (Z.leb_spec (Z.of_nat K) (Z.of_nat H + 2 * Z.of_nat p)); [|lia].
destruct (Z.leb_spec (Z.of_nat K) (Z.of_nat W + 2 * Z.of_nat p)); [|lia].
reflexivity.
Qed.

Lemma H_o_nat sz :
(K <= sz + 2 * p)%nat ->
1 + (Z.of_nat sz + 2 * Z.of_nat p - Z.of_nat K) / Z.of_nat s
= Z.of_nat (osz sz p K s).
Proof.
intros Hk. rewrite <- out_size_nat by assumption. unfold out_size. lia.
Qed.

Lemma view_weight_flat :
view w [Z.of_nat Co; Z.of_nat Ci * Z.of_nat K * Z.of_nat K]
= Ok (mkT [Co; (Ci * K * K)%nat] (data w)).
Proof.
rewrite view_exact.
- cbn [map]. rewrite <- !Nat2Z.inj_mul, !Nat2Z.id. reflexivity.
- repeat constructor; lia.
- rewrite Hw. unfold zprod. cbn [fold_right numel]. lia.
Qed.

Lemma weight_flat_entry o c a b :
(o < Co)%nat -> (c < Ci)%nat -> (a < K)%nat -> (b < K)%nat ->
tget (mkT [Co; (Ci * K * K)%nat] (data w)) [o; ((c * K + a) * K + b)%nat]
= tget w [o; c; a; b].
Proof.
intros. unfold tget. rewrite Hw. cbn [shape data offset numel fold_right].
f_equal. lia.
Qed.

Lemma einsum_forward (windows : tensor) :
shape windows = [N; (Ci * K * K)%nat; (ho * wo)%nat] ->
exists prod,
  einsum_ncw_oc_now windows (mkT [Co; (Ci * K * K)%nat] (data w)) = Ok prod
  /\ shape prod = [N; Co; (ho * wo)%nat] /\ wf prod
  /\ forall n o l, (n < N)%nat -> (o < Co)%nat -> (l < ho * wo)%nat ->
       tget prod [n; o; l]
       = zsum (Ci * K * K)
           (fun j => tget windows [n; j; l]
                     * tget (mkT [Co; (Ci * K * K)%nat] (data w)) [o; j]).
Proof.
intros Hsh. unfold einsum_ncw_oc_now. rewrite Hsh. cbn [shape].
rewrite bdim_refl. cbn [lift_dim rbind].
eexists; split; [reflexivity|]. split; [reflexivity|]. split; [apply wf_tab|].
intros n o l Hn Ho Hl.
rewrite tget_tab by (repeat constructor; assumption).
apply zsum_ext. intros j Hj. now rewrite (bix_lt Hj).
Qed.

Lemma view_output (prod : tensor) :
shape prod = [N; Co; (ho * wo)%nat] ->
view prod [-1; Z.of_nat Co; Z.of_nat ho; Z.of_nat wo]
= Ok (mkT [N; Co; ho; wo] (data prod)).
Proof.
intros Hsh.
pose proof (osz_pos H p K s). pose proof (osz_pos W p K s).
assert (Hnum : Z.of_nat (numel (shape prod))
               = Z.of_nat N * (Z.of_nat Co * (Z.of_nat ho * (Z.of_nat wo * 1)))).
{ rewrite Hsh. cbn [numel fold_right]. lia. }
pose proof (@view_infer prod [] [Z.of_nat Co; Z.of_nat ho; Z.of_nat wo]) as Hv.
cbn [app] in Hv. rewrite Hv; clear Hv.
- unfold zprod. cbn [fold_right map app]. rewrite Hnum.
  rewrite Z.mul_1_l, Z.div_mul by (unfold ho, wo; nia).
  now rewrite !Nat2Z.id.
- constructor.
- repeat constructor; lia.
- unfold zprod. cbn [fold_right]. unfold ho, wo. nia.
- unfold zprod. cbn [fold_right]. rewrite Hnum, Z.mul_1_l. apply Z.mod_mul.
  unfold ho, wo. nia.
Qed.

Lemma view_bias (b : tensor) :
shape b = [Co] -> view b [1; -1; 1; 1] = Ok (mkT [1; Co; 1; 1]%nat (data b)).
Proof.
intros Hb.
pose proof (@view_infer b [1] [1; 1]) as Hv.
cbn [app] in Hv. rewrite Hv; clear Hv.
- unfold zprod. cbn [fold_right map app]. rewrite Hb. cbn [numel fold_right].
  change (1 * 1 * (1 * (1 * 1))) with 1. rewrite Z.div_1_r, Nat2Z.id, Nat.mul_1_r.
  reflexivity.
- repeat constructor; lia.
- repeat constructor; lia.
- discriminate.
- apply Z.mod_1_r.
Qed.

Lemma forward_ok (b : tensor) (c : Ctx) :
shape b = [Co] ->
exists windows out,
  unfold x (Z.of_nat K) (Z.of_nat p) (Z.of_nat s) = Ok windows
  /\ forward x w (Some b) stride padding c
     = (Ok out, ctx_with c N H W stride padding (Some (windows, w, Some b)))
  /\ shape out = [N; Co; ho; wo] /\ wf out
  /\ forall n o u v, (n < N)%nat -> (o < Co)%nat -> (u < ho)%nat -> (v < wo)%nat ->
       tget out [n; o; u; v]
       = zsum (Ci * K * K)
           (fun j => tget windows [n; j; (u * wo + v)%nat]
                     * tget (mkT [Co; (Ci * K * K)%nat] (data w)) [o; j])
         + tget b [o].
Proof.
intros Hb.
pose proof (@unfold_ok x N Ci H W K p s Hx Hne HK Hs HKH HKW) as Hu. fold ho wo in Hu.
set (windows := tab _ _) in Hu.
destruct (@einsum_forward windows eq_refl) as (prod & Hein & Hps & _ & Hpe).
destruct (@expand_bias (mkT [1; Co; 1; 1]%nat (data b)) Co N ho wo eq_refl)
  as (be & Hexp & Hbs & _ & Hbe).
assert (Hadd : exists out, tadd (mkT [N; Co; ho; wo] (data prod)) be = Ok out).
{ unfold tadd. rewrite tzip_same by (cbn [shape]; congruence). eauto. }
destruct Hadd as (out & Hadd).
exists windows, out. split; [exact Hu|].
assert (Hfwd : forward x w (Some b) stride padding c
               = (Ok out, ctx_with c N H W stride padding (Some (windows, w, Some b)))).
{ unfold forward. unfold bind at 1. rewrite forward_checks_ok.
  unfold forward_compute, bind, lift, size_2. rewrite Hw. cbn [firstn].
  rewrite Hu, view_weight_flat, Hein.
  rewrite !H_o_nat by assumption. fold ho wo.
  rewrite (view_output prod Hps). cbn [deref]. rewrite (view_bias b Hb), Hexp, Hadd.
  reflexivity. }
split; [exact Hfwd|].
unfold tadd in Hadd.
assert (Hse : shape (mkT [N; Co; ho; wo] (data prod)) = shape be) by (cbn [shape]; congruence).
split; [|split].
- destruct (@tget_tzip_same Z.add _ _ out [0;0;0;0]%nat Hse Hadd) as (E & _).
  + pose proof (osz_pos H p K s). pose proof (osz_pos W p K s).
    cbn [shape]. repeat constructor; try lia; unfold ho, wo; lia.
  + exact E.
- rewrite tzip_same in Hadd by exact Hse. injection Hadd as <-. apply wf_tab.
- intros n o u v Hn Ho Hu' Hv.
  assert (Hr : in_range [n; o; u; v] (shape (mkT [N; Co; ho; wo] (data prod))))
    by (cbn [shape]; repeat constructor; assumption).
  destruct (tget_tzip_same Z.add _ _ Hse Hadd Hr) as (_ & _ & E).
  rewrite E, (Hbe n o u v Hn Ho Hu' Hv). cbn [data].
  f_equal.
  + rewrite <- (Hpe n o (u * wo + v)%nat Hn Ho) by now apply split2_lt.
    unfold tget. rewrite Hps. cbn [shape data offset numel fold_right].
    f_equal. lia.
  + unfold tget. rewrite Hb. cbn [offset numel fold_right]. f_equal. lia.
Qed.

(** A call that satisfies every precondition but passes [bias=None] gets
  as far as [bias.view(1,-1,1,1)] and raises there. *)
Lemma forward_without_bias (c : Ctx) :
forward x w None stride padding c
= (Raise AttributeError, ctx_with c N H W stride padding (saved_tensors c)).
Proof.
pose proof (@unfold_ok x N Ci H W K p s Hx Hne HK Hs HKH HKW) as Hu.
fold ho wo in Hu. set (windows := tab _ _) in Hu.
destruct (@einsum_forward windows eq_refl) as (prod & Hein & Hps & _).
unfold forward. unfold bind at 1. rewrite forward_checks_ok.
unfold forward_compute, bind, lift, size_2. rewrite Hw. cbn [firstn].
rewrite Hu, view_weight_flat, Hein.
rewrite !H_o_nat by assumption. fold ho wo.
rewrite (view_output prod Hps). reflexivity.
Qed.

End ForwardLemmas.

Section BackwardLemmas.

Variables (w g : tensor) (N Ci H W Co K p s : nat).
Hypothesis Hw : shape w = [Co; Ci; K; K].
Hypothesis Hne : (0 < N /\ 0 < Ci /\ 0 < H /\ 0 < W)%nat.
Hypothesis HCo : (0 < Co)%nat.
Hypothesis HK : (0 < K)%nat.
Hypothesis Hs : (0 < s)%nat.
Hypothesis HKH : (K <= H + 2 * p)%nat.
Hypothesis HKW : (K <= W + 2 * p)%nat.

Let ho := osz H p K s.
Let wo := osz W p K s.

Hypothesis Hg : shape g = [N; Co; ho; wo].

Lemma ho_pos : (0 < ho)%nat.
Proof. apply osz_pos. Qed.

Lemma wo_pos : (0 < wo)%nat.
Proof. apply osz_pos. Qed.

Lemma einsum_grad_windows :
exists g6,
  einsum_nouv_oiab_niabuv g w = Ok g6
  /\ shape g6 = [N; Ci; K; K; ho; wo]
  /\ forall n c a b u v,
       (n < N)%nat -> (c < Ci)%nat -> (a < K)%nat -> (b < K)%nat ->
       (u < ho)%nat -> (v < wo)%nat ->
       tget g6 [n; c; a; b; u; v]
       = zsum Co (fun o => tget g [n; o; u; v] * tget w [o; c; a; b]).
Proof.
unfold einsum_nouv_oiab_niabuv. rewrite Hg, Hw, bdim_refl. cbn [lift_dim rbind].
eexists; split; [reflexivity|]. split; [reflexivity|].
intros n c a b u v Hn Hc Ha Hb Hu Hv.
rewrite tget_tab by (repeat constructor; assumption).
apply zsum_ext. intros o Ho. now rewrite (bix_lt Ho).
Qed.

Lemma view_grad_windows (g6 : tensor) :
shape g6 = [N; Ci; K; K; ho; wo] ->
view g6 [Z.of_nat N; Z.of_nat Ci * Z.of_nat K * Z.of_nat K; -1]
= Ok (mkT [N; (Ci * K * K)%nat; (ho * wo)%nat] (data g6)).
Proof.
intros Hsh. pose proof ho_pos. pose proof wo_pos.
assert (Hnum : Z.of_nat (numel (shape g6))
               = Z.of_nat (ho * wo) * (Z.of_nat N * (Z.of_nat Ci * Z.of_nat K * Z.of_nat K * 1) * 1)).
{ rewrite Hsh. cbn [numel fold_right]. lia. }
pose proof (@view_infer g6 [Z.of_nat N; Z.of_nat Ci * Z.of_nat K * Z.of_nat K] []) as Hv.
cbn [app] in Hv. rewrite Hv; clear Hv.
- unfold zprod. cbn [fold_right map app]. rewrite Hnum.
  rewrite Z.div_mul by nia.
  rewrite <- !Nat2Z.inj_mul, !Nat2Z.id. reflexivity.
- repeat constructor; lia.
- constructor.
- unfold zprod. cbn [fold_right]. nia.
- unfold zprod. cbn [fold_right]. rewrite Hnum. apply Z.mod_mul. nia.
Qed.

Lemma grad_windows_entry (g6 : tensor) n c a b u v :
shape g6 = [N; Ci; K; K; ho; wo] ->
tget (mkT [N; (Ci * K * K)%nat; (ho * wo)%nat] (data g6))
  [n; ((c * K + a) * K + b)%nat; (u * wo + v)%nat]
= tget g6 [n; c; a; b; u; v].
Proof.
intros Hsh. unfold tget. rewrite Hsh. cbn [shape data offset numel fold_right].
f_equal. lia.
Qed.

Lemma fold_ok (q : tensor) :
shape q = [N; (Ci * K * K)%nat; (ho * wo)%nat] ->
fold q (Z.of_nat H, Z.of_nat W) (Z.of_nat K) (Z.of_nat p) (Z.of_nat s)
= Ok (tab [N; Ci; H; W]
        (fun idx =>
           match idx with
           | [n; c; h; w] =>
               zsum K (fun a => zsum K (fun b =>
               zsum ho (fun u => zsum wo (fun v =>
                 if ((u * s + a =? h + p) && (v * s + b =? w + p))%nat
                 then tget q [n; ((c * K + a) * K + b)%nat; (u * wo + v)%nat]
                 else 0))))
           | _ => 0
           end)).
Proof.
intros Hq. pose proof ho_pos. pose proof wo_pos.
unfold fold. rewrite Hq.
destruct (Z.leb_spec (Z.of_nat K) 0); [lia|].
destruct (Z.ltb_spec (Z.of_nat p) 0); [lia|].
destruct (Z.leb_spec (Z.of_nat s) 0); [lia|].
destruct (Z.leb_spec (Z.of_nat H) 0); [lia|].
destruct (Z.leb_spec (Z.of_nat W) 0); [lia|].
cbn [orb].
destruct (Nat.eqb_spec (numel [N; (Ci * K * K)%nat; (ho * wo)%nat]) 0) as [E|_].
{ cbn [numel fold_right] in E. nia. }
rewrite !out_size_nat by assumption. fold ho wo.
destruct (Z.ltb_spec (Z.of_nat ho) 1); [lia|].
destruct (Z.ltb_spec (Z.of_nat wo) 1); [lia|].
cbn [orb]. rewrite !Nat2Z.id.
replace (Ci * K * K)%nat with (Ci * (K * K))%nat by lia.
rewrite Nat.Div0.mod_mul, Nat.div_mul by nia.
rewrite !Nat.eqb_refl. cbn [negb orb].
reflexivity.
Qed.

Lemma view_windows4 (windows : tensor) :
shape windows = [N; (Ci * K * K)%nat; (ho * wo)%nat] ->
view windows [Z.of_nat N; -1; Z.of_nat ho; Z.of_nat wo]
= Ok (mkT [N; (Ci * K * K)%nat; ho; wo] (data windows)).
Proof.
intros Hsh. pose proof ho_pos. pose proof wo_pos.
assert (Hnum : Z.of_nat (numel (shape windows))
               = Z.of_nat (Ci * K * K) * (Z.of_nat N * 1 * (Z.of_nat ho * (Z.of_nat wo * 1)))).
{ rewrite Hsh. cbn [numel fold_right]. lia. }
pose proof (@view_infer windows [Z.of_nat N] [Z.of_nat ho; Z.of_nat wo]) as Hv.
cbn [app] in Hv. rewrite Hv; clear Hv.
- unfold zprod. cbn [fold_right map app]. rewrite Hnum.
  rewrite Z.div_mul by nia. rewrite !Nat2Z.id. reflexivity.
- repeat constructor; lia.
- repeat constructor; lia.
- unfold zprod. cbn [fold_right]. nia.
- unfold zprod. cbn [fold_right]. rewrite Hnum. apply Z.mod_mul. nia.
Qed.

Lemma windows4_entry (windows : tensor) n j u v :
tget (mkT [N; (Ci * K * K)%nat; ho; wo] (data windows)) [n; j; u; v]
= tget (mkT [N; (Ci * K * K)%nat; (ho * wo)%nat] (data windows))
    [n; j; (u * wo + v)%nat].
Proof.
unfold tget. cbn [shape data offset numel fold_right]. f_equal. lia.
Qed.

Lemma einsum_grad_weight (w4 : tensor) :
shape w4 = [N; (Ci * K * K)%nat; ho; wo] ->
exists g2,
  einsum_nouv_ncuv_oc g w4 = Ok g2
  /\ shape g2 = [Co; (Ci * K * K)%nat] /\ wf g2
  /\ forall o j, (o < Co)%nat -> (j < Ci * K * K)%nat ->
       tget g2 [o; j]
       = zsum N (fun n => zsum ho (fun u => zsum wo (fun v =>
           tget g [n; o; u; v] * tget w4 [n; j; u; v]))).
Proof.
intros Hsh. unfold einsum_nouv_ncuv_oc. rewrite Hg, Hsh, !bdim_refl.
cbn [lift_dim rbind].
eexists; split; [reflexivity|]. split; [reflexivity|]. split; [apply wf_tab|].
intros o j Ho Hj.
rewrite tget_tab by (repeat constructor; assumption).
apply zsum_ext. intros n Hn. apply zsum_ext. intros u Hu.
apply zsum_ext. intros v Hv.
now rewrite (bix_lt Hn), (bix_lt Hu), (bix_lt Hv).
Qed.

Lemma view_grad_weight (g2 : tensor) :
shape g2 = [Co; (Ci * K * K)%nat] ->
view g2 [Z.of_nat Co; Z.of_nat Ci; Z.of_nat K; Z.of_nat K]
= Ok (mkT [Co; Ci; K; K] (data g2)).
Proof.
intros Hsh. rewrite view_exact.
- cbn [map]. rewrite !Nat2Z.id. reflexivity.
- repeat constructor; lia.
- rewrite Hsh. unfold zprod. cbn [fold_right numel]. lia.
Qed.

Lemma grad_weight_entry (g2 : tensor) o c a b :
shape g2 = [Co; (Ci * K * K)%nat] ->
tget (mkT [Co; Ci; K; K] (data g2)) [o; c; a; b]
= tget g2 [o; ((c * K + a) * K + b)%nat].
Proof.
intros Hsh. unfold tget. rewrite Hsh. cbn [shape data offset numel fold_right].
f_equal. lia.
Qed.

Lemma sum_023_ok :
sum_023 g
= Ok (tab [Co]
        (fun idx =>
           match idx with
           | [o] => zsum N (fun n => zsum ho (fun u => zsum wo (fun v =>
                      tget g [n; o; u; v])))
           | _ => 0
           end)).
Proof. unfold sum_023. now rewrite Hg. Qed.

Lemma backward_ok (windows : tensor) (bias : option tensor) (c : Ctx) :
shape windows = [N; (Ci * K * K)%nat; (ho * wo)%nat] ->
let c' := ctx_with c N H W (PyInt (Z.of_nat s)) (PyInt (Z.of_nat p))
            (Some (windows, w, bias)) in
exists gi gw gb,
  backward g c'
  = (Ok (if fst (fst (needs_input_grad c)) then Some gi else None,
         if snd (fst (needs_input_grad c)) then Some gw else None,
         match bias with
         | Some _ => if snd (needs_input_grad c) then Some gb else None
         | None => None
         end), c')
  /\ (shape gi = [N; Ci; H; W] /\ wf gi)
  /\ (shape gw = [Co; Ci; K; K] /\ wf gw)
  /\ (shape gb = [Co] /\ wf gb)
  /\ (forall n c h wd, (n < N)%nat -> (c < Ci)%nat -> (h < H)%nat -> (wd < W)%nat ->
        tget gi [n; c; h; wd]
        = zsum K (fun a => zsum K (fun b =>
          zsum ho (fun u => zsum wo (fun v =>
            if ((u * s + a =? h + p) && (v * s + b =? wd + p))%nat
            then zsum Co (fun o => tget g [n; o; u; v] * tget w [o; c; a; b])
            else 0)))))
  /\ (forall o c a b, (o < Co)%nat -> (c < Ci)%nat -> (a < K)%nat -> (b < K)%nat ->
        tget gw [o; c; a; b]
        = zsum N (fun n => zsum ho (fun u => zsum wo (fun v =>
            tget g [n; o; u; v]
            * tget windows [n; ((c * K + a) * K + b)%nat; (u * wo + v)%nat]))))
  /\ (forall o, (o < Co)%nat ->
        tget gb [o]
        = zsum N (fun n => zsum ho (fun u => zsum wo (fun v =>
            tget g [n; o; u; v])))).
Proof.
intros Hwin c'.
destruct einsum_grad_windows as (g6 & Hein & Hs6 & He6).
pose proof (view_grad_windows g6 Hs6) as Hvq.
set (q := mkT [N; (Ci * K * K)%nat; (ho * wo)%nat] (data g6)) in *.
pose proof (@fold_ok q eq_refl) as Hfold.
set (gi := tab [N; Ci; H; W] _) in Hfold.
pose proof (view_windows4 windows Hwin) as Hv4.
set (w4 := mkT [N; (Ci * K * K)%nat; ho; wo] (data windows)) in *.
destruct (@einsum_grad_weight w4 eq_refl) as (g2 & Hein2 & Hs2 & Hwf2 & He2).
pose proof (view_grad_weight g2 Hs2) as Hvw.
set (gw := mkT [Co; Ci; K; K] (data g2)) in *.
pose proof sum_023_ok as Hsum.
set (gb := tab [Co] _) in Hsum.
exists gi, gw, gb.
split; [|split; [|split; [|split; [|split; [|split]]]]].
- subst c'.
  unfold backward, bind, get_saved, get_attr, get_needs, lift, size, size_tail3.
  unfold ctx_with.
  cbn [ctx_with saved_tensors ctx_stride ctx_padding ctx_batch_size
       ctx_input_height ctx_input_width needs_input_grad].
  rewrite Hw, Hg. cbn [nth_error tl].
  destruct (needs_input_grad c) as [[ni nw] nb]. cbn [fst snd].
  destruct ni.
  + rewrite Hein. rewrite Hvq. cbn [as_int]. rewrite Hfold. cbn [ret].
    destruct nw.
    * rewrite Hv4, Hein2, Hvw. cbn [ret].
      destruct bias as [b|]; [destruct nb|]; cbn [ret]; try rewrite Hsum; reflexivity.
    * cbn [ret].
      destruct bias as [b|]; [destruct nb|]; cbn [ret]; try rewrite Hsum; reflexivity.
  + cbn [ret]. destruct nw.
    * rewrite Hv4, Hein2, Hvw. cbn [ret].
      destruct bias as [b|]; [destruct nb|]; cbn [ret]; try rewrite Hsum; reflexivity.
    * cbn [ret].
      destruct bias as [b|]; [destruct nb|]; cbn [ret]; try rewrite Hsum; reflexivity.
- split; [reflexivity | apply wf_tab].
- split; [reflexivity|]. unfold wf in *. unfold gw. cbn [shape data].
  rewrite Hwf2, Hs2. cbn [numel fold_right]. lia.
- split; [reflexivity | apply wf_tab].
- intros n c0 h wd Hn Hc Hh Hwd. unfold gi.
  rewrite tget_tab by (repeat constructor; assumption).
  apply zsum_ext; intros a Ha. apply zsum_ext; intros b Hb.
  apply zsum_ext; intros u Hu. apply zsum_ext; intros v Hv.
  destruct ((u * s + a =? h + p)%nat && (v * s + b =? wd + p)%nat); [|reflexivity].
  unfold q. rewrite (grad_windows_entry g6 n c0 a b u v Hs6).
  now apply He6.
- intros o c0 a b Ho Hc Ha Hb. unfold gw.
  rewrite (grad_weight_entry g2 o c0 a b Hs2).
  rewrite He2 by (try assumption; now apply split3_lt).
  apply zsum_ext; intros n Hn. apply zsum_ext; intros u Hu.
  apply zsum_ext; intros v Hv.
  unfold w4. rewrite windows4_entry.
  f_equal. unfold tget. rewrite Hwin. reflexivity.
- intros o Ho. unfold gb.
  now rewrite tget_tab by (repeat constructor; assumption).
Qed.

End BackwardLemmas.

Ltac break_match_hyp H :=
  match type of H with
  | context [match ?e with _ => _ end] =>
      lazymatch e with
      | context [match _ with _ => _ end] => fail
      | _ => destruct e eqn:?
      end
  end.

Lemma backward_bias_absent (g windows weight : tensor) (c c' : Ctx) gi gw gb :
  saved_tensors c = Some (windows, weight, None) ->
  backward g c = (Ok (gi, gw, gb), c') -> gb = None.
Proof.
  intros Hs Hb. unfold backward, bind, get_saved, get_attr, get_needs, lift, ret in Hb.
  rewrite Hs in Hb.
  repeat (break_match_hyp Hb; try discriminate).
  all: injection Hb as _ _ <- _; reflexivity.
Qed.

Section SumExchange.

Lemma zsum_app a b f :
zsum (a + b) f = zsum a f + zsum b (fun j => f (a + j)%nat).
Proof.
induction b as [|b IH]; simpl.
- rewrite Nat.add_0_r. lia.
- rewrite Nat.add_succ_r. simpl. rewrite IH. lia.
Qed.

Lemma zsum_flatten n m f :
zsum (n * m) f = zsum n (fun i => zsum m (fun j => f (i * m + j)%nat)).
Proof.
induction n as [|n IH]; [reflexivity|].
rewrite Nat.mul_succ_l, zsum_app, IH. reflexivity.
Qed.

Lemma zsum_flatten3 C k f :
zsum (C * k * k) f
= zsum C (fun c => zsum k (fun a => zsum k (fun b =>
    f ((c * k + a) * k + b)%nat))).
Proof.
rewrite zsum_flatten, zsum_flatten. reflexivity.
Qed.

Lemma zsum_swap2 n a b (f : nat -> nat -> nat -> Z) :
zsum n (fun i => zsum a (fun j => zsum b (fun k => f i j k)))
= zsum a (fun j => zsum b (fun k => zsum n (fun i => f i j k))).
Proof.
rewrite zsum_swap. apply zsum_ext; intros j _. apply zsum_swap.
Qed.

Lemma zsum_swap3 n a b c (f : nat -> nat -> nat -> nat -> Z) :
zsum n (fun i => zsum a (fun j => zsum b (fun k => zsum c (fun l => f i j k l))))
= zsum a (fun j => zsum b (fun k => zsum c (fun l => zsum n (fun i => f i j k l)))).
Proof.
rewrite zsum_swap. apply zsum_ext; intros j _. apply zsum_swap2.
Qed.

Lemma zsum_swap4 n a b c d (f : nat -> nat -> nat -> nat -> nat -> Z) :
zsum n (fun i => zsum a (fun j => zsum b (fun k => zsum c (fun l =>
  zsum d (fun m => f i j k l m)))))
= zsum a (fun j => zsum b (fun k => zsum c (fun l => zsum d (fun m =>
    zsum n (fun i => f i j k l m))))).
Proof.
rewrite zsum_swap. apply zsum_ext; intros j _. apply zsum_swap3.
Qed.

Lemma zsum_swap5 n a b c d e (f : nat -> nat -> nat -> nat -> nat -> nat -> Z) :
zsum n (fun i => zsum a (fun j => zsum b (fun k => zsum c (fun l =>
  zsum d (fun m => zsum e (fun o => f i j k l m o))))))
= zsum a (fun j => zsum b (fun k => zsum c (fun l => zsum d (fun m =>
    zsum e (fun o => zsum n (fun i => f i j k l m o)))))).
Proof.
rewrite zsum_swap. apply zsum_ext; intros j _. apply zsum_swap4.
Qed.

Lemma zsum_swap6 n a b c d e g
  (f : nat -> nat -> nat -> nat -> nat -> nat -> nat -> Z) :
zsum n (fun i => zsum a (fun j => zsum b (fun k => zsum c (fun l =>
  zsum d (fun m => zsum e (fun o => zsum g (fun q => f i j k l m o q)))))))
= zsum a (fun j => zsum b (fun k => zsum c (fun l => zsum d (fun m =>
    zsum e (fun o => zsum g (fun q => zsum n (fun i => f i j k l m o q))))))).
Proof.
rewrite zsum_swap. apply zsum_ext; intros j _. apply zsum_swap5.
Qed.

(** One axis of the padded plane: the positions [h] with [h + p = i]. *)
Lemma zsum_shift_single H p i f :
zsum H (fun h => if (i =? h + p)%nat then f h else 0)
= if ((p <=? i) && (i <? H + p))%nat then f (i - p)%nat else 0.
Proof.
destruct (Nat.leb_spec p i) as [Hle|Hlt]; cbn [andb].
- rewrite (@zsum_ext H _ (fun h => if (h =? i - p)%nat then f h else 0)).
  + rewrite zsum_single.
    destruct (Nat.ltb_spec (i - p) H), (Nat.ltb_spec i (H + p)); try lia; reflexivity.
  + intros h _.
    destruct (Nat.eqb_spec i (h + p)), (Nat.eqb_spec h (i - p)); try lia; reflexivity.
- rewrite (@zsum_ext H _ (fun _ => 0)); [apply zsum_0|].
  intros h _. destruct (Nat.eqb_spec i (h + p)); [lia|reflexivity].
Qed.

Lemma zsum_shift_plane H W p i j (f : nat -> nat -> Z) :
zsum H (fun h => zsum W (fun w =>
  if ((i =? h + p) && (j =? w + p))%nat then f h w else 0))
= if ((p <=? i) && (i <? H + p) && (p <=? j) && (j <? W + p))%nat
  then f (i - p)%nat (j - p)%nat else 0.
Proof.
rewrite (@zsum_ext H _
           (fun h => if (i =? h + p)%nat
                     then (if ((p <=? j) && (j <? W + p))%nat
                           then f h (j - p)%nat else 0)
                     else 0)).
- rewrite zsum_shift_single.
  destruct ((p <=? i)%nat && (i <? H + p)%nat); cbn [andb]; [|reflexivity].
  destruct (p <=? j)%nat; reflexivity.
- intros h _. destruct (i =? h + p)%nat; cbn [andb].
  + apply zsum_shift_single.
  + apply zsum_0.
Qed.

End SumExchange.

Section Adjoints.

Variables (N Ci H W Co K ho wo p s : nat).

(** Extraction and accumulation of patches are adjoint on every plane: a
  plane [D] paired with the accumulated patches [Q] is the extracted
  patches of [D] paired with [Q]. *)
Lemma plane_adjoint (Q : nat -> nat -> nat -> nat -> Z) (D : nat -> nat -> Z) :
zsum H (fun h => zsum W (fun w =>
  zsum K (fun a => zsum K (fun b => zsum ho (fun u => zsum wo (fun v =>
    if ((u * s + a =? h + p) && (v * s + b =? w + p))%nat
    then Q a b u v else 0))))
  * D h w))
= zsum K (fun a => zsum K (fun b => zsum ho (fun u => zsum wo (fun v =>
    Q a b u v
    * (if ((p <=? u * s + a) && (u * s + a <? H + p)
           && (p <=? v * s + b) && (v * s + b <? W + p))%nat
       then D (u * s + a - p)%nat (v * s + b - p)%nat else 0))))).
Proof.
transitivity
  (zsum H (fun h => zsum W (fun w =>
     zsum K (fun a => zsum K (fun b => zsum ho (fun u => zsum wo (fun v =>
       if ((u * s + a =? h + p) && (v * s + b =? w + p))%nat
       then Q a b u v * D h w else 0))))))).
{ apply zsum_ext; intros h _. apply zsum_ext; intros w _.
  rewrite <- zsum_mul_r. apply zsum_ext; intros a _.
  rewrite <- zsum_mul_r. apply zsum_ext; intros b _.
  rewrite <- zsum_mul_r. apply zsum_ext; intros u _.
  rewrite <- zsum_mul_r. apply zsum_ext; intros v _.
  destruct ((u * s + a =? h + p)%nat && (v * s + b =? w + p)%nat); ring. }
rewrite zsum_swap5, zsum_swap5.
apply zsum_ext; intros a _. apply zsum_ext; intros b _.
apply zsum_ext; intros u _. apply zsum_ext; intros v _.
rewrite <- zsum_shift_plane.
rewrite <- zsum_mul_l. apply zsum_ext; intros h _.
rewrite <- zsum_mul_l. apply zsum_ext; intros w _.
destruct ((u * s + a =? h + p)%nat && (v * s + b =? w + p)%nat); ring.
Qed.

(** The contraction over output channels moved from one side of the
  pairing to the other. *)
Lemma contraction_adjoint
  (G : nat -> nat -> nat -> Z) (P : nat -> nat -> nat -> nat -> nat -> Z)
  (Wt : nat -> nat -> nat -> nat -> Z) :
zsum Co (fun o => zsum ho (fun u => zsum wo (fun v =>
  G o u v
  * zsum Ci (fun c => zsum K (fun a => zsum K (fun b =>
      P c a b u v * Wt o c a b))))))
= zsum Ci (fun c => zsum K (fun a => zsum K (fun b =>
    zsum ho (fun u => zsum wo (fun v =>
      zsum Co (fun o => G o u v * Wt o c a b) * P c a b u v))))).
Proof.
transitivity
  (zsum Co (fun o => zsum ho (fun u => zsum wo (fun v =>
     zsum Ci (fun c => zsum K (fun a => zsum K (fun b =>
       G o u v * Wt o c a b * P c a b u v))))))).
{ apply zsum_ext; intros o _. apply zsum_ext; intros u _.
  apply zsum_ext; intros v _.
  rewrite <- zsum_mul_l. apply zsum_ext; intros c _.
  rewrite <- zsum_mul_l. apply zsum_ext; intros a _.
  rewrite <- zsum_mul_l. apply zsum_ext; intros b _. ring. }
rewrite zsum_swap5.
rewrite zsum_swap4, zsum_swap4.
apply zsum_ext; intros c _. apply zsum_ext; intros a _.
apply zsum_ext; intros b _. apply zsum_ext; intros u _.
apply zsum_ext; intros v _.
now rewrite zsum_mul_r.
Qed.

(** The pairing of an upstream gradient [G] with the change of the output
  under a change [D] of the input is the pairing of [D] with the
  accumulated patch gradients. *)
Lemma conv_input_adjoint
  (G : nat -> nat -> nat -> nat -> Z) (Wt : nat -> nat -> nat -> nat -> Z)
  (D : nat -> nat -> nat -> nat -> Z) :
zsum N (fun n => zsum Co (fun o => zsum ho (fun u => zsum wo (fun v =>
  G n o u v
  * zsum Ci (fun c => zsum K (fun a => zsum K (fun b =>
      (if ((p <=? u * s + a) && (u * s + a <? H + p)
           && (p <=? v * s + b) && (v * s + b <? W + p))%nat
       then D n c (u * s + a - p)%nat (v * s + b - p)%nat else 0)
      * Wt o c a b)))))))
= zsum N (fun n => zsum Ci (fun c => zsum H (fun h => zsum W (fun w =>
    zsum K (fun a => zsum K (fun b => zsum ho (fun u => zsum wo (fun v =>
      if ((u * s + a =? h + p) && (v * s + b =? w + p))%nat
      then zsum Co (fun o => G n o u v * Wt o c a b) else 0))))
    * D n c h w)))).
Proof.
apply zsum_ext; intros n _.
rewrite (contraction_adjoint (G n)
           (fun c a b u v =>
              if ((p <=? u * s + a) && (u * s + a <? H + p)
                  && (p <=? v * s + b) && (v * s + b <? W + p))%nat
              then D n c (u * s + a - p)%nat (v * s + b - p)%nat else 0) Wt).
apply zsum_ext; intros c _.
now rewrite (plane_adjoint
               (fun a b u v => zsum Co (fun o => G n o u v * Wt o c a b))
               (D n c)).
Qed.

(** The same for a change [D] of the weight, the patches [P] being fixed. *)
Lemma conv_weight_adjoint
  (G : nat -> nat -> nat -> nat -> Z)
  (P : nat -> nat -> nat -> nat -> nat -> nat -> Z)
  (D : nat -> nat -> nat -> nat -> Z) :
zsum N (fun n => zsum Co (fun o => zsum ho (fun u => zsum wo (fun v =>
  G n o u v
  * zsum Ci (fun c => zsum K (fun a => zsum K (fun b =>
      P n c a b u v * D o c a b)))))))
= zsum Co (fun o => zsum Ci (fun c => zsum K (fun a => zsum K (fun b =>
    zsum N (fun n => zsum ho (fun u => zsum wo (fun v =>
      G n o u v * P n c a b u v)))
    * D o c a b)))).
Proof.
transitivity
  (zsum N (fun n => zsum Co (fun o => zsum ho (fun u => zsum wo (fun v =>
     zsum Ci (fun c => zsum K (fun a => zsum K (fun b =>
       G n o u v * P n c a b u v * D o c a b)))))))).
{ apply zsum_ext; intros n _. apply zsum_ext; intros o _.
  apply zsum_ext; intros u _. apply zsum_ext; intros v _.
  rewrite <- zsum_mul_l. apply zsum_ext; intros c _.
  rewrite <- zsum_mul_l. apply zsum_ext; intros a _.
  rewrite <- zsum_mul_l. apply zsum_ext; intros b _. ring. }
rewrite zsum_swap6.
apply zsum_ext; intros o _.
rewrite zsum_swap5, zsum_swap5.
apply zsum_ext; intros c _. apply zsum_ext; intros a _.
apply zsum_ext; intros b _.
rewrite <- zsum_mul_r. apply zsum_ext; intros n _.
rewrite <- zsum_mul_r. apply zsum_ext; intros u _.
rewrite <- zsum_mul_r. reflexivity.
Qed.

(** The same for a change [D] of the bias. *)
Lemma conv_bias_adjoint (G : nat -> nat -> nat -> nat -> Z) (D : nat -> Z) :
zsum N (fun n => zsum Co (fun o => zsum ho (fun u => zsum wo (fun v =>
  G n o u v * D o))))
= zsum Co (fun o =>
    zsum N (fun n => zsum ho (fun u => zsum wo (fun v => G n o u v)))
    * D o).
Proof.
rewrite zsum_swap. apply zsum_ext; intros o _.
rewrite <- zsum_mul_r. apply zsum_ext; intros n _.
rewrite <- zsum_mul_r. apply zsum_ext; intros u _.
rewrite <- zsum_mul_r. reflexivity.
Qed.

End Adjoints.

Section GradientCheck.

Variables (g : tensor) (N Ci H W Co K p s : nat).
Hypothesis Hne : (0 < N /\ 0 < Ci /\ 0 < H /\ 0 < W)%nat.
Hypothesis HCo : (0 < Co)%nat.
Hypothesis HK : (0 < K)%nat.
Hypothesis Hs : (0 < s)%nat.
Hypothesis HKH : (K <= H + 2 * p)%nat.
Hypothesis HKW : (K <= W + 2 * p)%nat.

Let ho := osz H p K s.
Let wo := osz W p K s.
Let stride := PyInt (Z.of_nat s).
Let padding := PyInt (Z.of_nat p).

(** The output of a valid call as a convolution of the padded input. *)
Lemma forward_conv (x w b out : tensor) (c c' : Ctx) :
shape x = [N; Ci; H; W] -> shape w = [Co; Ci; K; K] -> shape b = [Co] ->
forward x w (Some b) stride padding c = (Ok out, c') ->
forall n o u v, (n < N)%nat -> (o < Co)%nat -> (u < ho)%nat -> (v < wo)%nat ->
  tget out [n; o; u; v]
  = zsum Ci (fun c => zsum K (fun a => zsum K (fun b =>
      padded x p n c (u * s + a) (v * s + b) * tget w [o; c; a; b])))
    + tget b [o].
Proof.
intros Hx Hw Hb Hf n o u v Hn Ho Hu Hv.
destruct (@forward_ok x w N Ci H W Co K p s Hx Hw Hne HCo HK Hs HKH HKW b c Hb)
  as (windows & out0 & Hun & Hf0 & _ & _ & He).
fold stride padding in Hf0. rewrite Hf in Hf0. injection Hf0 as -> _.
rewrite (He n o u v Hn Ho Hu Hv). f_equal.
rewrite zsum_flatten3.
apply zsum_ext; intros c0 Hc. apply zsum_ext; intros a Ha.
apply zsum_ext; intros b0 Hb0.
rewrite (@unfold_entry x N Ci H W K p s Hx Hne HK Hs HKH HKW windows n c0 a b0 u v Hun)
  by assumption.
now rewrite (@weight_flat_entry w N Ci H W Co K p s Hw Hne HCo HK Hs HKH HKW o c0 a b0 Ho Hc Ha Hb0).
Qed.

Hypothesis Hg : shape g = [N; Co; ho; wo].

Lemma padded_sub (x x' : tensor) n c i j :
shape x = [N; Ci; H; W] -> shape x' = [N; Ci; H; W] ->
padded x' p n c i j - padded x p n c i j
= if ((p <=? i) && (i <? H + p) && (p <=? j) && (j <? W + p))%nat
  then tget x' [n; c; (i - p)%nat; (j - p)%nat]
       - tget x [n; c; (i - p)%nat; (j - p)%nat]
  else 0.
Proof.
intros Hx Hx'. unfold padded. rewrite Hx, Hx'.
destruct ((p <=? i)%nat && (i <? H + p)%nat && (p <=? j)%nat && (j <? W + p)%nat);
  reflexivity.
Qed.

(** The pairing of [g] with a tensor of the shape of the output. *)
Lemma tdot_output (out : tensor) :
tdot g out
= zsum N (fun n => zsum Co (fun o => zsum ho (fun u => zsum wo (fun v =>
    tget g [n; o; u; v] * tget out [n; o; u; v])))).
Proof. unfold tdot. rewrite Hg. reflexivity. Qed.

Lemma tdot_output_sub (out out' : tensor) :
tdot g out' - tdot g out
= zsum N (fun n => zsum Co (fun o => zsum ho (fun u => zsum wo (fun v =>
    tget g [n; o; u; v] * (tget out' [n; o; u; v] - tget out [n; o; u; v]))))).
Proof.
rewrite !tdot_output.
rewrite <- zsum_sub. apply zsum_ext; intros n _.
rewrite <- zsum_sub. apply zsum_ext; intros o _.
rewrite <- zsum_sub. apply zsum_ext; intros u _.
rewrite <- zsum_sub. apply zsum_ext; intros v _. ring.
Qed.

Lemma grad_input_check (x x' w b out out' gi : tensor) (c1 c1' c2 c2' : Ctx) :
shape x = [N; Ci; H; W] -> shape x' = [N; Ci; H; W] ->
shape w = [Co; Ci; K; K] -> shape b = [Co] ->
forward x w (Some b) stride padding c1 = (Ok out, c1') ->
forward x' w (Some b) stride padding c2 = (Ok out', c2') ->
(forall n c h wd, (n < N)%nat -> (c < Ci)%nat -> (h < H)%nat -> (wd < W)%nat ->
   tget gi [n; c; h; wd]
   = zsum K (fun a => zsum K (fun b =>
     zsum ho (fun u => zsum wo (fun v =>
       if ((u * s + a =? h + p) && (v * s + b =? wd + p))%nat
       then zsum Co (fun o => tget g [n; o; u; v] * tget w [o; c; a; b])
       else 0))))) ->
tdot g out' - tdot g out
= sum_over [N; Ci; H; W] (fun idx => tget gi idx * (tget x' idx - tget x idx)).
Proof.
intros Hx Hx' Hw Hb Hf Hf' Hgi.
rewrite tdot_output_sub. cbn [sum_over].
rewrite <- (@zsum_ext N _ _ (fun n Hn => @zsum_ext Ci _ _ (fun c Hc =>
             @zsum_ext H _ _ (fun h Hh => @zsum_ext W _ _ (fun wd Hwd =>
               f_equal (fun z => z * (tget x' [n; c; h; wd] - tget x [n; c; h; wd]))
                       (eq_sym (Hgi n c h wd Hn Hc Hh Hwd))))))).
rewrite <- (conv_input_adjoint N Ci H W Co K ho wo p s
              (fun n o u v => tget g [n; o; u; v])
              (fun o c a b => tget w [o; c; a; b])
              (fun n c h wd => tget x' [n; c; h; wd] - tget x [n; c; h; wd])).
apply zsum_ext; intros n Hn. apply zsum_ext; intros o Ho.
apply zsum_ext; intros u Hu. apply zsum_ext; intros v Hv.
f_equal.
rewrite (forward_conv x w b c1 Hx Hw Hb Hf Hn Ho Hu Hv).
rewrite (forward_conv x' w b c2 Hx' Hw Hb Hf' Hn Ho Hu Hv).
match goal with |- ?A + ?t - (?B + ?t) = _ => transitivity (A - B); [ring|] end.
rewrite <- zsum_sub. apply zsum_ext; intros c _.
rewrite <- zsum_sub. apply zsum_ext; intros a _.
rewrite <- zsum_sub. apply zsum_ext; intros b0 _.
rewrite <- (padded_sub x x' n c (u * s + a) (v * s + b0) Hx Hx'). ring.
Qed.

Lemma grad_weight_check (x w w' b out out' gw : tensor) (c1 c1' c2 c2' : Ctx) :
shape x = [N; Ci; H; W] ->
shape w = [Co; Ci; K; K] -> shape w' = [Co; Ci; K; K] -> shape b = [Co] ->
forward x w (Some b) stride padding c1 = (Ok out, c1') ->
forward x w' (Some b) stride padding c2 = (Ok out', c2') ->
(forall o c a b, (o < Co)%nat -> (c < Ci)%nat -> (a < K)%nat -> (b < K)%nat ->
   tget gw [o; c; a; b]
   = zsum N (fun n => zsum ho (fun u => zsum wo (fun v =>
       tget g [n; o; u; v] * padded x p n c (u * s + a) (v * s + b))))) ->
tdot g out' - tdot g out
= sum_over [Co; Ci; K; K] (fun idx => tget gw idx * (tget w' idx - tget w idx)).
Proof.
intros Hx Hw Hw' Hb Hf Hf' Hgw.
rewrite tdot_output_sub. cbn [sum_over].
rewrite <- (@zsum_ext Co _ _ (fun o Ho => @zsum_ext Ci _ _ (fun c Hc =>
             @zsum_ext K _ _ (fun a Ha => @zsum_ext K _ _ (fun b0 Hb0 =>
               f_equal (fun z => z * (tget w' [o; c; a; b0] - tget w [o; c; a; b0]))
                       (eq_sym (Hgw o c a b0 Ho Hc Ha Hb0))))))).
rewrite <- (conv_weight_adjoint N Ci Co K ho wo
              (fun n o u v => tget g [n; o; u; v])
              (fun n c a b u v => padded x p n c (u * s + a) (v * s + b))
              (fun o c a b => tget w' [o; c; a; b] - tget w [o; c; a; b])).
apply zsum_ext; intros n Hn. apply zsum_ext; intros o Ho.
apply zsum_ext; intros u Hu. apply zsum_ext; intros v Hv.
f_equal.
rewrite (forward_conv x w b c1 Hx Hw Hb Hf Hn Ho Hu Hv).
rewrite (forward_conv x w' b c2 Hx Hw' Hb Hf' Hn Ho Hu Hv).
match goal with |- ?A + ?t - (?B + ?t) = _ => transitivity (A - B); [ring|] end.
rewrite <- zsum_sub. apply zsum_ext; intros c _.
rewrite <- zsum_sub. apply zsum_ext; intros a _.
rewrite <- zsum_sub. apply zsum_ext; intros b0 _. ring.
Qed.

Lemma grad_bias_check (x w b b' out out' gb : tensor) (c1 c1' c2 c2' : Ctx) :
shape x = [N; Ci; H; W] -> shape w = [Co; Ci; K; K] ->
shape b = [Co] -> shape b' = [Co] ->
forward x w (Some b) stride padding c1 = (Ok out, c1') ->
forward x w (Some b') stride padding c2 = (Ok out', c2') ->
(forall o, (o < Co)%nat ->
   tget gb [o]
   = zsum N (fun n => zsum ho (fun u => zsum wo (fun v => tget g [n; o; u; v])))) ->
tdot g out' - tdot g out
= sum_over [Co] (fun idx => tget gb idx * (tget b' idx - tget b idx)).
Proof.
intros Hx Hw Hb Hb' Hf Hf' Hgb.
rewrite tdot_output_sub. cbn [sum_over].
rewrite <- (@zsum_ext Co _ _ (fun o Ho =>
               f_equal (fun z => z * (tget b' [o] - tget b [o]))
                       (eq_sym (Hgb o Ho)))).
rewrite <- (conv_bias_adjoint N Co ho wo
              (fun n o u v => tget g [n; o; u; v])
              (fun o => tget b' [o] - tget b [o])).
apply zsum_ext; intros n Hn. apply zsum_ext; intros o Ho.
apply zsum_ext; intros u Hu. apply zsum_ext; intros v Hv.
f_equal.
rewrite (forward_conv x w b c1 Hx Hw Hb Hf Hn Ho Hu Hv).
rewrite (forward_conv x w b' c2 Hx Hw Hb' Hf' Hn Ho Hu Hv).
ring.
Qed.

End GradientCheck.

Section BackwardTheorem.

Variables (x w b g : tensor) (N Ci H W Co K p s : nat) (c : Ctx).
Hypothesis Hx : shape x = [N; Ci; H; W].
Hypothesis Hw : shape w = [Co; Ci; K; K].
Hypothesis Hb : shape b = [Co].
Hypothesis Hne : (0 < N /\ 0 < Ci /\ 0 < H /\ 0 < W)%nat.
Hypothesis HCo : (0 < Co)%nat.
Hypothesis HK : (0 < K)%nat.
Hypothesis Hs : (0 < s)%nat.
Hypothesis HKH : (K <= H + 2 * p)%nat.
Hypothesis HKW : (K <= W + 2 * p)%nat.
Hypothesis Hg : shape g = [N; Co; osz H p K s; osz W p K s].

Let ho := osz H p K s.
Let wo := osz W p K s.
Let stride := PyInt (Z.of_nat s).
Let padding := PyInt (Z.of_nat p).

(** [forward] followed by [backward] on a valid call. *)
Lemma forward_backward_ok :
exists out c' gi gw gb,
  forward x w (Some b) stride padding c = (Ok out, c')
  /\ backward g c'
     = (Ok (if fst (fst (needs_input_grad c)) then Some gi else None,
            if snd (fst (needs_input_grad c)) then Some gw else None,
            if snd (needs_input_grad c) then Some gb else None), c')
  /\ (shape gi = [N; Ci; H; W] /\ wf gi)
  /\ (shape gw = [Co; Ci; K; K] /\ wf gw)
  /\ (shape gb = [Co] /\ wf gb)
  /\ (forall n ci h wd,
        (n < N)%nat -> (ci < Ci)%nat -> (h < H)%nat -> (wd < W)%nat ->
        tget gi [n; ci; h; wd]
        = zsum K (fun a => zsum K (fun b =>
          zsum ho (fun u => zsum wo (fun v =>
            if ((u * s + a =? h + p) && (v * s + b =? wd + p))%nat
            then zsum Co (fun o => tget g [n; o; u; v] * tget w [o; ci; a; b])
            else 0)))))
  /\ (forall o ci a b,
        (o < Co)%nat -> (ci < Ci)%nat -> (a < K)%nat -> (b < K)%nat ->
        tget gw [o; ci; a; b]
        = zsum N (fun n => zsum ho (fun u => zsum wo (fun v =>
            tget g [n; o; u; v] * padded x p n ci (u * s + a) (v * s + b)))))
  /\ (forall o, (o < Co)%nat ->
        tget gb [o]
        = zsum N (fun n => zsum ho (fun u => zsum wo (fun v =>
            tget g [n; o; u; v])))).
Proof.
destruct (@forward_ok x w N Ci H W Co K p s Hx Hw Hne HCo HK Hs HKH HKW b c Hb)
  as (windows & out & Hun & Hf & _).
assert (Hwin : shape windows = [N; (Ci * K * K)%nat; (ho * wo)%nat]).
{ rewrite (@unfold_ok x N Ci H W K p s Hx Hne HK Hs HKH HKW) in Hun.
  injection Hun as <-. reflexivity. }
destruct (@backward_ok w g N Ci H W Co K p s Hw Hne HCo HK Hs HKH HKW Hg
            windows (Some b) c Hwin)
  as (gi & gw & gb & Hbk & Hsi & Hsw & Hsb & Hei & Hew & Heb).
exists out, (ctx_with c N H W stride padding (Some (windows, w, Some b))), gi, gw, gb.
split; [exact Hf|]. split; [exact Hbk|].
split; [exact Hsi|]. split; [exact Hsw|]. split; [exact Hsb|].
split; [exact Hei|]. split; [|exact Heb].
intros o ci a b0 Ho Hc Ha Hb0.
rewrite (Hew o ci a b0 Ho Hc Ha Hb0).
apply zsum_ext; intros n Hn. apply zsum_ext; intros u Hu.
apply zsum_ext; intros v Hv. f_equal.
exact (@unfold_entry x N Ci H W K p s Hx Hne HK Hs HKH HKW windows n ci a b0 u v
         Hun Hn Hc Ha Hb0 Hu Hv).
Qed.

End BackwardTheorem.

(* ================================================================== *)
(** * The convolution operator: main results *)
(* ================================================================== *)

(** C2.  For a non-empty input [(N, Ci, H, W)], a non-empty weight
    [(Co, Ci, K, K)], a bias [(Co)], an integer stride [s > 0] and an integer
    padding [p >= 0] with [K <= H + 2p] and [K <= W + 2p], [forward] returns
    a tensor of shape [(N, Co, (H+2p-K)/s + 1, (W+2p-K)/s + 1)] with
    [output[n,o,(u,v)] = sum_j patch[n,j,(u,v)] * weight_flat[o,j] + bias[o]],
    where [patch] is the tensor saved for [backward], whose row [(c,a,b)] and
    column [(u,v)], both counted in row-major order, hold the padded input
    at [(n, c, u*s + a, v*s + b)], and [weight_flat] is the weight viewed as
    [(Co, Ci*K*K)], whose column [(c,a,b)] holds [weight[o,c,a,b]]. *)
Theorem forward_shape_and_entries
    (x w b : tensor) (N Ci H W Co K p s : nat) (c : Ctx) :
  shape x = [N; Ci; H; W] -> shape w = [Co; Ci; K; K] -> shape b = [Co] ->
  (0 < N /\ 0 < Ci /\ 0 < H /\ 0 < W)%nat -> (0 < Co)%nat -> (0 < K)%nat ->
  (0 < s)%nat -> (K <= H + 2 * p)%nat -> (K <= W + 2 * p)%nat ->
  let Ho := ((H + 2 * p - K) / s + 1)%nat in
  let Wo := ((W + 2 * p - K) / s + 1)%nat in
  exists out patch weight_flat c',
    forward x w (Some b) (PyInt (Z.of_nat s)) (PyInt (Z.of_nat p)) c = (Ok out, c')
    /\ saved_tensors c' = Some (patch, w, Some b)
    /\ view w [Z.of_nat Co; Z.of_nat Ci * Z.of_nat K * Z.of_nat K] = Ok weight_flat
    /\ shape out = [N; Co; Ho; Wo] /\ wf out
    /\ shape patch = [N; (Ci * K * K)%nat; (Ho * Wo)%nat]
    /\ shape weight_flat = [Co; (Ci * K * K)%nat]
    /\ (forall n ci a b u v,
          (n < N)%nat -> (ci < Ci)%nat -> (a < K)%nat -> (b < K)%nat ->
          (u < Ho)%nat -> (v < Wo)%nat ->
          tget patch [n; ((ci * K + a) * K + b)%nat; (u * Wo + v)%nat]
          = padded x p n ci (u * s + a) (v * s + b))
    /\ (forall o ci a b,
          (o < Co)%nat -> (ci < Ci)%nat -> (a < K)%nat -> (b < K)%nat ->
          tget weight_flat [o; ((ci * K + a) * K + b)%nat] = tget w [o; ci; a; b])
    /\ (forall n o u v,
          (n < N)%nat -> (o < Co)%nat -> (u < Ho)%nat -> (v < Wo)%nat ->
          tget out [n; o; u; v]
          = zsum (Ci * K * K)
              (fun j => tget patch [n; j; (u * Wo + v)%nat] * tget weight_flat [o; j])
            + tget b [o]).
Proof.
  intros Hx Hw Hb Hne HCo HK Hs HKH HKW Ho Wo.
  destruct (@forward_ok x w N Ci H W Co K p s Hx Hw Hne HCo HK Hs HKH HKW b c Hb)
    as (windows & out & Hun & Hf & Hso & Hwo & He).
  exists out, windows, (mkT [Co; (Ci * K * K)%nat] (data w)),
    (ctx_with c N H W (PyInt (Z.of_nat s)) (PyInt (Z.of_nat p)) (Some (windows, w, Some b))).
  split; [exact Hf|]. split; [reflexivity|].
  split; [exact (@view_weight_flat w N Ci H W Co K p s Hw Hne HCo HK Hs HKH HKW)|].
  split; [exact Hso|]. split; [exact Hwo|].
  split.
  { rewrite (@unfold_ok x N Ci H W K p s Hx Hne HK Hs HKH HKW) in Hun.
    injection Hun as <-. reflexivity. }
  split; [reflexivity|].
  split.
  { intros n ci a b0 u v Hn Hc Ha Hb0 Hu Hv.
    exact (@unfold_entry x N Ci H W K p s Hx Hne HK Hs HKH HKW windows n ci a b0 u v
             Hun Hn Hc Ha Hb0 Hu Hv). }
  split.
  { intros o ci a b0 Ho' Hc Ha Hb0.
    exact (@weight_flat_entry w N Ci H W Co K p s Hw Hne HCo HK Hs HKH HKW o ci a b0
             Ho' Hc Ha Hb0). }
  exact He.
Qed.

(** C1.  After a valid call of [forward], [backward] returns the gradients
    of the forward computation.
    - [grad_input[n,c,h,w]] is the sum, over the window positions [(u,v)] and
      kernel offsets [(a,b)] that lie on [(h,w)], of the contraction of
      [grad_output] with the weight over the output channels (the patch
      gradients scatter-added into the input shape);
      [grad_weight[o,c,a,b]] is the contraction of [grad_output] with the
      saved patches over the batch and the output positions;
      [grad_bias[o]] is the sum of [grad_output] over the batch and both
      spatial axes.  Each is returned only when it is asked for.
    - They are the true gradients: for the scalar [L = <grad_output, forward
      (input, weight, bias)>], changing the input (the weight, the bias) to
      any other tensor of the same shape changes [L] by exactly the pairing
      of [grad_input] ([grad_weight], [grad_bias]) with the change.
    - For input [(2,3,8,8)], weight [(4,3,3,3)], bias [(4)], stride 1,
      padding 1 and [grad_output] all ones, every entry of [grad_bias] is
      128. *)
Theorem backward_true_gradients :
  (forall (x w b g : tensor) (N Ci H W Co K p s : nat) (c : Ctx),
      shape x = [N; Ci; H; W] -> shape w = [Co; Ci; K; K] -> shape b = [Co] ->
      (0 < N /\ 0 < Ci /\ 0 < H /\ 0 < W)%nat -> (0 < Co)%nat -> (0 < K)%nat ->
      (0 < s)%nat -> (K <= H + 2 * p)%nat -> (K <= W + 2 * p)%nat ->
      let Ho := osz H p K s in
      let Wo := osz W p K s in
      let stride := PyInt (Z.of_nat s) in
      let padding := PyInt (Z.of_nat p) in
      shape g = [N; Co; Ho; Wo] ->
      exists out c' gi gw gb,
        forward x w (Some b) stride padding c = (Ok out, c')
        /\ backward g c'
           = (Ok (if fst (fst (needs_input_grad c)) then Some gi else None,
                  if snd (fst (needs_input_grad c)) then Some gw else None,
                  if snd (needs_input_grad c) then Some gb else None), c')
        /\ shape gi = shape x /\ shape gw = shape w /\ shape gb = shape b
        /\ (forall n ci h wd,
              (n < N)%nat -> (ci < Ci)%nat -> (h < H)%nat -> (wd < W)%nat ->
              tget gi [n; ci; h; wd]
              = zsum K (fun a => zsum K (fun b =>
                zsum Ho (fun u => zsum Wo (fun v =>
                  if ((u * s + a =? h + p) && (v * s + b =? wd + p))%nat
                  then zsum Co (fun o => tget g [n; o; u; v] * tget w [o; ci; a; b])
                  else 0)))))
        /\ (forall o ci a b,
              (o < Co)%nat -> (ci < Ci)%nat -> (a < K)%nat -> (b < K)%nat ->
              tget gw [o; ci; a; b]
              = zsum N (fun n => zsum Ho (fun u => zsum Wo (fun v =>
                  tget g [n; o; u; v] * padded x p n ci (u * s + a) (v * s + b)))))
        /\ (forall o, (o < Co)%nat ->
              tget gb [o]
              = zsum N (fun n => zsum Ho (fun u => zsum Wo (fun v =>
                  tget g [n; o; u; v]))))
        /\ (forall x' out' c2 c2',
              shape x' = shape x ->
              forward x' w (Some b) stride padding c2 = (Ok out', c2') ->
              tdot g out' - tdot g out
              = sum_over (shape x)
                  (fun idx => tget gi idx * (tget x' idx - tget x idx)))
        /\ (forall w' out' c2 c2',
              shape w' = shape w ->
              forward x w' (Some b) stride padding c2 = (Ok out', c2') ->
              tdot g out' - tdot g out
              = sum_over (shape w)
                  (fun idx => tget gw idx * (tget w' idx - tget w idx)))
        /\ (forall b' out' c2 c2',
              shape b' = shape b ->
              forward x w (Some b') stride padding c2 = (Ok out', c2') ->
              tdot g out' - tdot g out
              = sum_over (shape b)
                  (fun idx => tget gb idx * (tget b' idx - tget b idx))))
  /\ (forall (x w b : tensor) (c : Ctx),
        shape x = [2; 3; 8; 8]%nat -> shape w = [4; 3; 3; 3]%nat ->
        shape b = [4]%nat -> snd (needs_input_grad c) = true ->
        exists out c' gi gw gb,
          forward x w (Some b) (PyInt 1) (PyInt 1) c = (Ok out, c')
          /\ shape out = [2; 4; 8; 8]%nat
          /\ backward (ones [2; 4; 8; 8]%nat) c' = (Ok (gi, gw, Some gb), c')
          /\ shape gb = [4]%nat
          /\ forall o, (o < 4)%nat -> tget gb [o] = 128).
Proof.
  split.
  - intros x w b g N Ci H W Co K p s c Hx Hw Hb Hne HCo HK Hs HKH HKW Ho Wo
           stride padding Hg.
    destruct (@forward_backward_ok x w b g N Ci H W Co K p s c
                Hx Hw Hb Hne HCo HK Hs HKH HKW Hg)
      as (out & c' & gi & gw & gb & Hf & Hbk & (Hsi & _) & (Hsw & _) & (Hsb & _)
          & Hei & Hew & Heb).
    exists out, c', gi, gw, gb.
    split; [exact Hf|]. split; [exact Hbk|].
    split; [congruence|]. split; [congruence|]. split; [congruence|].
    split; [exact Hei|]. split; [exact Hew|]. split; [exact Heb|].
    split; [|split].
    + intros x' out' c2 c2' Hx' Hf'. rewrite Hx in *.
      exact (@grad_input_check g N Ci H W Co K p s Hne HCo HK Hs HKH HKW Hg
               x x' w b out out' gi c c' c2 c2' Hx Hx' Hw Hb Hf Hf' Hei).
    + intros w' out' c2 c2' Hw' Hf'. rewrite Hw in *.
      exact (@grad_weight_check g N Ci H W Co K p s Hne HCo HK Hs HKH HKW Hg
               x w w' b out out' gw c c' c2 c2' Hx Hw Hw' Hb Hf Hf' Hew).
    + intros b' out' c2 c2' Hb' Hf'. rewrite Hb in *.
      exact (@grad_bias_check g N Ci H W Co K p s Hne HCo HK Hs HKH HKW Hg
               x w b b' out out' gb c c' c2 c2' Hx Hw Hb Hb' Hf Hf' Heb).
  - intros x w b c Hx Hw Hb Hnb.
    assert (Hne : (0 < 2 /\ 0 < 3 /\ 0 < 8 /\ 0 < 8)%nat) by lia.
    assert (Hg : shape (ones [2; 4; 8; 8]%nat) = [2; 4; osz 8 1 3 1; osz 8 1 3 1]%nat)
      by reflexivity.
    destruct (@forward_ok x w 2 3 8 8 4 3 1 1 Hx Hw Hne ltac:(lia) ltac:(lia)
                ltac:(lia) ltac:(lia) ltac:(lia) b c Hb)
      as (windows & out0 & _ & Hf0 & Hso & _).
    destruct (@forward_backward_ok x w b (ones [2; 4; 8; 8]%nat) 2 3 8 8 4 3 1 1 c
                Hx Hw Hb Hne ltac:(lia) ltac:(lia) ltac:(lia) ltac:(lia) ltac:(lia) Hg)
      as (out & c' & gi & gw & gb & Hf & Hbk & _ & _ & (Hsb & _) & _ & _ & Heb).
    rewrite Hnb in Hbk.
    exists out, c'. do 2 eexists. exists gb.
    split; [exact Hf|].
    split. { change (PyInt 1) with (PyInt (Z.of_nat 1)) in Hf.
             rewrite Hf in Hf0. injection Hf0 as -> _. exact Hso. }
    split; [exact Hbk|]. split; [exact Hsb|].
    intros o Ho. rewrite (Heb o Ho).
    rewrite (@zsum_ext 2 _ (fun _ => zsum 8 (fun _ => zsum 8 (fun _ => 1)))).
    + reflexivity.
    + intros n Hn. apply zsum_ext; intros u Hu. apply zsum_ext; intros v Hv.
      unfold ones. apply tget_tab.
      repeat (apply Forall2_cons; [assumption|]). apply Forall2_nil.
Qed.

(** C5.  On a rank-4 input and a rank-4 weight, every violation of the
    preconditions of the operator (non-square kernel, channel mismatch, a
    stride that is not a positive integer, a padding that is not a
    non-negative integer, a kernel larger than the padded input in height or
    in width) makes [forward] raise [AssertionError] from its block of checks,
    that is before [unfold] or any other step of the output computation
    runs; no output is returned and nothing is saved for [backward]. *)
Theorem forward_rejects_violations
    (x w : tensor) (bias : option tensor) (stride padding : pyval) (c : Ctx)
    (N Ci H W Co Cw K1 K2 : nat) :
  shape x = [N; Ci; H; W] -> shape w = [Co; Cw; K1; K2] ->
  violates x w stride padding ->
  exists c',
    forward_checks x w stride padding c = (Raise AssertionError, c')
    /\ forward x w bias stride padding c = (Raise AssertionError, c')
    /\ saved_tensors c' = saved_tensors c.
Proof.
  intros Hx Hw Hv.
  pose proof (@forward_checks_spec x w stride padding c N Ci H W Co Cw K1 K2 Hx Hw) as Hs.
  unfold forward, bind.
  destruct (forward_checks x w stride padding c) as [[r|e] c'].
  - exfalso. destruct r as [[[[[k n] h] wd] s] p].
    destruct Hs as (E1 & E2 & Es & Hs0 & Ep & Hp0 & Hh & Hwd & _).
    destruct Hv as [? ? ? ? Hw' Hne | ? ? ? ? ? ? ? ? Hx' Hw' Hne | Hi | z Hz Hle
                   | Hi | z Hz Hlt | ? ? ? ? ? ? ? ? p' Hx' Hw' Hp' Hgt
                   | ? ? ? ? ? ? ? ? p' Hx' Hw' Hp' Hgt].
    + rewrite Hw in Hw'. injection Hw' as <- <- <- <-. contradiction.
    + rewrite Hw in Hw'. rewrite Hx in Hx'. injection Hw' as <- <- <- <-.
      injection Hx' as <- <- <- <-. contradiction.
    + rewrite Es in Hi. discriminate.
    + rewrite Es in Hz. injection Hz as <-. lia.
    + rewrite Ep in Hi. discriminate.
    + rewrite Ep in Hz. injection Hz as <-. lia.
    + rewrite Hw in Hw'. rewrite Hx in Hx'. injection Hw' as <- <- <- <-.
      injection Hx' as <- <- <- <-. rewrite Ep in Hp'. injection Hp' as <-. lia.
    + rewrite Hw in Hw'. rewrite Hx in Hx'. injection Hw' as <- <- <- <-.
      injection Hx' as <- <- <- <-. rewrite Ep in Hp'. injection Hp' as <-. lia.
  - destruct Hs as (-> & Hsv & _). exists c'. repeat split; assumption.
Qed.

(** C6 (the part that fails).  A layer built with [bias=False] passes
    [None] to the operator, and [forward] raises [AttributeError] instead of
    returning the contraction without a bias term. *)
Theorem forward_bias_none_raises :
  fst (CustomConv2d_forward ex_layer_no_bias ex_input ex_ctx) = Raise AttributeError
  /\ fst (forward ex_input ex_weight None (PyInt 1) (PyInt 0) ex_ctx)
     = Raise AttributeError
  /\ is_ok (fst (forward ex_input ex_weight (Some ex_bias) (PyInt 1) (PyInt 0) ex_ctx))
     = true.
Proof. repeat split; vm_compute; reflexivity. Qed.

Lemma forward_shape_and_entries_witness :
  exists out patch weight_flat c',
    forward ex_input ex_weight (Some ex_bias) (PyInt 1) (PyInt 0) ex_ctx = (Ok out, c')
    /\ saved_tensors c' = Some (patch, ex_weight, Some ex_bias)
    /\ view ex_weight [2; 4] = Ok weight_flat
    /\ shape out = [1; 2; 2; 2]%nat.
Proof.
  destruct (@forward_shape_and_entries ex_input ex_weight ex_bias 1 1 3 3 2 2 0 1 ex_ctx
              eq_refl eq_refl eq_refl
              ltac:(lia) ltac:(lia) ltac:(lia) ltac:(lia) ltac:(lia) ltac:(lia))
    as (out & patch & wflat & c' & Hf & Hs & Hv & Hso & _).
  exists out, patch, wflat, c'. repeat split; assumption.
Defined.

Lemma backward_true_gradients_witness :
  exists out c' gi gw gb,
    forward ex_input ex_weight (Some ex_bias) (PyInt 1) (PyInt 0) ex_ctx = (Ok out, c')
    /\ backward ex_grad_output c' = (Ok (Some gi, Some gw, Some gb), c')
    /\ shape gi = shape ex_input /\ shape gw = shape ex_weight
    /\ shape gb = shape ex_bias.
Proof.
  destruct (proj1 backward_true_gradients
              ex_input ex_weight ex_bias ex_grad_output 1%nat 1%nat 3%nat 3%nat 2%nat 2%nat 0%nat 1%nat ex_ctx
              eq_refl eq_refl eq_refl
              ltac:(lia) ltac:(lia) ltac:(lia) ltac:(lia) ltac:(lia) ltac:(lia) eq_refl)
    as (out & c' & gi & gw & gb & Hf & Hb & Hsi & Hsw & Hsb & _).
  exists out, c', gi, gw, gb. repeat split; assumption.
Defined.

Lemma forward_rejects_violations_witness :
  exists c',
    forward_checks ex_input ex_weight_2x3 (PyInt 1) (PyInt 0) ex_ctx
    = (Raise AssertionError, c')
    /\ forward ex_input ex_weight_2x3 (Some ex_bias) (PyInt 1) (PyInt 0) ex_ctx
       = (Raise AssertionError, c')
    /\ saved_tensors c' = saved_tensors ex_ctx.
Proof.
  apply (@forward_rejects_violations ex_input ex_weight_2x3 (Some ex_bias)
           (PyInt 1) (PyInt 0) ex_ctx 1 1 3 3 2 1 2 3 eq_refl eq_refl).
  apply (@non_square_kernel ex_input ex_weight_2x3 (PyInt 1) (PyInt 0) 2 1 2 3 eq_refl).
  discriminate.
Defined.

(* ================================================================== *)
(** * Properties of the attack and of the saliency map *)
(* ================================================================== *)

Section Elementwise.

Lemma nth_tmap f t k :
(k < length (data t))%nat -> nth k (data (tmap f t)) 0 = f (nth k (data t) 0).
Proof.
intros Hk. unfold tmap; cbn [data].
rewrite nth_indep with (d' := f 0) by now rewrite length_map.
apply map_nth.
Qed.

Lemma shape_tmap f t : shape (tmap f t) = shape t.
Proof. reflexivity. Qed.

Lemma wf_tmap f t : wf t -> wf (tmap f t).
Proof. unfold wf, tmap; cbn [shape data]. now rewrite length_map. Qed.

(** An elementwise operation on two well-formed tensors of one shape acts
  entry by entry on their storage. *)
Lemma tzip_same_data f a b r :
shape a = shape b -> wf a -> wf b -> tzip f a b = Ok r ->
shape r = shape a /\ wf r
/\ forall k, (k < numel (shape a))%nat ->
     nth k (data r) 0 = f (nth k (data a) 0) (nth k (data b) 0).
Proof.
intros E Ha Hb Hr. rewrite tzip_same in Hr by assumption. injection Hr as <-.
split; [reflexivity|]. split; [apply wf_tab|].
intros k Hk. rewrite nth_tab by assumption.
destruct (offset_unravel (shape a) Hk) as [Hin Hoff].
rewrite bget_in_range by assumption.
rewrite E. rewrite bget_in_range by (rewrite <- E; assumption).
unfold tget. rewrite <- E, Hoff. reflexivity.
Qed.

Lemma tzip_same_ok f a b :
shape a = shape b -> exists r, tzip f a b = Ok r.
Proof. intros E. rewrite tzip_same by assumption. eauto. Qed.

Lemma clamp_bound lo hi x : lo <= hi -> lo <= clamp lo hi x <= hi.
Proof. unfold clamp. lia. Qed.

End Elementwise.

Section AttackLemmas.

Lemma nth_ewise2 f a b k :
length (data a) = length (data b) -> (k < length (data a))%nat ->
nth k (data (ewise2 f a b)) 0 = f (nth k (data a) 0) (nth k (data b) 0).
Proof.
intros El Hk. unfold ewise2; cbn [data].
rewrite nth_indep with (d' := f (fst (0, 0)) (snd (0, 0)))
  by (rewrite length_map, length_combine; lia).
rewrite map_nth with (f := fun xy => f (fst xy) (snd xy)).
now rewrite combine_nth.
Qed.

Lemma wf_ewise2 f a b :
wf a -> length (data a) = length (data b) -> wf (ewise2 f a b).
Proof.
unfold wf, ewise2; cbn [shape data]. intros Ha El.
rewrite length_map, length_combine. lia.
Qed.

(** A broadcasting operation on two well-formed tensors of one shape is
  the entry-by-entry operation. *)
Lemma tzip_ewise2 f a b :
shape a = shape b -> wf a -> wf b -> tzip f a b = Ok (ewise2 f a b).
Proof.
intros E Ha Hb.
destruct (tzip_same_ok f a b E) as (r & Hr).
destruct (@tzip_same_data f a b r E Ha Hb Hr) as (Hs & Hw & He).
rewrite Hr. f_equal.
assert (El : length (data a) = length (data b)) by (unfold wf in *; congruence).
apply tensor_ext; try assumption.
- now apply wf_ewise2.
- intros k Hk. rewrite Hs in Hk. rewrite (He k Hk).
  rewrite nth_ewise2; [reflexivity|assumption|]. unfold wf in Ha. lia.
Qed.

Lemma argmin_dim1_ok (net : network) m x :
argmin_dim1 (fwd net m x) = Ok (least_confident (fwd net m x)).
Proof.
destruct (fwd_classes net m x) as (n & c & rest & Hs).
unfold argmin_dim1, reduce_dim1, least_confident. rewrite Hs.
reflexivity.
Qed.

Lemma tmap_tmap f h t : tmap f (tmap h t) = tmap (fun z => f (h z)) t.
Proof. unfold tmap; cbn [shape data]. now rewrite map_map. Qed.

Lemma ewise2_tmap_r f h a b :
ewise2 f a (tmap h b) = ewise2 (fun x y => f x (h y)) a b.
Proof.
unfold ewise2, tmap; cbn [shape data]. f_equal.
generalize (data b). induction (data a) as [|x xs IH]; intros [|y ys];
  cbn [map combine]; try reflexivity.
cbn [fst snd]. now rewrite IH.
Qed.

Lemma tmap_ewise2 h f a b :
tmap h (ewise2 f a b) = ewise2 (fun x y => h (f x y)) a b.
Proof. unfold ewise2, tmap; cbn [shape data]. now rewrite map_map. Qed.

Lemma ewise2_swap_r f g a b :
ewise2 f a (ewise2 g b a) = ewise2 (fun x y => f x (g y x)) a b.
Proof.
unfold ewise2; cbn [shape data]. f_equal.
generalize (data b). induction (data a) as [|x xs IH]; intros [|y ys];
  cbn [map combine]; try reflexivity.
cbn [fst snd]. now rewrite IH.
Qed.

Variables (self : PGDAttack) (net : network).


(** One pass through the loop body, from a leaf tensor without [.grad]. *)
Lemma pgd_step_ok (o : tobj) (h : heap) :
gst o <> NonLeaf -> grad o = None -> wf (val o) ->
pgd_step self net o h
= (Ok (mkObj (pgd_spec_step self net (training (model h)) (val o)) NoGrad None),
   queried 1 h).
Proof.
intros Hl Hg Hwf.
unfold pgd_step, bind, lift, call_model.
assert (Hset : set_requires_grad o true = Ok (mkObj (val o) LeafGrad (grad o))).
{ unfold set_requires_grad. destruct (gst o); congruence. }
rewrite Hset. cbn [val]. rewrite argmin_dim1_ok.
unfold loss_backward. cbn [requires_grad gst grad val]. rewrite Hg.
cbn [accumulate rbind get_grad grad val].
set (G := vjp net (training (model h)) (val o) _).
unfold tsub. rewrite tzip_ewise2.
- cbn [ret derived detach_ val grad requires_grad gst]. unfold queried. cbn [repeat].
  do 3 f_equal. unfold pgd_spec_step. fold G.
  now rewrite tmap_tmap, ewise2_tmap_r.
- rewrite !shape_tmap. unfold G. now rewrite vjp_shape.
- assumption.
- apply wf_tmap, wf_tmap. unfold G. now apply vjp_wf.
Qed.

Lemma pgd_spec_step_shape m x :
shape (pgd_spec_step self net m x) = shape x.
Proof. reflexivity. Qed.

Lemma pgd_spec_step_wf m x : wf x -> wf (pgd_spec_step self net m x).
Proof.
intros Hx. unfold pgd_spec_step. apply wf_ewise2; [assumption|].
pose proof (@vjp_wf net m x (dloss (loss_fn self) (fwd net m x)
                               (least_confident (fwd net m x))) Hx) as Hg.
unfold wf in *. rewrite Hx, Hg, vjp_shape. reflexivity.
Qed.

Lemma iter_spec_step_wf m n x :
wf x ->
wf (Nat.iter n (pgd_spec_step self net m) x)
/\ shape (Nat.iter n (pgd_spec_step self net m) x) = shape x.
Proof.
intros Hx. induction n as [|n [IHw IHs]]; [now split|].
rewrite Nat.iter_succ.
split; [now apply pgd_spec_step_wf|]. now rewrite pgd_spec_step_shape.
Qed.

Lemma queried_queried n k h : queried n (queried k h) = queried (k + n) h.
Proof.
unfold queried; cbn [input model training queries].
now rewrite <- app_assoc, repeat_app.
Qed.

(** The loop, from a leaf tensor without [.grad]. *)
Lemma pgd_loop_ok n : forall (o : tobj) (h : heap),
gst o <> NonLeaf -> grad o = None -> wf (val o) ->
pgd_loop self net n o h
= (Ok (match n with
       | O => o
       | S _ => mkObj (Nat.iter n (pgd_spec_step self net (training (model h))) (val o))
                  NoGrad None
       end),
   queried n h).
Proof.
induction n as [|n IH]; intros o h Hl Hg Hwf.
- cbn [pgd_loop ret]. unfold queried. cbn [repeat]. rewrite app_nil_r.
  now destruct h as [i [t q]].
- cbn [pgd_loop]. unfold bind. rewrite pgd_step_ok by assumption.
  rewrite IH; cbn [gst grad val];
    [|discriminate|reflexivity|now apply pgd_spec_step_wf].
  rewrite queried_queried. cbn [queried training model Nat.add].
  f_equal. f_equal. rewrite Nat.iter_succ_r.
  destruct n as [|n]; reflexivity.
Qed.

(** The three lines after the loop (652-654), on entries. *)
Lemma clip_and_add (inp out : tensor) :
shape out = shape inp -> wf inp -> wf out ->
(d <- tsub out inp ;;
 tadd inp (tmap (clamp (- epsilon self) (epsilon self)) d))%result
= Ok (ewise2 (fun xi oi => xi + clamp (- epsilon self) (epsilon self) (oi - xi))
        inp out).
Proof.
intros Hs Hi Ho. unfold tsub, tadd.
rewrite (tzip_ewise2 Z.sub Hs Ho Hi). cbn [rbind].
rewrite tzip_ewise2.
- f_equal. now rewrite tmap_ewise2, ewise2_swap_r.
- rewrite shape_tmap. cbn [ewise2 shape]. now symmetry.
- assumption.
- apply wf_tmap, wf_ewise2; [assumption|]. unfold wf in *. congruence.
Qed.

(** [perturb] on an input that does not require gradients. *)
Lemma perturb_nograd (h : heap) :
gst (input h) = NoGrad -> wf (val (input h)) ->
perturb self net h
= (Ok (mkObj (pgd_spec self net (training (model h)) (val (input h))) NoGrad None),
   queried (Z.to_nat (num_steps self)) (mkHeap (no_grad (input h)) (model h))).
Proof.
intros Hg Hwf.
unfold perturb, bind at 1 2 3 4. unfold get_input at 1, lift at 1, put_input.
assert (Hset : set_requires_grad (input h) false = Ok (no_grad (input h))).
{ unfold set_requires_grad. now rewrite Hg. }
rewrite Hset. cbn [model].
rewrite pgd_loop_ok;
  [|unfold clone, requires_grad; rewrite Hg; discriminate
   |reflexivity|assumption].
cbn [model training].
set (n := Z.to_nat (num_steps self)).
set (h1 := queried n _).
set (o := match n with O => _ | S _ => _ end).
assert (Ho : val o = Nat.iter n (pgd_spec_step self net (training (model h)))
                       (val (input h))
             /\ requires_grad o = false).
{ unfold o. destruct n; [|now split].
  unfold clone, requires_grad. cbn [val gst]. rewrite Hg. now split. }
destruct Ho as [Hv Hr].
destruct (iter_spec_step_wf (training (model h)) n Hwf) as [Hw' Hs'].
unfold bind, get_input, lift. cbn [h1 queried input no_grad val].
pose proof (@clip_and_add (val (input h)) (val o)) as Hc.
rewrite Hv in Hc. specialize (Hc Hs' Hwf Hw').
rewrite Hv.
destruct (tsub _ (val (input h))) as [d|e] eqn:Ed; cbn [rbind] in Hc; [|discriminate].
rewrite Hc. cbn [ret requires_grad gst]. rewrite Hr. reflexivity.
Qed.

(** [perturb] without iterations, on any leaf input. *)
Lemma perturb_zero_steps (h : heap) :
Z.to_nat (num_steps self) = O -> gst (input h) <> NonLeaf -> wf (val (input h)) ->
perturb self net h
= (Ok (mkObj (pgd_spec self net (training (model h)) (val (input h)))
         (if requires_grad (input h) then NonLeaf else NoGrad) None),
   mkHeap (no_grad (input h)) (model h)).
Proof.
intros Hn Hl Hwf.
unfold perturb, bind at 1 2 3 4. unfold get_input at 1, lift at 1, put_input.
assert (Hset : set_requires_grad (input h) false = Ok (no_grad (input h))).
{ unfold set_requires_grad, no_grad.
  destruct (gst (input h)) eqn:E; try reflexivity. now elim Hl. }
rewrite Hset. cbn [model]. rewrite Hn. cbn [pgd_loop ret].
unfold bind, get_input, lift. cbn [input no_grad val clone].
pose proof (@clip_and_add (val (input h)) (val (input h)) eq_refl Hwf Hwf) as Hc.
destruct (tsub _ (val (input h))) as [d|e] eqn:Ed; cbn [rbind] in Hc; [|discriminate].
rewrite Hc. unfold pgd_spec. rewrite Hn. cbn [Nat.iter nat_rect].
unfold ret, derived, requires_grad, no_grad, clone, requires_grad. cbn [gst].
destruct (gst (input h)); reflexivity.
Qed.

(** [input.requires_grad = False] fails on a tensor that is not a leaf. *)
Lemma perturb_nonleaf (h : heap) :
gst (input h) = NonLeaf -> perturb self net h = (Raise RuntimeError, h).
Proof.
intros Hg. unfold perturb, bind, get_input, lift, set_requires_grad.
now rewrite Hg.
Qed.

(** On a leaf that requires gradients the clone is not a leaf, and the
  first [output.requires_grad = True] fails. *)
Lemma perturb_leafgrad_steps (h : heap) :
gst (input h) = LeafGrad -> (0 < Z.to_nat (num_steps self))%nat ->
perturb self net h
= (Raise RuntimeError, mkHeap (no_grad (input h)) (model h)).
Proof.
intros Hg Hn. unfold perturb, bind at 1 2 3 4.
unfold get_input at 1, lift at 1, put_input, set_requires_grad. rewrite Hg.
destruct (Z.to_nat (num_steps self)) as [|n]; [lia|].
cbn [pgd_loop]. unfold bind, pgd_step, bind, lift, set_requires_grad.
unfold clone, requires_grad. rewrite Hg. cbn [gst]. reflexivity.
Qed.

End AttackLemmas.

Section ExplainLemmas.

Variables (l : lossfn) (net : network).

Lemma argmax_dim1_ok m x :
argmax_dim1 (fwd net m x) = Ok (most_confident (fwd net m x)).
Proof.
destruct (fwd_classes net m x) as (n & c & rest & Hs).
unfold argmax_dim1, reduce_dim1, most_confident. rewrite Hs.
reflexivity.
Qed.

Lemma zmax_upto_ge c f k : (k < c)%nat -> f k <= zmax_upto c f.
Proof.
induction c as [|c IH]; intros Hk; [lia|].
cbn [zmax_upto]. destruct (Nat.eqb_spec c 0) as [->|Hc].
- replace k with O by lia. lia.
- destruct (Nat.eq_dec k c) as [->|Hne]; [lia|].
  specialize (IH ltac:(lia)). lia.
Qed.

Lemma zmax_upto_attained c f :
(0 < c)%nat -> exists k, (k < c)%nat /\ zmax_upto c f = f k.
Proof.
induction c as [|c IH]; intros Hc; [lia|].
cbn [zmax_upto]. destruct (Nat.eqb_spec c 0) as [->|Hc0].
- exists O. split; [lia|reflexivity].
- destruct (IH ltac:(lia)) as (k & Hk & Ek).
  destruct (Z.max_spec (zmax_upto c f) (f c)) as [[_ E]|[_ E]]; rewrite E.
  + exists c. split; [lia|reflexivity].
  + exists k. split; [lia|exact Ek].
Qed.

Lemma zmax_upto_nonneg c f :
(forall k, (k < c)%nat -> 0 <= f k) -> 0 <= zmax_upto c f.
Proof.
intros Hf. destruct c as [|c]; [cbn; lia|].
destruct (@zmax_upto_attained (S c) f ltac:(lia)) as (k & Hk & ->).
now apply Hf.
Qed.

(** Adding a gradient to a zeroed [.grad] of the same shape stores the
  gradient itself. *)
Lemma accumulate_zeroed (old g : tensor) :
shape old = shape g -> wf old -> wf g ->
accumulate (Some (tmap (fun _ => 0) old)) g = Ok g.
Proof.
intros Hs Ho Hg. cbn [accumulate]. unfold tadd.
rewrite tzip_ewise2; [|now rewrite shape_tmap|now apply wf_tmap|assumption].
f_equal. apply tensor_ext.
- cbn [ewise2 shape tmap]. assumption.
- apply wf_ewise2; [now apply wf_tmap|].
  unfold wf in *. cbn [tmap data]. rewrite length_map. congruence.
- assumption.
- intros k Hk. cbn [ewise2 shape tmap] in Hk.
  rewrite nth_ewise2.
  + rewrite nth_tmap; [reflexivity|]. unfold wf in Ho. lia.
  + unfold wf in *. cbn [tmap data]. rewrite length_map. congruence.
  + unfold wf in *. cbn [tmap data]. rewrite length_map. lia.
Qed.

Lemma tget_tmap f t idx :
wf t -> in_range idx (shape t) -> tget (tmap f t) idx = f (tget t idx).
Proof.
intros Hw Hi. unfold tget. cbn [tmap shape].
apply nth_tmap. rewrite Hw. now apply offset_lt.
Qed.

(** [torch.max(torch.abs(g), 1)[0].view(N, 1, H, W)] *)
Lemma saliency_view (g : tensor) N C H W :
shape g = [N; C; H; W] -> (0 < C)%nat -> wf g ->
exists out,
  (mx <- max_dim1 (tmap Z.abs g) ;;
   view mx [Z.of_nat N; 1; Z.of_nat H; Z.of_nat W])%result = Ok out
  /\ shape out = [N; 1%nat; H; W] /\ wf out
  /\ forall n h w, (n < N)%nat -> (h < H)%nat -> (w < W)%nat ->
       tget out [n; O; h; w]
       = zmax_upto C (fun k => Z.abs (tget g [n; k; h; w])).
Proof.
intros Hs HC Hw.
unfold max_dim1, reduce_dim1. rewrite shape_tmap, Hs.
destruct (Nat.eqb_spec C 0) as [->|_]; [lia|].
cbn [rbind]. set (mx := tab [N; H; W] _).
rewrite view_exact.
- cbn [map]. rewrite !Nat2Z.id. change (Z.to_nat 1) with 1%nat.
  eexists; split; [reflexivity|]. split; [reflexivity|].
  split.
  { unfold wf. cbn [shape data]. pose proof (wf_tab [N; H; W]) as Hm.
    unfold wf in Hm. specialize (Hm (fun idx : list nat =>
    match idx with
    | [] => 0
    | i :: tl => zmax_upto C (fun k : nat => tget (tmap Z.abs g) (i :: k :: tl))
    end)). fold mx in Hm. rewrite Hm.
    cbn [shape mx tab numel fold_right]. lia. }
  intros n h w Hn Hh Hw'.
  transitivity (tget mx [n; h; w]).
  { unfold tget. cbn [shape data mx tab offset numel fold_right]. f_equal. lia. }
  unfold mx.
  rewrite tget_tab by (repeat (apply Forall2_cons; [assumption|]); apply Forall2_nil).
  assert (Hext : forall c f1 f2, (forall k, (k < c)%nat -> f1 k = f2 k) ->
                                  zmax_upto c f1 = zmax_upto c f2).
  { induction c as [|c IH]; intros f1 f2 Hf; [reflexivity|].
    cbn [zmax_upto]. destruct (Nat.eqb_spec c 0); [apply Hf; lia|].
    rewrite (IH f1 f2) by (intros; apply Hf; lia). now rewrite Hf by lia. }
  apply Hext. intros k Hk. apply tget_tmap; [assumption|].
  rewrite Hs. repeat (apply Forall2_cons; [assumption|]). apply Forall2_nil.
- repeat constructor; lia.
- unfold zprod. cbn [shape mx tab fold_right numel]. lia.
Qed.

(** [explain] on a leaf input of shape [(N, C, H, W)] with at least one
  channel. *)
Lemma explain_ok (h : heap) N C H W :
gst (input h) <> NonLeaf -> shape (val (input h)) = [N; C; H; W] ->
(0 < C)%nat -> wf (val (input h)) -> grad_ok (input h) ->
let G := saliency_grad l net (training (model h)) (val (input h)) in
exists out,
  explain l net h
  = (Ok out, queried 1 (mkHeap (mkObj (val (input h)) LeafGrad (Some G)) (model h)))
  /\ shape out = [N; 1%nat; H; W] /\ wf out
  /\ forall n y x, (n < N)%nat -> (y < H)%nat -> (x < W)%nat ->
       tget out [n; O; y; x]
       = zmax_upto C (fun k => Z.abs (tget G [n; k; y; x])).
Proof.
intros Hl Hs HC Hwf Hgo G.
assert (HGs : shape G = [N; C; H; W]) by (unfold G, saliency_grad; now rewrite vjp_shape).
assert (HGw : wf G) by (unfold G, saliency_grad; now apply vjp_wf).
destruct (saliency_view HGs HC HGw) as (out & Hout & Hso & Hwo & Heo).
exists out. split; [|now repeat split].
unfold explain, bind at 1 2 3 4 5. unfold get_input at 1, lift at 1.
assert (Hset : set_requires_grad (input h) true
               = Ok (mkObj (val (input h)) LeafGrad (grad (input h)))).
{ unfold set_requires_grad. destruct (gst (input h)) eqn:E; try reflexivity.
  now elim Hl. }
rewrite Hset. unfold put_input, get_input. cbn [input model].
unfold bind, call_model, lift. cbn [input model val].
rewrite argmax_dim1_ok.
fold (saliency_grad l net (training (model h)) (val (input h))). 
assert (Hacc : loss_backward net l (training (model h))
                 (zero_grad (mkObj (val (input h)) LeafGrad (grad (input h))))
                 (fwd net (training (model h)) (val (input h)))
                 (most_confident (fwd net (training (model h)) (val (input h))))
               = Ok (mkObj (val (input h)) LeafGrad (Some G))).
{ unfold loss_backward, zero_grad, grad_ok in *. cbn [grad val gst].
  destruct (grad (input h)) as [old|] eqn:Eg; cbn [requires_grad gst grad val].
  - destruct Hgo as [Hos How].
    fold (saliency_grad l net (training (model h)) (val (input h))). fold G.
    rewrite accumulate_zeroed by congruence. reflexivity.
  - reflexivity. }
unfold zero_grad in *. cbn [grad val gst] in *.
destruct (grad (input h)) as [old|]; cbn [val] in *; rewrite Hacc;
  cbn [get_grad grad val]; unfold size; rewrite Hs; cbn [nth_error];
  unfold max_dim1 in *;
  (destruct (reduce_dim1 zmax_upto (tmap Z.abs G)) as [mx|e];
   cbn [rbind] in Hout; [|discriminate]);
  rewrite Hout; reflexivity.
Qed.

End ExplainLemmas.

Section AttackResults.

Variables (self : PGDAttack) (net : network).

Lemma queried_0 h : queried 0 h = h.
Proof.
unfold queried. cbn [repeat]. rewrite app_nil_r.
now destruct h as [i [t q]].
Qed.

(** Whenever [perturb] returns, it returns the sample of the specification
    and leaves behind the input with its flag cleared and a model that was
    called [num_steps] times under its own flag. *)
Lemma perturb_inv (h h' : heap) (out : tobj) :
  wf (val (input h)) -> perturb self net h = (Ok out, h') ->
  val out = pgd_spec self net (training (model h)) (val (input h))
  /\ h' = queried (Z.to_nat (num_steps self)) (mkHeap (no_grad (input h)) (model h)).
Proof.
intros Hwf Hp.
destruct (gst (input h)) eqn:Hg.
- rewrite perturb_nograd in Hp by assumption. injection Hp as <- <-. now split.
- destruct (Z.to_nat (num_steps self)) as [|n] eqn:Hn.
  + rewrite perturb_zero_steps in Hp by (try assumption; congruence).
    injection Hp as <- <-. now rewrite queried_0.
  + rewrite perturb_leafgrad_steps in Hp by (try assumption; lia). discriminate.
- rewrite perturb_nonleaf in Hp by assumption. discriminate.
Qed.

(** The entries of the returned sample. *)
Lemma pgd_spec_entry (m : bool) (x : tensor) (idx : list nat) :
  wf x -> in_range idx (shape x) ->
  tget (pgd_spec self net m x) idx
  = tget x idx
    + clamp (- epsilon self) (epsilon self)
        (tget (Nat.iter (Z.to_nat (num_steps self)) (pgd_spec_step self net m) x) idx
         - tget x idx).
Proof.
intros Hwf Hi.
destruct (iter_spec_step_wf self net m (Z.to_nat (num_steps self)) Hwf) as [Hw' Hs'].
unfold pgd_spec, tget. cbn [ewise2 shape]. rewrite Hs'.
apply nth_ewise2.
- unfold wf in *. congruence.
- rewrite Hwf. now apply offset_lt.
Qed.

(** The loop that ran inside a call of [perturb] that returned. *)
Lemma perturb_loop_inv (h h' : heap) (out : tobj) :
  wf (val (input h)) -> perturb self net h = (Ok out, h') ->
  exists o h1,
    pgd_loop self net (Z.to_nat (num_steps self)) (clone (input h))
      (mkHeap (no_grad (input h)) (model h)) = (Ok o, h1)
    /\ val o = Nat.iter (Z.to_nat (num_steps self))
                 (pgd_spec_step self net (training (model h))) (val (input h)).
Proof.
intros Hwf Hp.
destruct (gst (input h)) eqn:Hg.
- rewrite pgd_loop_ok;
    [|unfold clone, requires_grad; rewrite Hg; discriminate|reflexivity|assumption].
  do 2 eexists. split; [reflexivity|].
  cbn [model training]. destruct (Z.to_nat (num_steps self)); reflexivity.
- destruct (Z.to_nat (num_steps self)) as [|n] eqn:Hn.
  + cbn [pgd_loop ret]. do 2 eexists. split; reflexivity.
  + rewrite perturb_leafgrad_steps in Hp by (try assumption; lia). discriminate.
- rewrite perturb_nonleaf in Hp by assumption. discriminate.
Qed.

(** A displacement of zero is not changed by the clip. *)
Lemma pgd_spec_zero_steps (m : bool) (x : tensor) :
  Z.to_nat (num_steps self) = O -> 0 <= epsilon self -> wf x ->
  pgd_spec self net m x = x.
Proof.
intros Hn He Hwf. unfold pgd_spec. rewrite Hn. cbn [Nat.iter nat_rect].
apply tensor_ext.
- reflexivity.
- now apply wf_ewise2.
- assumption.
- intros k Hk. cbn [ewise2 shape] in Hk.
  rewrite nth_ewise2; [|reflexivity|unfold wf in Hwf; lia].
  unfold clamp. lia.
Qed.

End AttackResults.

(** C3.  Whenever [perturb] returns, with a budget [epsilon >= 0], the
    sample has the shape of the input and every entry differs from the entry
    of the input by at most [epsilon] in absolute value, whatever the model,
    the loss and the number of steps.  The bound comes from the clip after
    the loop: the sample is [input + clamp(o - input, -epsilon, epsilon)] for
    the tensor [o] that the unclipped loop produced.  On an input that does
    not require gradients [perturb] does return. *)
Theorem perturb_within_epsilon (self : PGDAttack) (net : network) (h : heap) :
  0 <= epsilon self -> wf (val (input h)) ->
  (forall out h',
      perturb self net h = (Ok out, h') ->
      shape (val out) = shape (val (input h))
      /\ (forall idx, in_range idx (shape (val (input h))) ->
            Z.abs (tget (val out) idx - tget (val (input h)) idx) <= epsilon self)
      /\ exists o h1,
           pgd_loop self net (Z.to_nat (num_steps self)) (clone (input h))
             (mkHeap (no_grad (input h)) (model h)) = (Ok o, h1)
           /\ forall idx, in_range idx (shape (val (input h))) ->
                tget (val out) idx
                = tget (val (input h)) idx
                  + clamp (- epsilon self) (epsilon self)
                      (tget (val o) idx - tget (val (input h)) idx))
  /\ (gst (input h) = NoGrad -> exists out h', perturb self net h = (Ok out, h')).
Proof.
intros He Hwf. split.
- intros out h' Hp.
  destruct (perturb_inv self net h Hwf Hp) as [Hv _].
  destruct (perturb_loop_inv self net h Hwf Hp) as (o & h1 & Hloop & Ho).
  split; [now rewrite Hv|]. split.
  + intros idx Hi. rewrite Hv, pgd_spec_entry by assumption.
    pose proof (@clamp_bound (- epsilon self) (epsilon self)
                  (tget (Nat.iter (Z.to_nat (num_steps self))
                           (pgd_spec_step self net (training (model h)))
                           (val (input h))) idx - tget (val (input h)) idx)).
    lia.
  + exists o, h1. split; [exact Hloop|].
    intros idx Hi. rewrite Hv, Ho. now apply pgd_spec_entry.
- intros Hg. rewrite perturb_nograd by assumption. eauto.
Qed.

Lemma perturb_within_epsilon_witness :
  exists out h',
    perturb ex_attack ex_net ex_heap = (Ok out, h')
    /\ forall idx, in_range idx (shape (val (input ex_heap))) ->
         Z.abs (tget (val out) idx - tget (val (input ex_heap)) idx) <= 2.
Proof.
destruct (@perturb_within_epsilon ex_attack ex_net ex_heap ltac:(cbn; lia) eq_refl)
  as [Hb Hr].
destruct (Hr eq_refl) as (out & h' & Hp).
exists out, h'. split; [exact Hp|].
exact (proj1 (proj2 (Hb out h' Hp))).
Defined.

(** The tensor the loop hands to the clip can lie outside the ball: three
    steps of size 1 move the first entry by 3, beyond the budget of 2. *)
Lemma pgd_loop_leaves_ball_example :
  exists o h1,
    pgd_loop ex_attack ex_net 3 (clone ex_image) ex_heap = (Ok o, h1)
    /\ tget (val o) [0; 0; 0; 0]%nat - tget ex_image_data [0; 0; 0; 0]%nat = -3.
Proof. do 2 eexists. split; vm_compute; reflexivity. Qed.

(** C9.  With [num_steps = 0] (and a budget [epsilon >= 0]), [perturb] on a
    leaf input returns a tensor equal to the input: the loop body never
    runs (the model is not called) and clipping a displacement of zero
    changes nothing. *)
Theorem perturb_zero_steps_identity (self : PGDAttack) (net : network) (h : heap) :
  num_steps self = 0 -> 0 <= epsilon self ->
  gst (input h) <> NonLeaf -> wf (val (input h)) ->
  exists out h',
    perturb self net h = (Ok out, h')
    /\ val out = val (input h)
    /\ queries (model h') = queries (model h).
Proof.
intros Hn He Hl Hwf.
assert (Hn' : Z.to_nat (num_steps self) = O) by (rewrite Hn; reflexivity).
rewrite perturb_zero_steps by assumption.
do 2 eexists. split; [reflexivity|]. cbn [val model]. split; [|reflexivity].
now apply pgd_spec_zero_steps.
Qed.

Lemma perturb_zero_steps_identity_witness :
  exists out h',
    perturb ex_attack_0 ex_net ex_heap = (Ok out, h')
    /\ val out = val (input ex_heap)
    /\ queries (model h') = queries (model ex_heap).
Proof.
apply (@perturb_zero_steps_identity ex_attack_0 ex_net ex_heap eq_refl).
- cbn. lia.
- discriminate.
- reflexivity.
Defined.

Lemma argmin_upto_spec c f :
  (0 < c)%nat ->
  (argmin_upto c f < c)%nat /\ forall j, (j < c)%nat -> f (argmin_upto c f) <= f j.
Proof.
induction c as [|c IH]; intros Hc; [lia|].
cbn [argmin_upto].
destruct (Nat.ltb_spec 0 c) as [Hpos|Hz]; cbn [andb].
- destruct (IH Hpos) as [Hlt Hmin].
  destruct (Z.ltb_spec (f c) (f (argmin_upto c f))) as [Hl|Hl].
  + split; [lia|]. intros j Hj.
    destruct (Nat.eq_dec j c) as [->|Hne]; [lia|].
    specialize (Hmin j ltac:(lia)). lia.
  + split; [lia|]. intros j Hj.
    destruct (Nat.eq_dec j c) as [->|Hne]; [lia|].
    apply Hmin. lia.
- assert (c = O) by lia. subst. cbn [argmin_upto].
  split; [lia|]. intros j Hj. replace j with O by lia. lia.
Qed.

(** C4.  [perturb] computes what the specification describes.
    - Every pass through the loop body queries the model once, takes the
      gradient of the loss against the least confident class (the argmin of
      the prediction scores along the class dimension), replaces the working
      copy by [copy - step_size * sign(gradient)] and leaves it detached.
    - The whole call makes [num_steps] such passes from a copy of the input
      and returns [input + clamp(copy - input, -epsilon, epsilon)].
    - The least confident class is an index of a smallest score. *)
Theorem perturb_refines_spec (self : PGDAttack) (net : network) :
  (forall (o : tobj) (h : heap),
      gst o <> NonLeaf -> grad o = None -> wf (val o) ->
      exists o',
        pgd_step self net o h = (Ok o', queried 1 h)
        /\ val o' = pgd_spec_step self net (training (model h)) (val o)
        /\ requires_grad o' = false /\ is_leaf o' = true)
  /\ (forall h : heap,
        gst (input h) = NoGrad -> wf (val (input h)) ->
        exists out h',
          perturb self net h = (Ok out, h')
          /\ val out = pgd_spec self net (training (model h)) (val (input h))
          /\ queries (model h')
             = queries (model h)
               ++ repeat (training (model h)) (Z.to_nat (num_steps self)))
  /\ (forall (pred : tensor) n c rest i tl,
        shape pred = n :: c :: rest -> (0 < c)%nat ->
        in_range (i :: tl) (n :: rest) ->
        exists k,
          tget (least_confident pred) (i :: tl) = Z.of_nat k /\ (k < c)%nat
          /\ forall j, (j < c)%nat ->
               tget pred (i :: k :: tl) <= tget pred (i :: j :: tl)).
Proof.
split; [|split].
- intros o h Hl Hg Hwf. rewrite pgd_step_ok by assumption.
  eexists. split; [reflexivity|]. repeat split.
- intros h Hg Hwf. rewrite perturb_nograd by assumption.
  do 2 eexists. split; [reflexivity|]. split; reflexivity.
- intros pred n c rest i tl Hs Hc Hi.
  unfold least_confident. rewrite Hs. rewrite tget_tab by assumption.
  destruct (@argmin_upto_spec c (fun k => tget pred (i :: k :: tl)) Hc) as [Hlt Hmin].
  eexists. split; [reflexivity|]. split; [exact Hlt|exact Hmin].
Qed.

Lemma perturb_refines_spec_witness :
  exists out h',
    perturb ex_attack ex_net ex_heap = (Ok out, h')
    /\ val out = pgd_spec ex_attack ex_net true ex_image_data
    /\ queries (model h') = [true; true; true].
Proof.
exact (proj1 (proj2 (perturb_refines_spec ex_attack ex_net)) ex_heap eq_refl eq_refl).
Defined.

(** C8 as stated fails on both counts that concern the caller's objects: a
    model left in training mode is queried in training mode, and an input
    that required gradients no longer does after the call. *)
Lemma perturb_frame_counterexample :
  ~ perturb_frame_claim ex_attack ex_net ex_heap
  /\ ~ perturb_frame_claim ex_attack_0 ex_net ex_heap_grad.
Proof.
split; intros H.
- destruct (H _ _ eq_refl) as [Hq _].
  specialize (Hq true (or_introl eq_refl)). discriminate.
- destruct (H _ _ eq_refl) as (_ & _ & Hi). discriminate.
Qed.

Section CallerOfPerturb.

Variables (self : PGDAttack) (net : network).

(** The adversarial branch of [SimpleNet.forward] in training mode. *)
Lemma SimpleNet_forward_attack_ok (h : heap) :
  training (model h) = true -> gst (input h) = NoGrad -> wf (val (input h)) ->
  SimpleNet_forward_attack self net h
  = (Ok (mkObj (pgd_spec self net false (val (input h))) NoGrad None),
     mkHeap (no_grad (input h))
       (mkM true (queries (model h) ++ repeat false (Z.to_nat (num_steps self))))).
Proof.
intros Ht Hg Hwf. unfold SimpleNet_forward_attack, bind at 1, get_training.
rewrite Ht. unfold bind at 1, set_training. unfold bind at 1.
rewrite perturb_nograd by assumption.
reflexivity.
Qed.

End CallerOfPerturb.

(** C8, amended.  [perturb] does not touch the mode flag of the model: every
    query runs the model under the flag the caller left, and the flag is the
    same on return.  The switch to inference mode and back is made by the
    caller, [SimpleNet.forward], around the call.  [perturb] leaves the
    entries and the [.grad] of the caller's input as they were, and sets its
    [requires_grad] flag to [False]. *)
Theorem perturb_frame (self : PGDAttack) (net : network) :
  (forall (h h' : heap) (out : tobj),
      wf (val (input h)) -> perturb self net h = (Ok out, h') ->
      training (model h') = training (model h)
      /\ queries (model h')
         = queries (model h)
           ++ repeat (training (model h)) (Z.to_nat (num_steps self))
      /\ val (input h') = val (input h)
      /\ grad (input h') = grad (input h)
      /\ requires_grad (input h') = false)
  /\ (forall h : heap,
        training (model h) = true -> gst (input h) = NoGrad ->
        wf (val (input h)) ->
        exists x h',
          SimpleNet_forward_attack self net h = (Ok x, h')
          /\ training (model h') = true
          /\ queries (model h')
             = queries (model h) ++ repeat false (Z.to_nat (num_steps self))).
Proof.
split.
- intros h h' out Hwf Hp.
  destruct (perturb_inv self net h Hwf Hp) as [_ ->].
  repeat split.
- intros h Ht Hg Hwf. rewrite SimpleNet_forward_attack_ok by assumption.
  do 2 eexists. split; [reflexivity|]. split; reflexivity.
Qed.

Lemma perturb_frame_witness :
  exists out h',
    perturb ex_attack_0 ex_net ex_heap_grad = (Ok out, h')
    /\ training (model h') = training (model ex_heap_grad)
    /\ val (input h') = val (input ex_heap_grad)
    /\ requires_grad (input h') = false.
Proof.
assert (Hp : perturb ex_attack_0 ex_net ex_heap_grad
             = (Ok (mkObj ex_image_data NonLeaf None),
                mkHeap (no_grad ex_image_grad) ex_model))
  by (vm_compute; reflexivity).
do 2 eexists. split; [exact Hp|].
destruct (proj1 (perturb_frame ex_attack_0 ex_net) ex_heap_grad _ _ eq_refl Hp)
  as (Ht & _ & Hv & _ & Hr).
repeat split; assumption.
Defined.

Lemma argmax_upto_spec c f :
  (0 < c)%nat ->
  (argmax_upto c f < c)%nat /\ forall j, (j < c)%nat -> f j <= f (argmax_upto c f).
Proof.
induction c as [|c IH]; intros Hc; [lia|].
cbn [argmax_upto].
destruct (Nat.ltb_spec 0 c) as [Hpos|Hz]; cbn [andb].
- destruct (IH Hpos) as [Hlt Hmax].
  destruct (Z.ltb_spec (f (argmax_upto c f)) (f c)) as [Hl|Hl].
  + split; [lia|]. intros j Hj.
    destruct (Nat.eq_dec j c) as [->|Hne]; [lia|].
    specialize (Hmax j ltac:(lia)). lia.
  + split; [lia|]. intros j Hj.
    destruct (Nat.eq_dec j c) as [->|Hne]; [lia|].
    apply Hmax. lia.
- assert (c = O) by lia. subst. cbn [argmax_upto].
  split; [lia|]. intros j Hj. replace j with O by lia. lia.
Qed.

(** C7.  On a leaf input of shape [(N, C, H, W)] with [C >= 1], [explain]
    calls the model once, takes the gradient [G] of the loss against the
    model's own top class (the argmax of the scores along the class
    dimension) at the input, and returns the tensor of shape [(N, 1, H, W)]
    whose entry [(n, 0, y, x)] is the maximum over the channels [k] of
    [|G[n, k, y, x]|].  Every entry of the result is non-negative and the
    result has one channel whatever [C] is. *)
Theorem explain_saliency_map
    (l : lossfn) (net : network) (h : heap) (N C H W : nat) :
  shape (val (input h)) = [N; C; H; W] -> (0 < C)%nat ->
  gst (input h) <> NonLeaf -> wf (val (input h)) -> grad_ok (input h) ->
  let m := training (model h) in
  let pred := fwd net m (val (input h)) in
  let G := vjp net m (val (input h)) (dloss l pred (most_confident pred)) in
  exists out h',
    explain l net h = (Ok out, h')
    /\ queries (model h') = queries (model h) ++ [m]
    /\ grad (input h') = Some G
    /\ shape out = [N; 1%nat; H; W] /\ wf out
    /\ (forall n y x, (n < N)%nat -> (y < H)%nat -> (x < W)%nat ->
          tget out [n; O; y; x] = zmax_upto C (fun k => Z.abs (tget G [n; k; y; x]))
          /\ (forall k, (k < C)%nat -> Z.abs (tget G [n; k; y; x]) <= tget out [n; O; y; x])
          /\ (exists k, (k < C)%nat /\ tget out [n; O; y; x] = Z.abs (tget G [n; k; y; x])))
    /\ (forall idx, in_range idx (shape out) -> 0 <= tget out idx)
    /\ (forall n c rest i tl,
          shape pred = n :: c :: rest -> (0 < c)%nat ->
          in_range (i :: tl) (n :: rest) ->
          exists k,
            tget (most_confident pred) (i :: tl) = Z.of_nat k /\ (k < c)%nat
            /\ forall j, (j < c)%nat ->
                 tget pred (i :: j :: tl) <= tget pred (i :: k :: tl)).
Proof.
intros Hs HC Hl Hwf Hgo m pred G.
destruct (@explain_ok l net h N C H W Hl Hs HC Hwf Hgo) as (out & He & Hso & Hwo & Hent).
fold m in He, Hent. change (saliency_grad l net m (val (input h))) with G in He, Hent.
exists out, (queried 1 (mkHeap (mkObj (val (input h)) LeafGrad (Some G)) (model h))).
split; [exact He|]. split; [reflexivity|]. split; [reflexivity|].
split; [exact Hso|]. split; [exact Hwo|].
split; [|split].
- intros n y x Hn Hy Hx. rewrite (Hent n y x Hn Hy Hx).
  split; [reflexivity|]. split.
  + intros k Hk.
    exact (@zmax_upto_ge C (fun k => Z.abs (tget G [n; k; y; x])) k Hk).
  + exact (@zmax_upto_attained C (fun k => Z.abs (tget G [n; k; y; x])) HC).
- intros idx Hi. rewrite Hso in Hi.
  inversion Hi as [|n N' t1 s1 Hn Hi1]; subst.
  inversion Hi1 as [|c0 C' t2 s2 Hc0 Hi2]; subst.
  inversion Hi2 as [|y H' t3 s3 Hy Hi3]; subst.
  inversion Hi3 as [|x W' t4 s4 Hx Hi4]; subst.
  inversion Hi4; subst.
  replace c0 with O by lia.
  rewrite (Hent n y x Hn Hy Hx).
  apply zmax_upto_nonneg. intros k _. apply Z.abs_nonneg.
- intros n c rest i tl Hsp Hc Hi.
  unfold most_confident. rewrite Hsp. rewrite tget_tab by assumption.
  destruct (@argmax_upto_spec c (fun k => tget pred (i :: k :: tl)) Hc) as [Hlt Hmax].
  eexists. split; [reflexivity|]. split; [exact Hlt|exact Hmax].
Qed.

(** C10.  A call of [explain] that returns leaves the caller's input with
    [requires_grad] set and with [.grad] holding the gradient of that call,
    its entries unchanged.  The stored gradient is cleared only by the next
    call, which zeroes it before its own backward pass: after a second call
    [.grad] is the gradient of the second call alone. *)
Theorem explain_mutates_input
    (l : lossfn) (net : network) (h : heap) (N C H W : nat) :
  shape (val (input h)) = [N; C; H; W] -> (0 < C)%nat ->
  gst (input h) <> NonLeaf -> wf (val (input h)) -> grad_ok (input h) ->
  let G := saliency_grad l net (training (model h)) (val (input h)) in
  exists out h',
    explain l net h = (Ok out, h')
    /\ requires_grad (input h') = true
    /\ grad (input h') = Some G
    /\ val (input h') = val (input h)
    /\ exists out2 h'',
         explain l net h' = (Ok out2, h'')
         /\ requires_grad (input h'') = true
         /\ grad (input h'')
            = Some (saliency_grad l net (training (model h')) (val (input h')))
         /\ val (input h'') = val (input h).
Proof.
intros Hs HC Hl Hwf Hgo G.
destruct (@explain_ok l net h N C H W Hl Hs HC Hwf Hgo) as (out & He & _).
fold G in He.
set (h' := queried 1 (mkHeap (mkObj (val (input h)) LeafGrad (Some G)) (model h))) in *.
exists out, h'. split; [exact He|].
split; [reflexivity|]. split; [reflexivity|]. split; [reflexivity|].
assert (Hgo' : grad_ok (input h')).
{ unfold grad_ok, h'. cbn [input queried grad val]. unfold G, saliency_grad.
  split; [apply vjp_shape|now apply vjp_wf]. }
destruct (@explain_ok l net h' N C H W ltac:(discriminate) Hs HC Hwf Hgo')
  as (out2 & He2 & _).
do 2 eexists. split; [exact He2|].
split; [reflexivity|]. split; reflexivity.
Qed.

Lemma explain_saliency_map_witness :
  exists out h',
    explain ex_loss ex_net ex_heap = (Ok out, h')
    /\ shape out = [1; 1; 2; 2]%nat
    /\ forall idx, in_range idx (shape out) -> 0 <= tget out idx.
Proof.
destruct (@explain_saliency_map ex_loss ex_net ex_heap 1 2 2 2 eq_refl
            ltac:(lia) ltac:(discriminate) eq_refl I)
  as (out & h' & He & _ & _ & Hs & _ & _ & Hn & _).
exists out, h'. repeat split; assumption.
Defined.

Lemma explain_mutates_input_witness :
  exists out h',
    explain ex_loss ex_net ex_heap = (Ok out, h')
    /\ requires_grad (input ex_heap) = false
    /\ requires_grad (input h') = true
    /\ grad (input ex_heap) = None
    /\ grad (input h') <> None.
Proof.
destruct (@explain_mutates_input ex_loss ex_net ex_heap 1 2 2 2 eq_refl
            ltac:(lia) ltac:(discriminate) eq_refl I)
  as (out & h' & He & Hr & Hg & _).
exists out, h'. repeat split; try assumption.
rewrite Hg. discriminate.
Defined.

(* ================================================================== *)
(** * Further properties of the convolution operator *)
(* ================================================================== *)

Section TensorEquality.

Lemma tensor_ext_tget (a b : tensor) :
shape a = shape b -> wf a -> wf b ->
(forall idx, in_range idx (shape a) -> tget a idx = tget b idx) -> a = b.
Proof.
intros E Ha Hb H. apply tensor_ext; try assumption.
intros k Hk. destruct (offset_unravel (shape a) Hk) as [Hin Hoff].
specialize (H _ Hin). unfold tget in H. rewrite <- E, Hoff in H. exact H.
Qed.

Lemma in_range4 idx A B C D :
in_range idx [A; B; C; D] ->
exists a b c d, idx = [a; b; c; d] /\ (a < A /\ b < B /\ c < C /\ d < D)%nat.
Proof.
intros Hi.
inversion Hi as [|a A' t1 s1 Ha Hi1]; subst.
inversion Hi1 as [|b B' t2 s2 Hb Hi2]; subst.
inversion Hi2 as [|c C' t3 s3 Hc Hi3]; subst.
inversion Hi3 as [|d D' t4 s4 Hd Hi4]; subst.
inversion Hi4; subst.
exists a, b, c, d. repeat split; assumption.
Qed.

Lemma in_range4_intro a b c d A B C D :
(a < A)%nat -> (b < B)%nat -> (c < C)%nat -> (d < D)%nat ->
in_range [a; b; c; d] [A; B; C; D].
Proof. intros. repeat (apply Forall2_cons; [assumption|]). apply Forall2_nil. Qed.

(** Two tensors of one rank-4 shape with the same entries are equal. *)
Lemma tensor_ext4 (a b : tensor) A B C D :
shape a = [A; B; C; D] -> shape b = [A; B; C; D] -> wf a -> wf b ->
(forall i j k l, (i < A)%nat -> (j < B)%nat -> (k < C)%nat -> (l < D)%nat ->
   tget a [i; j; k; l] = tget b [i; j; k; l]) ->
a = b.
Proof.
intros Ea Eb Ha Hb H. apply tensor_ext_tget; try assumption; [congruence|].
intros idx Hi. rewrite Ea in Hi.
destruct (in_range4 Hi) as (i & j & k & l & -> & Hi' & Hj & Hk & Hl).
now apply H.
Qed.

End TensorEquality.

Section WindowArithmetic.

(** The last row of the last window lies inside the padded axis. *)
Lemma window_in_bounds sz p k s u a :
(0 < s)%nat -> (k <= sz + 2 * p)%nat -> (u < osz sz p k s)%nat -> (a < k)%nat ->
(u * s + a < sz + 2 * p)%nat.
Proof.
intros Hs Hk Hu Ha. unfold osz in Hu.
assert (Hq : (s * ((sz + 2 * p - k) / s) <= sz + 2 * p - k)%nat)
  by apply Nat.Div0.mul_div_le.
nia.
Qed.

Lemma osz_stride1 sz p k : (k <= sz + 2 * p)%nat -> osz sz p k 1 = (sz + 2 * p - k + 1)%nat.
Proof. intros Hk. unfold osz. now rewrite Nat.div_1_r. Qed.

Lemma osz_padded sz p k s : osz (sz + 2 * p) 0 k s = osz sz p k s.
Proof. unfold osz. f_equal. f_equal. lia. Qed.

Lemma covered_intro sz p k s i u :
(u < osz sz p k s)%nat -> (u * s <= i + p)%nat -> (i + p < u * s + k)%nat ->
covered sz p k s i = true.
Proof.
intros Hu H1 H2. unfold covered. apply existsb_exists. exists u. split.
- apply in_seq. lia.
- apply andb_true_iff. split; [now apply Nat.leb_le|now apply Nat.ltb_lt].
Qed.

Lemma covered_elim sz p k s i :
covered sz p k s i = true ->
exists u, (u < osz sz p k s)%nat /\ (u * s <= i + p)%nat /\ (i + p < u * s + k)%nat.
Proof.
unfold covered. intros H. apply existsb_exists in H. destruct H as (u & Hin & Hc).
apply in_seq in Hin. apply andb_true_iff in Hc. destruct Hc as [H1 H2].
apply Nat.leb_le in H1. apply Nat.ltb_lt in H2.
exists u. repeat split; [lia|assumption|assumption].
Qed.

End WindowArithmetic.

Section ConvolutionEntries.

Variables (N Ci H W Co K p s : nat).
Hypothesis Hne : (0 < N /\ 0 < Ci /\ 0 < H /\ 0 < W)%nat.
Hypothesis HCo : (0 < Co)%nat.
Hypothesis HK : (0 < K)%nat.
Hypothesis Hs : (0 < s)%nat.
Hypothesis HKH : (K <= H + 2 * p)%nat.
Hypothesis HKW : (K <= W + 2 * p)%nat.

(** A valid call returns, and its entries are the convolution. *)
Lemma forward_run (x w b : tensor) (c : Ctx) :
shape x = [N; Ci; H; W] -> shape w = [Co; Ci; K; K] -> shape b = [Co] ->
exists out c',
  forward x w (Some b) (PyInt (Z.of_nat s)) (PyInt (Z.of_nat p)) c = (Ok out, c')
  /\ shape out = [N; Co; osz H p K s; osz W p K s] /\ wf out
  /\ forall n o u v,
       (n < N)%nat -> (o < Co)%nat -> (u < osz H p K s)%nat -> (v < osz W p K s)%nat ->
       tget out [n; o; u; v] = conv_entry x w Ci K p s n o u v + tget b [o].
Proof.
intros Hx Hw Hb.
destruct (@forward_ok x w N Ci H W Co K p s Hx Hw Hne HCo HK Hs HKH HKW b c Hb)
  as (windows & out & _ & Hf & Hso & Hwo & _).
exists out, (ctx_with c N H W (PyInt (Z.of_nat s)) (PyInt (Z.of_nat p))
               (Some (windows, w, Some b))).
split; [exact Hf|]. split; [exact Hso|]. split; [exact Hwo|].
intros n o u v Hn Ho Hu Hv.
exact (@forward_conv N Ci H W Co K p s Hne HCo HK Hs HKH HKW x w b out c _
         Hx Hw Hb Hf n o u v Hn Ho Hu Hv).
Qed.

(** The entries of a padded plane that the windows read. *)
Lemma padded_inside (x : tensor) n c i j :
shape x = [N; Ci; H; W] ->
padded x p n c i j
= if ((p <=? i) && (i <? H + p) && (p <=? j) && (j <? W + p))%nat
  then tget x [n; c; (i - p)%nat; (j - p)%nat] else 0.
Proof. intros Hx. unfold padded. now rewrite Hx. Qed.

End ConvolutionEntries.

Lemma conv_entry_ext (x x' w w' : tensor) Ci K p s p' s' n o u v n' o' u' v' :
  (forall c a b, (c < Ci)%nat -> (a < K)%nat -> (b < K)%nat ->
     padded x p n c (u * s + a) (v * s + b) * tget w [o; c; a; b]
     = padded x' p' n' c (u' * s' + a) (v' * s' + b) * tget w' [o'; c; a; b]) ->
  conv_entry x w Ci K p s n o u v = conv_entry x' w' Ci K p' s' n' o' u' v'.
Proof.
  intros H0. unfold conv_entry.
  apply zsum_ext; intros c Hc. apply zsum_ext; intros a Ha.
  apply zsum_ext; intros b Hb. now apply H0.
Qed.

(* ================================================================== *)
(** * The convolution operator: further properties *)
(* ================================================================== *)

(** X1.  The [padding] argument of [forward] is zero padding on both sides
    of the two spatial axes: a valid call with padding [p] returns the very
    tensor that the call with padding 0 returns on the input with a border
    of [p] zeros written out. *)
Theorem forward_padding_is_zero_padding
    (x w b : tensor) (N Ci H W Co K p s : nat) (c1 c2 : Ctx) :
  shape x = [N; Ci; H; W] -> shape w = [Co; Ci; K; K] -> shape b = [Co] ->
  (0 < N /\ 0 < Ci /\ 0 < H /\ 0 < W)%nat -> (0 < Co)%nat -> (0 < K)%nat ->
  (0 < s)%nat -> (K <= H + 2 * p)%nat -> (K <= W + 2 * p)%nat ->
  exists out c1' c2',
    forward x w (Some b) (PyInt (Z.of_nat s)) (PyInt (Z.of_nat p)) c1 = (Ok out, c1')
    /\ forward (zero_pad x p) w (Some b) (PyInt (Z.of_nat s)) (PyInt 0) c2
       = (Ok out, c2').
Proof.
  intros Hx Hw Hb Hne HCo HK Hs HKH HKW.
  destruct (@forward_run N Ci H W Co K p s Hne HCo HK Hs HKH HKW x w b c1 Hx Hw Hb)
    as (out & c1' & Hf & Hso & Hwo & He).
  assert (Hxp : shape (zero_pad x p) = [N; Ci; (H + 2 * p)%nat; (W + 2 * p)%nat])
    by (unfold zero_pad; now rewrite Hx).
  destruct (@forward_run N Ci (H + 2 * p) (W + 2 * p) Co K 0 s
              ltac:(lia) HCo HK Hs ltac:(lia) ltac:(lia) (zero_pad x p) w b c2 Hxp Hw Hb)
    as (out' & c2' & Hf' & Hso' & Hwo' & He').
  rewrite !osz_padded in Hso', He'.
  assert (E : out' = out).
  { apply (@tensor_ext4 out' out N Co (osz H p K s) (osz W p K s)); try assumption.
    intros n o u v Hn Ho Hu Hv.
    rewrite (He n o u v Hn Ho Hu Hv), (He' n o u v Hn Ho Hu Hv). f_equal.
    apply conv_entry_ext. intros c a b0 Hc Ha Hb0. f_equal.
    pose proof (@window_in_bounds H p K s u a Hs HKH Hu Ha).
    pose proof (@window_in_bounds W p K s v b0 Hs HKW Hv Hb0).
    rewrite (@padded_inside N Ci (H + 2 * p) (W + 2 * p) 0 _ n c _ _ Hxp).
    cbn [Nat.leb andb]. rewrite !Nat.add_0_r, !Nat.sub_0_r.
    destruct (Nat.ltb_spec (u * s + a) (H + 2 * p)); [|lia].
    destruct (Nat.ltb_spec (v * s + b0) (W + 2 * p)); [|lia].
    cbn [andb]. unfold zero_pad. rewrite Hx.
    apply tget_tab. now apply in_range4_intro. }
  subst out'. exists out, c1', c2'. split; [exact Hf|exact Hf'].
Qed.

Lemma forward_padding_is_zero_padding_witness :
  exists out c1' c2',
    forward ex_input ex_weight (Some ex_bias) (PyInt 1) (PyInt 1) ex_ctx = (Ok out, c1')
    /\ forward (zero_pad ex_input 1) ex_weight (Some ex_bias) (PyInt 1) (PyInt 0) ex_ctx
       = (Ok out, c2').
Proof.
  exact (@forward_padding_is_zero_padding ex_input ex_weight ex_bias 1 1 3 3 2 2 1 1
           ex_ctx ex_ctx eq_refl eq_refl eq_refl
           ltac:(lia) ltac:(lia) ltac:(lia) ltac:(lia) ltac:(lia) ltac:(lia)).
Defined.

(** X2.  The [stride] argument of [forward] subsamples: the output of a
    valid call with stride [s] has at [(n, o, u, v)] the entry that the same
    call with stride 1 has at [(n, o, u*s, v*s)], a position that lies inside
    the output of stride 1. *)
Theorem forward_stride_subsamples
    (x w b : tensor) (N Ci H W Co K p s : nat) (c1 c2 : Ctx) :
  shape x = [N; Ci; H; W] -> shape w = [Co; Ci; K; K] -> shape b = [Co] ->
  (0 < N /\ 0 < Ci /\ 0 < H /\ 0 < W)%nat -> (0 < Co)%nat -> (0 < K)%nat ->
  (0 < s)%nat -> (K <= H + 2 * p)%nat -> (K <= W + 2 * p)%nat ->
  exists out dense c1' c2',
    forward x w (Some b) (PyInt (Z.of_nat s)) (PyInt (Z.of_nat p)) c1 = (Ok out, c1')
    /\ forward x w (Some b) (PyInt 1) (PyInt (Z.of_nat p)) c2 = (Ok dense, c2')
    /\ shape dense = [N; Co; (H + 2 * p - K + 1)%nat; (W + 2 * p - K + 1)%nat]
    /\ shape out = [N; Co; ((H + 2 * p - K) / s + 1)%nat; ((W + 2 * p - K) / s + 1)%nat]
    /\ forall n o u v,
         (n < N)%nat -> (o < Co)%nat ->
         (u < (H + 2 * p - K) / s + 1)%nat -> (v < (W + 2 * p - K) / s + 1)%nat ->
         (u * s < H + 2 * p - K + 1)%nat /\ (v * s < W + 2 * p - K + 1)%nat
         /\ tget out [n; o; u; v] = tget dense [n; o; (u * s)%nat; (v * s)%nat].
Proof.
  intros Hx Hw Hb Hne HCo HK Hs HKH HKW.
  destruct (@forward_run N Ci H W Co K p s Hne HCo HK Hs HKH HKW x w b c1 Hx Hw Hb)
    as (out & c1' & Hf & Hso & Hwo & He).
  destruct (@forward_run N Ci H W Co K p 1 Hne HCo HK ltac:(lia) HKH HKW x w b c2 Hx Hw Hb)
    as (dense & c2' & Hf' & Hso' & Hwo' & He').
  rewrite !osz_stride1 in Hso', He' by assumption.
  exists out, dense, c1', c2'.
  split; [exact Hf|]. split; [exact Hf'|]. split; [exact Hso'|]. split; [exact Hso|].
  intros n o u v Hn Ho Hu Hv.
  pose proof (@window_in_bounds H p K s u (K - 1) Hs HKH Hu ltac:(lia)) as Bu.
  pose proof (@window_in_bounds W p K s v (K - 1) Hs HKW Hv ltac:(lia)) as Bv.
  split; [lia|]. split; [lia|].
  rewrite (He n o u v Hn Ho Hu Hv).
  rewrite (He' n o (u * s)%nat (v * s)%nat Hn Ho ltac:(lia) ltac:(lia)).
  f_equal. apply conv_entry_ext. intros c a b0 _ _ _.
  now rewrite !Nat.mul_1_r.
Qed.

Lemma forward_stride_subsamples_witness :
  exists out dense c1' c2',
    forward ex_input_4x4 ex_weight (Some ex_bias) (PyInt 2) (PyInt 0) ex_ctx = (Ok out, c1')
    /\ forward ex_input_4x4 ex_weight (Some ex_bias) (PyInt 1) (PyInt 0) ex_ctx
       = (Ok dense, c2')
    /\ shape dense = [1; 2; 3; 3]%nat /\ shape out = [1; 2; 2; 2]%nat
    /\ tget out [0; 1; 1; 1]%nat = tget dense [0; 1; 2; 2]%nat.
Proof.
  destruct (@forward_stride_subsamples ex_input_4x4 ex_weight ex_bias 1 1 4 4 2 2 0 2
              ex_ctx ex_ctx eq_refl eq_refl eq_refl
              ltac:(lia) ltac:(lia) ltac:(lia) ltac:(lia) ltac:(lia) ltac:(lia))
    as (out & dense & c1' & c2' & Hf & Hf' & Hsd & Hso & He).
  exists out, dense, c1', c2'.
  split; [exact Hf|]. split; [exact Hf'|]. split; [exact Hsd|]. split; [exact Hso|].
  exact (proj2 (proj2 (He 0 1 1 1 ltac:(lia) ltac:(lia) ltac:(cbn; lia) ltac:(cbn; lia))))%nat.
Defined.



(** X4.  Input positions under no window are ignored by [forward] and get
    gradient 0 from [backward].  These are the rows and columns that the
    floor in the output size leaves over at the end of an axis, and those
    between two windows when the stride exceeds the kernel size.  Two inputs
    that agree wherever a window lies give the same output, and
    [grad_input] is 0 at every position whose row or column lies under no
    window. *)
Theorem forward_backward_ignore_uncovered
    (x x' w b g : tensor) (N Ci H W Co K p s : nat) (c1 c2 : Ctx) :
  shape x = [N; Ci; H; W] -> shape x' = [N; Ci; H; W] ->
  shape w = [Co; Ci; K; K] -> shape b = [Co] ->
  (0 < N /\ 0 < Ci /\ 0 < H /\ 0 < W)%nat -> (0 < Co)%nat -> (0 < K)%nat ->
  (0 < s)%nat -> (K <= H + 2 * p)%nat -> (K <= W + 2 * p)%nat ->
  shape g = [N; Co; osz H p K s; osz W p K s] ->
  (forall n c h wd, (n < N)%nat -> (c < Ci)%nat -> (h < H)%nat -> (wd < W)%nat ->
     covered H p K s h = true -> covered W p K s wd = true ->
     tget x' [n; c; h; wd] = tget x [n; c; h; wd]) ->
  exists out c1' c2' gi gw gb,
    forward x w (Some b) (PyInt (Z.of_nat s)) (PyInt (Z.of_nat p)) c1 = (Ok out, c1')
    /\ forward x' w (Some b) (PyInt (Z.of_nat s)) (PyInt (Z.of_nat p)) c2 = (Ok out, c2')
    /\ backward g c1'
       = (Ok (if fst (fst (needs_input_grad c1)) then Some gi else None,
              if snd (fst (needs_input_grad c1)) then Some gw else None,
              if snd (needs_input_grad c1) then Some gb else None), c1')
    /\ forall n c h wd, (n < N)%nat -> (c < Ci)%nat -> (h < H)%nat -> (wd < W)%nat ->
         covered H p K s h = false \/ covered W p K s wd = false ->
         tget gi [n; c; h; wd] = 0.
Proof.
  intros Hx Hx' Hw Hb Hne HCo HK Hs HKH HKW Hg Hagree.
  destruct (@forward_backward_ok x w b g N Ci H W Co K p s c1
              Hx Hw Hb Hne HCo HK Hs HKH HKW Hg)
    as (out & c1' & gi & gw & gb & Hf & Hbk & _ & _ & _ & Hei & _).
  destruct (@forward_run N Ci H W Co K p s Hne HCo HK Hs HKH HKW x w b c1 Hx Hw Hb)
    as (out0 & c0 & Hf0 & Hso & Hwo & He).
  rewrite Hf in Hf0. injection Hf0 as <- <-.
  destruct (@forward_run N Ci H W Co K p s Hne HCo HK Hs HKH HKW x' w b c2 Hx' Hw Hb)
    as (out' & c2' & Hf' & Hso' & Hwo' & He').
  assert (E : out' = out).
  { apply (@tensor_ext4 out' out N Co (osz H p K s) (osz W p K s)); try assumption.
    intros n o u v Hn Ho Hu Hv.
    rewrite (He n o u v Hn Ho Hu Hv), (He' n o u v Hn Ho Hu Hv). f_equal.
    apply conv_entry_ext. intros c a b0 Hc Ha Hb0. f_equal.
    rewrite (@padded_inside N Ci H W p _ n c _ _ Hx).
    rewrite (@padded_inside N Ci H W p _ n c _ _ Hx').
    destruct ((p <=? u * s + a)%nat && (u * s + a <? H + p)%nat
              && (p <=? v * s + b0)%nat && (v * s + b0 <? W + p)%nat) eqn:Ec;
      [|reflexivity].
    apply andb_true_iff in Ec. destruct Ec as [Ec E4].
    apply andb_true_iff in Ec. destruct Ec as [Ec E3].
    apply andb_true_iff in Ec. destruct Ec as [E1 E2].
    apply Nat.leb_le in E1. apply Nat.ltb_lt in E2.
    apply Nat.leb_le in E3. apply Nat.ltb_lt in E4.
    apply Hagree; try assumption; try lia.
    - apply (@covered_intro H p K s _ u); [assumption|lia|lia].
    - apply (@covered_intro W p K s _ v); [assumption|lia|lia]. }
  subst out'. exists out, c1', c2', gi, gw, gb.
  split; [exact Hf|]. split; [exact Hf'|]. split; [exact Hbk|].
  intros n c h wd Hn Hc Hh Hwd Hun.
  rewrite (Hei n c h wd Hn Hc Hh Hwd).
  rewrite <- (zsum_0 K) at 1. apply zsum_ext; intros a Ha.
  rewrite <- (zsum_0 K) at 1. apply zsum_ext; intros b0 Hb0.
  rewrite <- (zsum_0 (osz H p K s)) at 1. apply zsum_ext; intros u Hu.
  rewrite <- (zsum_0 (osz W p K s)) at 1. apply zsum_ext; intros v Hv.
  destruct (Nat.eqb_spec (u * s + a) (h + p)) as [E1|E1]; [|reflexivity].
  destruct (Nat.eqb_spec (v * s + b0) (wd + p)) as [E2|E2]; [|reflexivity].
  exfalso.
  assert (C1 : covered H p K s h = true)
    by (apply (@covered_intro H p K s h u); [assumption|lia|lia]).
  assert (C2 : covered W p K s wd = true)
    by (apply (@covered_intro W p K s wd v); [assumption|lia|lia]).
  destruct Hun as [Hun|Hun]; congruence.
Qed.

Lemma forward_backward_ignore_uncovered_witness :
  exists out c1' c2' gi gw gb,
    forward ex_input_4x4 ex_weight (Some ex_bias) (PyInt 3) (PyInt 0) ex_ctx = (Ok out, c1')
    /\ forward ex_input_4x4' ex_weight (Some ex_bias) (PyInt 3) (PyInt 0) ex_ctx
       = (Ok out, c2')
    /\ backward (ones [1; 2; 1; 1]%nat) c1' = (Ok (Some gi, Some gw, Some gb), c1')
    /\ tget gi [0; 0; 3; 1]%nat = 0.
Proof.
  destruct (@forward_backward_ignore_uncovered ex_input_4x4 ex_input_4x4' ex_weight ex_bias
              (ones [1; 2; 1; 1]%nat) 1 1 4 4 2 2 0 3 ex_ctx ex_ctx
              eq_refl eq_refl eq_refl eq_refl
              ltac:(lia) ltac:(lia) ltac:(lia) ltac:(lia) ltac:(cbn; lia) ltac:(cbn; lia)
              eq_refl)
    as (out & c1' & c2' & gi & gw & gb & Hf & Hf' & Hbk & Hz).
  { intros n c h wd Hn Hc Hh Hwd C1 C2.
    assert (n = 0)%nat by lia. assert (c = 0)%nat by lia. subst n c.
    destruct h as [|[|[|[|h]]]]; try lia; try discriminate C1;
      destruct wd as [|[|[|[|wd]]]]; try lia; try discriminate C2; reflexivity. }
  exists out, c1', c2', gi, gw, gb.
  split; [exact Hf|]. split; [exact Hf'|]. split; [exact Hbk|].
  apply Hz; try lia. left. reflexivity.
Defined.

Section Superposition.

Lemma tadd_entries (a b r : tensor) :
shape a = shape b -> tadd a b = Ok r ->
shape r = shape a /\ wf r
/\ forall idx, in_range idx (shape a) -> tget r idx = tget a idx + tget b idx.
Proof.
intros E Hr. split; [|split].
- unfold tadd in Hr. rewrite tzip_same in Hr by assumption. now injection Hr as <-.
- unfold tadd in Hr. rewrite tzip_same in Hr by assumption. injection Hr as <-.
  apply wf_tab.
- intros idx Hi. now destruct (tget_tzip_same Z.add a b E Hr Hi) as (_ & _ & ->).
Qed.

Lemma tadd_of_entries (a b r : tensor) :
shape a = shape b -> shape r = shape a -> wf r ->
(forall idx, in_range idx (shape a) -> tget r idx = tget a idx + tget b idx) ->
tadd a b = Ok r.
Proof.
intros E Er Hw He.
destruct (tzip_same_ok Z.add a b E) as (r' & Hr').
destruct (tadd_entries a b E Hr') as (Es & Hw' & He').
unfold tadd. rewrite Hr'. f_equal.
apply tensor_ext_tget; try assumption; [congruence|].
intros idx Hi. rewrite Es in Hi. rewrite He', He by assumption. reflexivity.
Qed.

Lemma conv_entry_add (x x1 x2 w w1 w2 : tensor) Ci K p s n o u v :
(forall c a b, (c < Ci)%nat -> (a < K)%nat -> (b < K)%nat ->
   padded x p n c (u * s + a) (v * s + b) * tget w [o; c; a; b]
   = padded x1 p n c (u * s + a) (v * s + b) * tget w1 [o; c; a; b]
     + padded x2 p n c (u * s + a) (v * s + b) * tget w2 [o; c; a; b]) ->
conv_entry x w Ci K p s n o u v
= conv_entry x1 w1 Ci K p s n o u v + conv_entry x2 w2 Ci K p s n o u v.
Proof.
intros H0. unfold conv_entry.
rewrite <- zsum_add. apply zsum_ext; intros c Hc.
rewrite <- zsum_add. apply zsum_ext; intros a Ha.
rewrite <- zsum_add. apply zsum_ext; intros b Hb.
now apply H0.
Qed.

Lemma padded_add (x1 x2 xs : tensor) N Ci H W p n c i j :
shape x1 = [N; Ci; H; W] -> shape x2 = [N; Ci; H; W] -> tadd x1 x2 = Ok xs ->
(n < N)%nat -> (c < Ci)%nat ->
padded xs p n c i j = padded x1 p n c i j + padded x2 p n c i j.
Proof.
intros H1 H2 Hs Hn Hc.
destruct (@tadd_entries x1 x2 xs ltac:(congruence) Hs) as (Es & _ & He).
rewrite H1 in Es.
rewrite (@padded_inside N Ci H W p xs n c i j Es).
rewrite (@padded_inside N Ci H W p x1 n c i j H1).
rewrite (@padded_inside N Ci H W p x2 n c i j H2).
destruct ((p <=? i)%nat && (i <? H + p)%nat && (p <=? j)%nat && (j <? W + p)%nat) eqn:Ec;
  [|reflexivity].
apply andb_true_iff in Ec. destruct Ec as [Ec E4].
apply andb_true_iff in Ec. destruct Ec as [Ec E3].
apply andb_true_iff in Ec. destruct Ec as [E1 E2].
apply Nat.leb_le in E1. apply Nat.ltb_lt in E2.
apply Nat.leb_le in E3. apply Nat.ltb_lt in E4.
apply He. rewrite H1. apply in_range4_intro; lia.
Qed.

End Superposition.

(** X5.  [forward] is additive in the pair (weight, bias) and in the pair
    (input, bias): when the weights and the biases of two valid calls are
    added, or their inputs and their biases, the output is the sum of the
    two outputs. *)
Theorem forward_superposition
    (x1 x2 xs w1 w2 ws b1 b2 bs : tensor) (N Ci H W Co K p s : nat) (c : Ctx) :
  shape x1 = [N; Ci; H; W] -> shape x2 = [N; Ci; H; W] ->
  shape w1 = [Co; Ci; K; K] -> shape w2 = [Co; Ci; K; K] ->
  shape b1 = [Co] -> shape b2 = [Co] ->
  (0 < N /\ 0 < Ci /\ 0 < H /\ 0 < W)%nat -> (0 < Co)%nat -> (0 < K)%nat ->
  (0 < s)%nat -> (K <= H + 2 * p)%nat -> (K <= W + 2 * p)%nat ->
  tadd x1 x2 = Ok xs -> tadd w1 w2 = Ok ws -> tadd b1 b2 = Ok bs ->
  let stride := PyInt (Z.of_nat s) in
  let padding := PyInt (Z.of_nat p) in
  (exists o1 o2 os,
     fst (forward x1 w1 (Some b1) stride padding c) = Ok o1
     /\ fst (forward x1 w2 (Some b2) stride padding c) = Ok o2
     /\ fst (forward x1 ws (Some bs) stride padding c) = Ok os
     /\ tadd o1 o2 = Ok os)
  /\ (exists o1 o2 os,
        fst (forward x1 w1 (Some b1) stride padding c) = Ok o1
        /\ fst (forward x2 w1 (Some b2) stride padding c) = Ok o2
        /\ fst (forward xs w1 (Some bs) stride padding c) = Ok os
        /\ tadd o1 o2 = Ok os).
Proof.
  intros Hx1 Hx2 Hw1 Hw2 Hb1 Hb2 Hne HCo HK Hs HKH HKW Hxs Hws Hbs stride padding.
  destruct (@tadd_entries x1 x2 xs ltac:(congruence) Hxs) as (Exs & _ & _).
  destruct (@tadd_entries w1 w2 ws ltac:(congruence) Hws) as (Ews & _ & Hwe).
  destruct (@tadd_entries b1 b2 bs ltac:(congruence) Hbs) as (Ebs & _ & Hbe).
  rewrite Hx1 in Exs. rewrite Hw1 in Ews, Hwe. rewrite Hb1 in Ebs, Hbe.
  assert (Hbias : forall o, (o < Co)%nat -> tget bs [o] = tget b1 [o] + tget b2 [o]).
  { intros o Ho. apply Hbe. repeat constructor. assumption. }
  destruct (@forward_run N Ci H W Co K p s Hne HCo HK Hs HKH HKW x1 w1 b1 c Hx1 Hw1 Hb1)
    as (o11 & c11 & Hf11 & Hs11 & Hwf11 & He11).
  destruct (@forward_run N Ci H W Co K p s Hne HCo HK Hs HKH HKW x1 w2 b2 c Hx1 Hw2 Hb2)
    as (o12 & c12 & Hf12 & Hs12 & Hwf12 & He12).
  destruct (@forward_run N Ci H W Co K p s Hne HCo HK Hs HKH HKW x1 ws bs c Hx1 Ews Ebs)
    as (o1s & c1s & Hf1s & Hs1s & Hwf1s & He1s).
  destruct (@forward_run N Ci H W Co K p s Hne HCo HK Hs HKH HKW x2 w1 b2 c Hx2 Hw1 Hb2)
    as (o21 & c21 & Hf21 & Hs21 & Hwf21 & He21).
  destruct (@forward_run N Ci H W Co K p s Hne HCo HK Hs HKH HKW xs w1 bs c Exs Hw1 Ebs)
    as (os1 & cs1 & Hfs1 & Hss1 & Hwfs1 & Hes1).
  fold stride padding in Hf11, Hf12, Hf1s, Hf21, Hfs1.
  split.
  - exists o11, o12, o1s.
    rewrite Hf11, Hf12, Hf1s. repeat (split; [reflexivity|]).
    apply tadd_of_entries; try congruence.
    intros idx Hi. rewrite Hs11 in Hi.
    destruct (in_range4 Hi) as (n & o & u & v & -> & Hn & Ho & Hu & Hv).
    rewrite He11, He12, He1s, Hbias by assumption.
    rewrite (@conv_entry_add x1 x1 x1 ws w1 w2 Ci K p s n o u v); [ring|].
    intros c0 a b0 Hc Ha Hb0.
    rewrite (Hwe [o; c0; a; b0]) by (now apply in_range4_intro). ring.
  - exists o11, o21, os1.
    rewrite Hf11, Hf21, Hfs1. repeat (split; [reflexivity|]).
    apply tadd_of_entries; try congruence.
    intros idx Hi. rewrite Hs11 in Hi.
    destruct (in_range4 Hi) as (n & o & u & v & -> & Hn & Ho & Hu & Hv).
    rewrite He11, He21, Hes1, Hbias by assumption.
    rewrite (@conv_entry_add xs x1 x2 w1 w1 w1 Ci K p s n o u v); [ring|].
    intros c0 a b0 Hc Ha Hb0.
    rewrite (@padded_add x1 x2 xs N Ci H W p n c0 _ _ Hx1 Hx2 Hxs Hn Hc). ring.
Qed.

Lemma forward_superposition_witness :
  exists ws bs o1 o2 os,
    tadd ex_weight ex_weight2 = Ok ws /\ tadd ex_bias ex_bias2 = Ok bs
    /\ fst (forward ex_input ex_weight (Some ex_bias) (PyInt 1) (PyInt 0) ex_ctx) = Ok o1
    /\ fst (forward ex_input ex_weight2 (Some ex_bias2) (PyInt 1) (PyInt 0) ex_ctx) = Ok o2
    /\ fst (forward ex_input ws (Some bs) (PyInt 1) (PyInt 0) ex_ctx) = Ok os
    /\ tadd o1 o2 = Ok os.
Proof.
  destruct (@tzip_same_ok Z.add ex_input ex_input2 eq_refl) as (xs & Hxs).
  destruct (@tzip_same_ok Z.add ex_weight ex_weight2 eq_refl) as (ws & Hws).
  destruct (@tzip_same_ok Z.add ex_bias ex_bias2 eq_refl) as (bs & Hbs).
  destruct (@forward_superposition ex_input ex_input2 xs ex_weight ex_weight2 ws
              ex_bias ex_bias2 bs 1 1 3 3 2 2 0 1 ex_ctx
              eq_refl eq_refl eq_refl eq_refl eq_refl eq_refl
              ltac:(lia) ltac:(lia) ltac:(lia) ltac:(lia) ltac:(lia) ltac:(lia)
              Hxs Hws Hbs) as [(o1 & o2 & os & H1 & H2 & H3 & H4) _].
  exists ws, bs, o1, o2, os. repeat split; assumption.
Defined.

(** X6.  With the [1 x 1] kernels that copy every channel to itself, a
    zero bias, stride 1 and padding 0, [forward] returns its input. *)
Theorem forward_identity_kernel (x : tensor) (N C H W : nat) (c : Ctx) :
  shape x = [N; C; H; W] -> wf x ->
  (0 < N /\ 0 < C /\ 0 < H /\ 0 < W)%nat ->
  exists c',
    forward x (eye_kernel C) (Some (zeros [C])) (PyInt 1) (PyInt 0) c = (Ok x, c').
Proof.
  intros Hx Hwf Hne.
  destruct (@forward_run N C H W C 1 0 1 Hne ltac:(lia) ltac:(lia) ltac:(lia)
              ltac:(lia) ltac:(lia) x (eye_kernel C) (zeros [C]) c Hx eq_refl eq_refl)
    as (out & c' & Hf & Hso & Hwo & He).
  assert (Ho : forall sz, (0 < sz)%nat -> osz sz 0 1 1 = sz).
  { intros sz Hsz. rewrite osz_stride1 by lia. lia. }
  rewrite !Ho in Hso, He by lia.
  assert (E : out = x).
  { apply (@tensor_ext4 out x N C H W); try assumption.
    intros n o u v Hn Hc Hu Hv.
    rewrite (He n o u v Hn Hc Hu Hv).
    unfold zeros. rewrite tget_tab by (repeat constructor; assumption).
    rewrite Z.add_0_r. unfold conv_entry.
    rewrite (@zsum_ext C _ (fun c0 => if (c0 =? o)%nat then tget x [n; c0; u; v] else 0)).
    - rewrite zsum_single. apply Nat.ltb_lt in Hc. now rewrite Hc.
    - intros c0 Hc0. cbn [zsum]. rewrite !Nat.mul_1_r, !Nat.add_0_r.
      rewrite (@padded_inside N C H W 0 x n c0 u v Hx).
      cbn [Nat.leb andb]. rewrite !Nat.add_0_r, !Nat.sub_0_r.
      apply Nat.ltb_lt in Hu, Hv. rewrite Hu, Hv. cbn [andb].
      apply Nat.ltb_lt in Hu, Hv.
      unfold eye_kernel. rewrite tget_tab by (apply in_range4_intro; lia).
      rewrite (Nat.eqb_sym o c0).
      destruct (c0 =? o)%nat; ring. }
  subst out. exists c'. exact Hf.
Qed.

Lemma forward_identity_kernel_witness :
  exists c',
    forward ex_input (eye_kernel 1) (Some (zeros [1%nat])) (PyInt 1) (PyInt 0) ex_ctx
    = (Ok ex_input, c').
Proof.
  exact (@forward_identity_kernel ex_input 1 1 3 3 ex_ctx eq_refl eq_refl ltac:(lia)).
Defined.

Section Frames.

Lemma reads_ret {S A} (a : A) : reads_only (@ret S A a).
Proof. intros c. reflexivity. Qed.

Lemma reads_lift {S A} (r : result A) : reads_only (@lift S A r).
Proof. intros c. reflexivity. Qed.

Lemma reads_bind {S A B} (m : ST S A) (k : A -> ST S B) :
reads_only m -> (forall a, reads_only (k a)) -> reads_only (bind m k).
Proof.
intros Hm Hk c. unfold bind. specialize (Hm c).
destruct (m c) as [[a|e] c1]; cbn [snd] in *; subst c1; [apply Hk|reflexivity].
Qed.

Lemma reads_get_saved : reads_only get_saved.
Proof. intros c. unfold get_saved. now destruct (saved_tensors c). Qed.

Lemma reads_get_attr {A} (proj : Ctx -> option A) : reads_only (get_attr proj).
Proof. intros c. unfold get_attr. now destruct (proj c). Qed.

Lemma reads_get_needs : reads_only get_needs.
Proof. intros c. reflexivity. Qed.

Lemma keeps_ret {A} (a : A) : keeps_saved (ret a).
Proof. intros c. split; reflexivity. Qed.

Lemma keeps_lift {A} (r : result A) : keeps_saved (lift r).
Proof. intros c. split; reflexivity. Qed.

Lemma keeps_bind {A B} (m : M A) (k : A -> M B) :
keeps_saved m -> (forall a, keeps_saved (k a)) -> keeps_saved (bind m k).
Proof.
intros Hm Hk c. unfold bind. specialize (Hm c).
destruct (m c) as [[a|e] c1]; cbn [snd] in *; [|exact Hm].
destruct (Hk a c1) as [H1 H2]. destruct Hm as [H3 H4]. split; congruence.
Qed.

Lemma keeps_assert b : keeps_saved (assert_ b).
Proof. intros c. unfold assert_. destruct b; split; reflexivity. Qed.

Lemma keeps_assert_int v ok : keeps_saved (assert_int v ok).
Proof.
intros c. unfold assert_int. destruct v as [z| |]; try (split; reflexivity).
destruct (ok z); split; reflexivity.
Qed.

Lemma keeps_forward_checks x w stride padding :
keeps_saved (forward_checks x w stride padding).
Proof.
unfold forward_checks.
repeat first
  [ apply keeps_ret | apply keeps_lift | apply keeps_assert | apply keeps_assert_int
  | (intros c; split; reflexivity)
  | apply keeps_bind; [|intros ?] ].
Qed.

(** Until its last step [forward_compute] only computes; the last step
    saves the patches, the weight and the bias and cannot fail. *)
Lemma forward_compute_inv x w bias k n h wd s p c r c' :
forward_compute x w bias k n h wd s p c = (r, c') ->
match r with
| Ok _ =>
    exists windows b,
      bias = Some b /\ unfold x k p s = Ok windows
      /\ c' = mkCtx (needs_input_grad c) (ctx_batch_size c) (ctx_stride c)
                (ctx_padding c) (ctx_input_height c) (ctx_input_width c)
                (Some (windows, w, bias))
| Raise _ => c' = c
end.
Proof.
unfold forward_compute, bind, lift, save_for_backward, ret. intros Hf.
repeat (break_match_hyp Hf; try (injection Hf as <- <-; reflexivity)).
injection Hf as <- <-.
destruct bias as [b0|]; cbn [deref] in *; [|discriminate].
do 2 eexists. split; [reflexivity|]. split; reflexivity.
Qed.

End Frames.

(** X7.  [backward] never assigns to [ctx]: whether it returns or raises,
    the context after the call is the context before it, so that a second
    call on it behaves as the first. *)
Theorem backward_reads_only (g : tensor) (c : Ctx) :
  snd (backward g c) = c /\ backward g (snd (backward g c)) = backward g c.
Proof.
  assert (H : reads_only (backward g)).
  { unfold backward.
    repeat first
      [ apply reads_ret | apply reads_lift | apply reads_get_saved
      | apply reads_get_attr | apply reads_get_needs
      | apply reads_bind; [|intros ?]
      | match goal with
        | |- reads_only (match ?x with _ => _ end) => destruct x
        end ]. }
  split; [apply H|]. now rewrite H.
Qed.

(** What a call of [forward] leaves in the context, by its outcome. *)
Lemma forward_inv
    (x w : tensor) (bias : option tensor) (stride padding : pyval) (c c' : Ctx)
    (r : result tensor) :
  forward x w bias stride padding c = (r, c') ->
  needs_input_grad c' = needs_input_grad c
  /\ match r with
     | Ok _ =>
         exists windows b kernel_size s p,
           bias = Some b /\ size w 2 = Ok kernel_size
           /\ stride = PyInt s /\ padding = PyInt p
           /\ unfold x kernel_size p s = Ok windows
           /\ saved_tensors c' = Some (windows, w, Some b)
     | Raise _ =>
         saved_tensors c' = saved_tensors c
         /\ (saved_tensors c = None ->
             forall g, backward g c' = (Raise ValueError, c'))
     end.
Proof.
  intros Hf. unfold forward in Hf. unfold bind at 1 in Hf.
  destruct (keeps_forward_checks x w stride padding c) as [Hs Hn].
  destruct (forward_checks x w stride padding c) as [[v|e] c1] eqn:Ec; cbn [snd] in *.
  - destruct v as [[[[[k n] h] wd] s] p].
    pose proof (forward_compute_inv _ _ _ _ _ _ _ _ _ _ Hf) as Hi.
    destruct r as [out|e].
    + destruct Hi as (windows & b & -> & Hu & ->). cbn [needs_input_grad saved_tensors].
      split; [exact Hn|].
      exists windows, b, k, s, p. split; [reflexivity|].
      (* what the checks return *)
      unfold forward_checks, bind, lift in Ec.
      repeat (break_match_hyp Ec; try discriminate).
      unfold assert_int, ret, raise in *.
      repeat match goal with
             | H : context [match ?v with PyInt _ => _ | _ => _ end] |- _ =>
                 destruct v; try discriminate
             | H : context [if ?b then _ else _] |- _ =>
                 destruct b; try discriminate
             | H : (_, _) = (_, _) |- _ => injection H; clear H; intros; subst
             end.
      repeat split; try reflexivity; try assumption; congruence.
    + subst c'. split; [exact Hn|]. split; [exact Hs|].
      intros Hnone g. unfold backward, bind at 1, get_saved.
      now rewrite Hs, Hnone.
  - injection Hf as <- <-. split; [exact Hn|]. split; [exact Hs|].
    intros Hnone g. unfold backward, bind at 1, get_saved.
    now rewrite Hs, Hnone.
Qed.

(** X8.  A call of [forward] that raises, whatever the arguments and the
    exception, leaves [ctx.saved_tensors] and [ctx.needs_input_grad] as they
    were: saving is the last thing [forward] does.  On a context on which
    nothing was saved before, [backward] then raises [ValueError] when it
    unpacks the saved tensors. *)
Theorem forward_failure_saves_nothing
    (x w : tensor) (bias : option tensor) (stride padding : pyval) (c c' : Ctx)
    (e : exn) :
  forward x w bias stride padding c = (Raise e, c') ->
  needs_input_grad c' = needs_input_grad c
  /\ saved_tensors c' = saved_tensors c
  /\ (saved_tensors c = None -> forall g, backward g c' = (Raise ValueError, c')).
Proof.
  intros Hf. destruct (forward_inv _ _ _ _ _ _ Hf) as (Hn & Hs & Hb).
  repeat split; assumption.
Qed.

Lemma forward_failure_saves_nothing_witness :
  exists c',
    forward ex_input ex_weight_2x3 (Some ex_bias) (PyInt 1) (PyInt 0) ex_ctx
    = (Raise AssertionError, c')
    /\ saved_tensors c' = None
    /\ backward ex_grad_output c' = (Raise ValueError, c').
Proof.
  destruct (forward ex_input ex_weight_2x3 (Some ex_bias) (PyInt 1) (PyInt 0) ex_ctx)
    as [r c'] eqn:Hf.
  assert (Hr : r = Raise AssertionError) by (apply (f_equal fst) in Hf; exact (eq_sym Hf)).
  subst r. exists c'. split; [reflexivity|].
  destruct (@forward_failure_saves_nothing _ _ _ _ _ _ _ _ Hf) as (_ & Hs & Hb).
  split; [exact Hs|]. apply Hb. reflexivity.
Defined.

(** X9.  With [bias=None], [forward] returns for no input, weight, stride
    and padding at all, and saves nothing; so a [CustomConv2d] layer whose
    bias is [None] (built with [bias=False]) cannot be applied to any input.
    When the arguments satisfy every precondition of the operator, the
    exception is the [AttributeError] of [bias.view]. *)
Theorem forward_without_bias_never_returns :
  (forall (x w : tensor) (stride padding : pyval) (c : Ctx),
      is_ok (fst (forward x w None stride padding c)) = false
      /\ saved_tensors (snd (forward x w None stride padding c)) = saved_tensors c)
  /\ (forall (layer : CustomConv2d) (input : tensor) (c : Ctx),
        layer_bias layer = None ->
        is_ok (fst (CustomConv2d_forward layer input c)) = false)
  /\ (forall (x w : tensor) (N Ci H W Co K p s : nat) (c : Ctx),
        shape x = [N; Ci; H; W] -> shape w = [Co; Ci; K; K] ->
        (0 < N /\ 0 < Ci /\ 0 < H /\ 0 < W)%nat -> (0 < Co)%nat -> (0 < K)%nat ->
        (0 < s)%nat -> (K <= H + 2 * p)%nat -> (K <= W + 2 * p)%nat ->
        fst (forward x w None (PyInt (Z.of_nat s)) (PyInt (Z.of_nat p)) c)
        = Raise AttributeError).
Proof.
  assert (H0 : forall x w stride padding c,
             is_ok (fst (forward x w None stride padding c)) = false
             /\ saved_tensors (snd (forward x w None stride padding c))
                = saved_tensors c).
  { intros x w stride padding c.
    destruct (forward x w None stride padding c) as [r c'] eqn:Hf.
    destruct (forward_inv _ _ _ _ _ _ Hf) as [_ Hi].
    destruct r as [out|e]; cbn [fst snd is_ok].
    - destruct Hi as (? & ? & ? & ? & ? & Hb & _). discriminate.
    - split; [reflexivity|apply Hi]. }
  split; [exact H0|]. split.
  - intros layer input c Hb. unfold CustomConv2d_forward. rewrite Hb. apply H0.
  - intros x w N Ci H W Co K p s c Hx Hw Hne HCo HK Hs HKH HKW.
    now rewrite (@forward_without_bias x w N Ci H W Co K p s Hx Hw Hne HCo HK Hs HKH HKW c).
Qed.

Lemma forward_without_bias_never_returns_witness :
  is_ok (fst (CustomConv2d_forward ex_layer_no_bias ex_input_4x4 ex_ctx)) = false
  /\ fst (forward ex_input_4x4 ex_weight None (PyInt 1) (PyInt 0) ex_ctx)
     = Raise AttributeError.
Proof.
  destruct forward_without_bias_never_returns as (_ & H2 & H3).
  split.
  - apply H2. reflexivity.
  - exact (H3 ex_input_4x4 ex_weight 1 1 4 4 2 2 0 1 ex_ctx eq_refl eq_refl
             ltac:(lia) ltac:(lia) ltac:(lia) ltac:(lia) ltac:(lia) ltac:(lia))%nat.
Defined.

(* ================================================================== *)
(** * Further properties of the attack and of the saliency map *)
(* ================================================================== *)

Section StepBudget.

Variables (self : PGDAttack) (net : network).

Lemma length_vjp m x g : wf x -> length (data (vjp net m x g)) = length (data x).
Proof.
intros Hx. pose proof (@vjp_wf net m x g Hx) as Hg.
unfold wf in *. now rewrite Hg, vjp_shape.
Qed.

(** One iteration moves every entry by at most [|step_size|]. *)
Lemma pgd_spec_step_entry m x k :
wf x -> (k < numel (shape x))%nat ->
Z.abs (nth k (data (pgd_spec_step self net m x)) 0 - nth k (data x) 0)
<= Z.abs (step_size self).
Proof.
intros Hx Hk. unfold pgd_spec_step.
rewrite nth_ewise2; [|now rewrite length_vjp|unfold wf in Hx; lia].
match goal with
| |- context [Z.sgn ?g] => destruct (Z.sgn_spec g) as [[_ ->]|[[_ ->]|[_ ->]]]; lia
end.
Qed.

(** [n] iterations move every entry by at most [n * |step_size|]. *)
Lemma iter_spec_step_entry m n x k :
wf x -> (k < numel (shape x))%nat ->
Z.abs (nth k (data (Nat.iter n (pgd_spec_step self net m) x)) 0 - nth k (data x) 0)
<= Z.of_nat n * Z.abs (step_size self).
Proof.
intros Hx Hk. induction n as [|n IH].
- cbn [Nat.iter nat_rect]. rewrite Z.sub_diag. cbn. lia.
- rewrite Nat.iter_succ.
  destruct (iter_spec_step_wf self net m n Hx) as [Hw Hs].
  pose proof (@pgd_spec_step_entry m (Nat.iter n (pgd_spec_step self net m) x) k Hw
                ltac:(now rewrite Hs)).
  lia.
Qed.

Lemma tget_nth (t : tensor) idx :
tget t idx = nth (offset (shape t) idx) (data t) 0.
Proof. reflexivity. Qed.

(** Without a clip that bites, the sample is the last iterate. *)
Lemma pgd_spec_unclipped m x :
wf x ->
Z.of_nat (Z.to_nat (num_steps self)) * Z.abs (step_size self) <= epsilon self ->
pgd_spec self net m x = Nat.iter (Z.to_nat (num_steps self)) (pgd_spec_step self net m) x.
Proof.
intros Hx Hb.
destruct (iter_spec_step_wf self net m (Z.to_nat (num_steps self)) Hx) as [Hw Hs].
apply tensor_ext.
- cbn [pgd_spec ewise2 shape]. now rewrite Hs.
- unfold pgd_spec. apply wf_ewise2; [assumption|]. unfold wf in *. congruence.
- assumption.
- intros k Hk. cbn [pgd_spec ewise2 shape] in Hk.
  unfold pgd_spec. rewrite nth_ewise2; [|unfold wf in *; congruence|unfold wf in Hx; lia].
  pose proof (@iter_spec_step_entry m (Z.to_nat (num_steps self)) x k Hx Hk).
  unfold clamp. lia.
Qed.

End StepBudget.

(** X10.  The steps of [perturb] have a budget of their own: a call that
    returns (with [epsilon >= 0]) has moved no entry of the input by more
    than [max(0, num_steps) * |step_size|], whatever the model and the loss.
    When that product is at most [epsilon] the clip after the loop changes
    nothing, and the sample returned is the last iterate of the loop. *)
Theorem perturb_step_budget (self : PGDAttack) (net : network) (h h' : heap) (out : tobj) :
  wf (val (input h)) -> 0 <= epsilon self ->
  perturb self net h = (Ok out, h') ->
  let budget := Z.max 0 (num_steps self) * Z.abs (step_size self) in
  (forall idx, in_range idx (shape (val (input h))) ->
     Z.abs (tget (val out) idx - tget (val (input h)) idx) <= budget)
  /\ (budget <= epsilon self ->
      val out = Nat.iter (Z.to_nat (num_steps self))
                  (pgd_spec_step self net (training (model h))) (val (input h))).
Proof.
intros Hwf He Hp budget.
assert (Hn : Z.of_nat (Z.to_nat (num_steps self)) = Z.max 0 (num_steps self)) by lia.
destruct (perturb_inv self net h Hwf Hp) as [Hv _].
split.
- intros idx Hi. rewrite Hv, pgd_spec_entry by assumption.
  rewrite !tget_nth.
  destruct (iter_spec_step_wf self net (training (model h))
              (Z.to_nat (num_steps self)) Hwf) as [_ Hs].
  rewrite Hs.
  pose proof (@iter_spec_step_entry self net (training (model h))
                (Z.to_nat (num_steps self)) (val (input h))
                (offset (shape (val (input h))) idx) Hwf (offset_lt Hi)) as Hb.
  rewrite Hn in Hb. fold budget in Hb.
  unfold clamp. lia.
- intros Hb. rewrite Hv. apply pgd_spec_unclipped; [assumption|].
  rewrite Hn. exact Hb.
Qed.

Lemma perturb_step_budget_witness :
  exists out h',
    perturb ex_attack_wide ex_net ex_heap = (Ok out, h')
    /\ (forall idx, in_range idx (shape (val (input ex_heap))) ->
          Z.abs (tget (val out) idx - tget (val (input ex_heap)) idx) <= 3)
    /\ val out = Nat.iter 3 (pgd_spec_step ex_attack_wide ex_net true) ex_image_data.
Proof.
assert (Hp : exists out h', perturb ex_attack_wide ex_net ex_heap = (Ok out, h')).
{ rewrite perturb_nograd by reflexivity. eauto. }
destruct Hp as (out & h' & Hp).
exists out, h'. split; [exact Hp|].
destruct (@perturb_step_budget ex_attack_wide ex_net ex_heap h' out eq_refl
            ltac:(cbn; lia) Hp) as [Hb Hu].
split; [exact Hb|]. apply Hu. cbn. lia.
Defined.

(** X11.  With a negative [epsilon] the bounds of the clip are in the wrong
    order, [torch.clamp] returns its upper bound everywhere, and a call of
    [perturb] that returns has added [epsilon] to every entry of the input,
    whatever the model, the loss and the steps. *)
Theorem perturb_negative_epsilon
    (self : PGDAttack) (net : network) (h h' : heap) (out : tobj) :
  wf (val (input h)) -> epsilon self < 0 ->
  perturb self net h = (Ok out, h') ->
  shape (val out) = shape (val (input h))
  /\ forall idx, in_range idx (shape (val (input h))) ->
       tget (val out) idx = tget (val (input h)) idx + epsilon self.
Proof.
intros Hwf He Hp.
destruct (perturb_inv self net h Hwf Hp) as [Hv _].
split; [now rewrite Hv|].
intros idx Hi. rewrite Hv, pgd_spec_entry by assumption.
unfold clamp. lia.
Qed.

Lemma perturb_negative_epsilon_witness :
  exists out h',
    perturb ex_attack_neg ex_net ex_heap = (Ok out, h')
    /\ forall idx, in_range idx (shape (val (input ex_heap))) ->
         tget (val out) idx = tget (val (input ex_heap)) idx + -2.
Proof.
assert (Hp : exists out h', perturb ex_attack_neg ex_net ex_heap = (Ok out, h')).
{ rewrite perturb_nograd by reflexivity. eauto. }
destruct Hp as (out & h' & Hp).
exists out, h'. split; [exact Hp|].
exact (proj2 (@perturb_negative_epsilon ex_attack_neg ex_net ex_heap h' out eq_refl
                ltac:(cbn; lia) Hp)).
Defined.

(** X12.  [perturb] on an input that tracks gradients.  On a tensor that
    is not a leaf, [input.requires_grad = False] raises [RuntimeError] and
    nothing has changed.  On a leaf that requires gradients, with at least
    one step, the copy made on line 641 is not a leaf and the first
    [output.requires_grad = True] raises [RuntimeError]: the model has not
    been called, but the flag of the caller's input is already cleared, so
    that the same call made again succeeds. *)
Theorem perturb_grad_tracking_input (self : PGDAttack) (net : network) (h : heap) :
  (gst (input h) = NonLeaf -> perturb self net h = (Raise RuntimeError, h))
  /\ (gst (input h) = LeafGrad -> 0 < num_steps self -> wf (val (input h)) ->
      exists h',
        perturb self net h = (Raise RuntimeError, h')
        /\ model h' = model h
        /\ val (input h') = val (input h) /\ grad (input h') = grad (input h)
        /\ requires_grad (input h') = false
        /\ exists out h'',
             perturb self net h' = (Ok out, h'')
             /\ val out = pgd_spec self net (training (model h)) (val (input h))
             /\ queries (model h'')
                = queries (model h)
                  ++ repeat (training (model h)) (Z.to_nat (num_steps self))).
Proof.
split.
- apply perturb_nonleaf.
- intros Hg Hn Hwf.
  rewrite perturb_leafgrad_steps by (try assumption; lia).
  eexists. split; [reflexivity|]. cbn [model input no_grad val grad].
  repeat (split; [reflexivity|]).
  rewrite perturb_nograd by (cbn [input no_grad gst val]; auto).
  do 2 eexists. split; [reflexivity|]. split; reflexivity.
Qed.

Lemma perturb_grad_tracking_input_witness :
  perturb ex_attack ex_net ex_heap_nonleaf = (Raise RuntimeError, ex_heap_nonleaf)
  /\ exists h',
       perturb ex_attack ex_net ex_heap_grad = (Raise RuntimeError, h')
       /\ requires_grad (input h') = false
       /\ exists out h'', perturb ex_attack ex_net h' = (Ok out, h'').
Proof.
split.
- exact (proj1 (perturb_grad_tracking_input ex_attack ex_net ex_heap_nonleaf) eq_refl).
- destruct (proj2 (perturb_grad_tracking_input ex_attack ex_net ex_heap_grad)
              eq_refl ltac:(cbn; lia) eq_refl)
    as (h' & Hp & _ & _ & _ & Hr & out & h'' & Hp' & _).
  exists h'. split; [exact Hp|]. split; [exact Hr|]. eauto.
Defined.

(** X13.  [explain] and [perturb] on one input tensor do not commute.
    After a call of [explain] the input requires gradients, and [perturb]
    (with at least one step) raises [RuntimeError] without calling the
    model.  After a call of [perturb] on an input without gradients,
    [explain] returns its saliency map. *)
Theorem explain_then_perturb
    (l : lossfn) (self : PGDAttack) (net : network) (h : heap) (N C H W : nat) :
  shape (val (input h)) = [N; C; H; W] -> (0 < C)%nat ->
  gst (input h) <> NonLeaf -> wf (val (input h)) -> grad_ok (input h) ->
  0 < num_steps self ->
  (exists sal h1 h2,
     explain l net h = (Ok sal, h1)
     /\ perturb self net h1 = (Raise RuntimeError, h2)
     /\ queries (model h2) = queries (model h1))
  /\ (gst (input h) = NoGrad ->
      exists adv h1 sal h2,
        perturb self net h = (Ok adv, h1)
        /\ explain l net h1 = (Ok sal, h2)
        /\ shape sal = [N; 1%nat; H; W]).
Proof.
intros Hs HC Hl Hwf Hgo Hn. split.
- destruct (@explain_ok l net h N C H W Hl Hs HC Hwf Hgo) as (sal & He & _).
  do 3 eexists. split; [exact He|].
  rewrite perturb_leafgrad_steps by (cbn [queried input gst]; auto; lia).
  split; reflexivity.
- intros Hg. rewrite perturb_nograd by assumption.
  set (h1 := queried _ _).
  assert (Hl1 : gst (input h1) <> NonLeaf) by discriminate.
  assert (Hgo1 : grad_ok (input h1)) by exact Hgo.
  destruct (@explain_ok l net h1 N C H W Hl1 Hs HC Hwf Hgo1) as (sal & He & Hss & _).
  do 4 eexists. split; [reflexivity|]. split; [exact He|exact Hss].
Qed.

Lemma explain_then_perturb_witness :
  (exists sal h1 h2,
     explain ex_loss ex_net ex_heap = (Ok sal, h1)
     /\ perturb ex_attack ex_net h1 = (Raise RuntimeError, h2)
     /\ queries (model h2) = queries (model h1))
  /\ exists adv h1 sal h2,
       perturb ex_attack ex_net ex_heap = (Ok adv, h1)
       /\ explain ex_loss ex_net h1 = (Ok sal, h2)
       /\ shape sal = [1; 1; 2; 2]%nat.
Proof.
destruct (@explain_then_perturb ex_loss ex_attack ex_net ex_heap 1 2 2 2 eq_refl
            ltac:(lia) ltac:(discriminate) eq_refl I ltac:(cbn; lia)) as [H1 H2].
split; [exact H1|exact (H2 eq_refl)].
Defined.

(** X14.  [SimpleNet.forward] in its two modes.  In inference mode the
    network is evaluated once, on the input, which is left alone.  In
    training mode (on an input without gradients) it is evaluated
    [num_steps] times in inference mode by the attack and then once in
    training mode, on the adversarial sample only: the predictions returned
    are those for the sample, and the flag is [True] again on return. *)
Theorem SimpleNet_forward_modes (pgd : PGDAttack) (net : network) (h : heap) :
  (training (model h) = false ->
   SimpleNet_forward pgd net h
   = (Ok (fwd net false (val (input h))),
      mkHeap (input h) (mkM false (queries (model h) ++ [false]))))
  /\ (training (model h) = true -> gst (input h) = NoGrad -> wf (val (input h)) ->
      SimpleNet_forward pgd net h
      = (Ok (fwd net true (pgd_spec pgd net false (val (input h)))),
         mkHeap (input h)
           (mkM true (queries (model h)
                      ++ repeat false (Z.to_nat (num_steps pgd)) ++ [true])))).
Proof.
split.
- intros Ht. unfold SimpleNet_forward, bind at 1.
  unfold SimpleNet_forward_attack, bind at 1, get_training. rewrite Ht.
  unfold get_input, bind, call_model. cbn [model training input]. rewrite Ht.
  reflexivity.
- intros Ht Hg Hwf. unfold SimpleNet_forward, bind at 1.
  rewrite SimpleNet_forward_attack_ok by assumption.
  unfold bind, call_model. cbn [model training input queries val ret].
  rewrite <- app_assoc.
  assert (Hi : no_grad (input h) = input h).
  { unfold no_grad. destruct (input h) as [v g gr]. cbn in *. now subst. }
  now rewrite Hi.
Qed.

Lemma SimpleNet_forward_modes_witness :
  SimpleNet_forward ex_attack ex_net (mkHeap ex_image (mkM false []))
  = (Ok (fwd ex_net false ex_image_data), mkHeap ex_image (mkM false [false]))
  /\ SimpleNet_forward ex_attack ex_net ex_heap
     = (Ok (fwd ex_net true (pgd_spec ex_attack ex_net false ex_image_data)),
        mkHeap ex_image (mkM true [false; false; false; true])).
Proof.
destruct (SimpleNet_forward_modes ex_attack ex_net (mkHeap ex_image (mkM false [])))
  as [H1 _].
destruct (SimpleNet_forward_modes ex_attack ex_net ex_heap) as [_ H2].
split; [exact (H1 eq_refl)|exact (H2 eq_refl eq_refl eq_refl)].
Defined.

(** X15.  [SimpleNet.forward] is not exception-safe: when the attack
    raises (an input that is not a leaf, or, with at least one step, a leaf
    that requires gradients), the exception leaves [forward] between
    [self.training = False] and [self.training = True], and the model that
    was in training mode stays in inference mode. *)
Theorem SimpleNet_forward_leaves_eval_mode (pgd : PGDAttack) (net : network) (h : heap) :
  training (model h) = true ->
  gst (input h) = NonLeaf \/ (gst (input h) = LeafGrad /\ 0 < num_steps pgd) ->
  exists h',
    SimpleNet_forward pgd net h = (Raise RuntimeError, h')
    /\ training (model h') = false
    /\ queries (model h') = queries (model h).
Proof.
intros Ht Hc. unfold SimpleNet_forward, bind at 1.
unfold SimpleNet_forward_attack, bind at 1, get_training. rewrite Ht.
unfold bind at 1, set_training. unfold bind at 1.
destruct Hc as [Hg|[Hg Hn]].
- rewrite perturb_nonleaf by (cbn [input]; assumption).
  eexists. split; [reflexivity|]. split; reflexivity.
- rewrite perturb_leafgrad_steps by (cbn [input]; try assumption; lia).
  eexists. split; [reflexivity|]. split; reflexivity.
Qed.

Lemma SimpleNet_forward_leaves_eval_mode_witness :
  exists h',
    SimpleNet_forward ex_attack ex_net ex_heap_nonleaf = (Raise RuntimeError, h')
    /\ training (model ex_heap_nonleaf) = true
    /\ training (model h') = false.
Proof.
destruct (@SimpleNet_forward_leaves_eval_mode ex_attack ex_net ex_heap_nonleaf eq_refl
            (or_introl eq_refl)) as (h' & Hf & Ht & _).
exists h'. split; [exact Hf|]. split; [reflexivity|exact Ht].
Defined.

(** X16.  Failures of [explain].  On an input that is not a leaf,
    [input.requires_grad = True] raises [RuntimeError] and nothing has
    changed.  On a leaf of rank less than 4 (whose axis 1, if it has one, is
    not empty) the call fails with [IndexError] in its last statement, in
    [torch.max( . , 1)] or in [input.size(2)] or [input.size(3)], after its
    side effects: the model has been called, and the input requires
    gradients and holds the gradient of the call. *)
Theorem explain_errors (l : lossfn) (net : network) (h : heap) :
  (gst (input h) = NonLeaf -> explain l net h = (Raise RuntimeError, h))
  /\ (gst (input h) <> NonLeaf -> wf (val (input h)) -> grad_ok (input h) ->
      (length (shape (val (input h))) < 4)%nat ->
      nth 1 (shape (val (input h))) 1%nat <> 0%nat ->
      explain l net h
      = (Raise IndexError,
         mkHeap (mkObj (val (input h)) LeafGrad
                   (Some (saliency_grad l net (training (model h)) (val (input h)))))
           (mkM (training (model h)) (queries (model h) ++ [training (model h)])))).
Proof.
split.
- intros Hg. unfold explain, bind, get_input, lift, set_requires_grad.
  now rewrite Hg.
- intros Hl Hwf Hgo Hr HC.
  set (G := saliency_grad l net (training (model h)) (val (input h))).
  assert (HGs : shape G = shape (val (input h)))
    by (unfold G, saliency_grad; now rewrite vjp_shape).
  assert (HGw : wf G) by (unfold G, saliency_grad; now apply vjp_wf).
  unfold explain, bind at 1 2 3 4 5. unfold get_input at 1, lift at 1.
  assert (Hset : set_requires_grad (input h) true
                 = Ok (mkObj (val (input h)) LeafGrad (grad (input h)))).
  { unfold set_requires_grad. destruct (gst (input h)) eqn:E; try reflexivity.
    now elim Hl. }
  rewrite Hset. unfold put_input, get_input. cbn [input model].
  unfold bind, call_model, lift. cbn [input model val].
  rewrite argmax_dim1_ok.
  fold (saliency_grad l net (training (model h)) (val (input h))). fold G.
  assert (Hacc : loss_backward net l (training (model h))
                   (zero_grad (mkObj (val (input h)) LeafGrad (grad (input h))))
                   (fwd net (training (model h)) (val (input h)))
                   (most_confident (fwd net (training (model h)) (val (input h))))
                 = Ok (mkObj (val (input h)) LeafGrad (Some G))).
  { unfold loss_backward, zero_grad, grad_ok in *. cbn [grad val gst].
    destruct (grad (input h)) as [old|] eqn:Eg; cbn [requires_grad gst grad val].
    - destruct Hgo as [Hos How].
      fold (saliency_grad l net (training (model h)) (val (input h))). fold G.
      rewrite accumulate_zeroed by congruence. reflexivity.
    - reflexivity. }
  assert (Htail :
            (mx <- max_dim1 (tmap Z.abs G) ;;
             n <- size (val (input h)) 0 ;;
             hh <- size (val (input h)) 2 ;;
             w <- size (val (input h)) 3 ;;
             view mx [n; 1; hh; w])%result = Raise IndexError).
  { unfold max_dim1, reduce_dim1, size. rewrite shape_tmap, HGs.
    destruct (shape (val (input h))) as [|d0 [|d1 [|d2 [|d3 sh]]]];
      cbn [length] in Hr; try lia; cbn [nth] in HC; try reflexivity.
    - destruct (Nat.eqb_spec d1 0); [contradiction|reflexivity].
    - destruct (Nat.eqb_spec d1 0); [contradiction|reflexivity]. }
  unfold zero_grad in *. cbn [grad val gst] in *.
  destruct (grad (input h)) as [old|]; cbn [val] in *; rewrite Hacc;
    cbn [get_grad grad val];
    (destruct (max_dim1 (tmap Z.abs G)) as [mx|e]; cbn [rbind] in Htail |- *;
     [|injection Htail as ->; reflexivity]);
    (destruct (size (val (input h)) 0) as [n|e]; cbn [rbind] in Htail |- *;
     [|injection Htail as ->; reflexivity]);
    (destruct (size (val (input h)) 2) as [hh|e]; cbn [rbind] in Htail |- *;
     [|injection Htail as ->; reflexivity]);
    (destruct (size (val (input h)) 3) as [w|e]; cbn [rbind] in Htail |- *;
     [|injection Htail as ->; reflexivity]);
    rewrite Htail; reflexivity.
Qed.

Lemma explain_errors_witness :
  explain ex_loss ex_net ex_heap_nonleaf = (Raise RuntimeError, ex_heap_nonleaf)
  /\ exists h',
       explain ex_loss ex_net ex_heap_rank3 = (Raise IndexError, h')
       /\ requires_grad (input h') = true /\ grad (input h') <> None
       /\ queries (model h') = [true].
Proof.
split.
- exact (proj1 (explain_errors ex_loss ex_net ex_heap_nonleaf) eq_refl).
- eexists. split.
  + exact (proj2 (explain_errors ex_loss ex_net ex_heap_rank3)
             ltac:(discriminate) eq_refl I ltac:(cbn; lia) ltac:(cbn; lia)).
  + cbn [input model requires_grad gst grad queries]. repeat split. discriminate.
Defined.

From Stdlib Require Import ZifyNat.

(* ================================================================== *)
(** * Properties of the networks of Part II *)
(* ================================================================== *)

(** Linear arithmetic with division by constants. *)
Ltac dlia := zify; Z.div_mod_to_equations; lia.

Section LayerShapes.

Open Scope nat_scope.

Lemma Conv2d_shape inp out k s p d g tr N C H W :
C = inp -> 0 < s -> d * (k - 1) + 1 <= H + 2 * p -> d * (k - 1) + 1 <= W + 2 * p ->
Conv2d inp out k s p d g tr [N; C; H; W]
= Ok [N; out; (H + 2 * p - (d * (k - 1) + 1)) / s + 1;
      (W + 2 * p - (d * (k - 1) + 1)) / s + 1].
Proof.
intros -> Hs HH HW. unfold Conv2d. rewrite Nat.eqb_refl. cbn [negb].
destruct (Nat.eqb_spec s 0); [lia|].
destruct (Nat.ltb_spec (H + 2 * p) (d * (k - 1) + 1)); [lia|].
destruct (Nat.ltb_spec (W + 2 * p) (d * (k - 1) + 1)); [lia|].
reflexivity.
Qed.

Lemma Conv2d_channels inp out k s p d g tr N C H W :
C <> inp -> Conv2d inp out k s p d g tr [N; C; H; W] = Raise RuntimeError.
Proof.
intros Hc. unfold Conv2d. destruct (Nat.eqb_spec C inp); [contradiction|reflexivity].
Qed.

Lemma MaxPool2d_shape k s p tr N C H W :
p <= k / 2 -> 0 < s -> k <= H + 2 * p -> k <= W + 2 * p ->
MaxPool2d k s p tr [N; C; H; W]
= Ok [N; C; (H + 2 * p - k) / s + 1; (W + 2 * p - k) / s + 1].
Proof.
intros Hp Hs HH HW. unfold MaxPool2d.
destruct (Nat.ltb_spec (k / 2) p); [lia|].
destruct (Nat.eqb_spec s 0); [lia|].
destruct (Nat.ltb_spec (H + 2 * p) k); [lia|].
destruct (Nat.ltb_spec (W + 2 * p) k); [lia|].
reflexivity.
Qed.

Lemma BatchNorm2d_shape c tr N C H W :
C = c -> tr = false \/ N * (H * W) <> 1 ->
BatchNorm2d c tr [N; C; H; W] = Ok [N; C; H; W].
Proof.
intros -> Hm. unfold BatchNorm2d. rewrite Nat.eqb_refl. cbn [negb].
destruct Hm as [->|Hm]; [reflexivity|].
destruct (Nat.eqb_spec (N * (H * W)) 1); [contradiction|].
now rewrite andb_false_r.
Qed.

Lemma BatchNorm2d_single c N C H W :
N * (H * W) = 1 -> BatchNorm2d c true [N; C; H; W] = Raise ValueError.
Proof. intros E. unfold BatchNorm2d. now rewrite E. Qed.

Lemma AvgPool2d_shape k tr N C H W :
0 < k -> k <= H -> k <= W ->
AvgPool2d k tr [N; C; H; W] = Ok [N; C; (H - k) / k + 1; (W - k) / k + 1].
Proof.
intros Hk HH HW. unfold AvgPool2d.
destruct (Nat.eqb_spec k 0); [lia|].
destruct (Nat.ltb_spec H k); [lia|].
destruct (Nat.ltb_spec W k); [lia|].
reflexivity.
Qed.

Lemma AvgPool2d_small k tr N C H W :
H < k \/ W < k -> AvgPool2d k tr [N; C; H; W] = Raise RuntimeError.
Proof.
intros Hs. unfold AvgPool2d.
destruct (Nat.eqb_spec k 0); [reflexivity|].
destruct (Nat.ltb_spec H k); [reflexivity|].
destruct (Nat.ltb_spec W k); [reflexivity|lia].
Qed.

Lemma AdaptiveAvgPool2d_shape tr N C H W :
0 < H -> 0 < W -> AdaptiveAvgPool2d_1_1 tr [N; C; H; W] = Ok [N; C; 1; 1].
Proof.
intros HH HW. unfold AdaptiveAvgPool2d_1_1.
destruct (Nat.eqb_spec H 0); [lia|]. destruct (Nat.eqb_spec W 0); [lia|].
reflexivity.
Qed.

Lemma view_flat_shape N C H W :
0 < N -> view_flat [N; C; H; W] = Ok [N; C * (H * W)].
Proof.
intros HN. unfold view_flat, size. cbn [shape nth_error rbind].
pose proof (@view_infer (mkT [N; C; H; W] []) [Z.of_nat N] []) as Hv.
cbn [app] in Hv. rewrite Hv; clear Hv.
- cbn [rbind shape map app]. unfold zprod. cbn [fold_right numel shape].
  rewrite Nat2Z.id, Z.mul_1_r, Z.mul_1_r.
  replace (Z.of_nat (N * (C * (H * (W * 1))))) with (Z.of_nat (C * (H * W)) * Z.of_nat N)%Z
    by nia.
  rewrite Z.div_mul by lia. now rewrite Nat2Z.id.
- repeat constructor. lia.
- constructor.
- unfold zprod. cbn [fold_right]. lia.
- unfold zprod. cbn [fold_right numel shape].
  replace (Z.of_nat (N * (C * (H * (W * 1))))) with (Z.of_nat (C * (H * W)) * Z.of_nat N)%Z
    by nia.
  rewrite Z.mul_1_r, Z.mul_1_r. apply Z.mod_mul. lia.
Qed.

Lemma Linear_shape i o tr N F :
F = i -> Linear i o tr [N; F] = Ok [N; o].
Proof. intros ->. unfold Linear. now rewrite Nat.eqb_refl. Qed.

Lemma Linear_mismatch i o tr N F :
F <> i -> Linear i o tr [N; F] = Raise RuntimeError.
Proof. intros Hf. unfold Linear. destruct (Nat.eqb_spec F i); [contradiction|reflexivity]. Qed.

(** A convolution of stride 1 whose padding makes up for the kernel keeps
    the size; at stride 2 it halves it. *)
Lemma Conv2d_s1 inp out k p d g tr N C H W :
C = inp -> 2 * p = d * (k - 1) -> 1 <= H -> 1 <= W ->
Conv2d inp out k 1 p d g tr [N; C; H; W] = Ok [N; out; H; W].
Proof.
intros Hc Hp HH HW. rewrite Conv2d_shape by (try assumption; lia).
rewrite <- Hp, !Nat.div_1_r.
replace (H + 2 * p - (2 * p + 1) + 1) with H by lia.
replace (W + 2 * p - (2 * p + 1) + 1) with W by lia.
reflexivity.
Qed.

Lemma Conv2d_s2 inp out k p d g tr N C H W :
C = inp -> 2 * p = d * (k - 1) -> 1 <= H -> 1 <= W ->
Conv2d inp out k 2 p d g tr [N; C; H; W] = Ok [N; out; half H; half W].
Proof.
intros Hc Hp HH HW. rewrite Conv2d_shape by (try assumption; lia).
rewrite <- Hp. unfold half.
replace ((H + 2 * p - (2 * p + 1)) / 2 + 1) with ((H + 1) / 2) by dlia.
replace ((W + 2 * p - (2 * p + 1)) / 2 + 1) with ((W + 1) / 2) by dlia.
reflexivity.
Qed.

Lemma MaxPool2d_half tr N C H W :
1 <= H -> 1 <= W -> MaxPool2d 3 2 1 tr [N; C; H; W] = Ok [N; C; half H; half W].
Proof.
intros HH HW. rewrite MaxPool2d_shape by (cbn; lia).
unfold half.
replace ((H + 2 * 1 - 3) / 2 + 1) with ((H + 1) / 2) by dlia.
replace ((W + 2 * 1 - 3) / 2 + 1) with ((W + 1) / 2) by dlia.
reflexivity.
Qed.

Lemma half_pos h : 1 <= h -> 1 <= half h.
Proof. unfold half. intros. dlia. Qed.

Lemma half_le h : half h <= h.
Proof. unfold half. dlia. Qed.

Lemma half_lb a h : 2 * a - 1 <= h -> a <= half h.
Proof. unfold half. intros. dlia. Qed.

Lemma half_ub a h : h <= 2 * a -> half h <= a.
Proof. unfold half. intros. dlia. Qed.

Lemma bn_batch N h w : 2 <= N -> N * (h * w) <> 1.
Proof. intros HN. destruct (h * w); lia. Qed.

Lemma bn_plane N h w : 1 <= N -> 2 <= h -> 1 <= w -> N * (h * w) <> 1.
Proof. intros. nia. Qed.

Lemma iadd_same sh : iadd sh sh = Ok sh.
Proof.
unfold iadd. rewrite Nat.max_id, pad1_same, bshape_refl.
destruct (list_eq_dec Nat.eq_dec sh sh); [reflexivity|contradiction].
Qed.

End LayerShapes.

(** Sizes that stay positive, and sizes bounded from below. *)
Ltac size_pos := repeat apply half_pos; assumption.
Ltac size_lb := repeat apply half_lb; lia.

(** Side conditions of the layers: an equality of channel counts or of
    constants, or the positivity of a size. *)
Ltac layer_side := first [reflexivity | size_pos | lia].

(** One layer of a stack on a rank-4 shape; [bn] settles the condition of
    a batch normalisation. *)
Ltac layer_step bn :=
  first
    [ rewrite Conv2d_s1 by layer_side
    | rewrite Conv2d_s2 by layer_side
    | rewrite MaxPool2d_half by layer_side
    | rewrite BatchNorm2d_shape by (first [reflexivity | bn])
    | rewrite AdaptiveAvgPool2d_shape by layer_side
    | rewrite iadd_same ];
  cbn [Sequential rbind].

Section SimpleNetShapes.

Open Scope nat_scope.

Lemma SimpleNet_features_shape tr N H W :
1 <= H -> 1 <= W ->
SimpleNet_features nn_Conv2d tr [N; 3; H; W]
= Ok [N; 512; half (half (half (half H))); half (half (half (half W)))].
Proof.
intros HH HW. unfold SimpleNet_features, nn_Conv2d, ReLU. cbn [Sequential rbind].
repeat layer_step fail.
reflexivity.
Qed.

End SimpleNetShapes.

Section ModeMonotone.

Lemma rbind_Ok {A} (r : result A) : rbind r (fun a => Ok a) = r.
Proof. now destruct r. Qed.

Lemma mode_mono_flagless (m : nn_Module) :
(forall sh, m true sh = m false sh) -> mode_mono m.
Proof. intros H sh _. apply H. Qed.

Lemma mode_mono_BatchNorm2d c : mode_mono (BatchNorm2d c).
Proof.
intros sh Hok. unfold BatchNorm2d in *.
destruct sh as [|N [|C [|H [|W [|? ?]]]]]; try reflexivity.
destruct (N * (H * W) =? 1)%nat; cbn [andb] in *; [discriminate|reflexivity].
Qed.

Lemma mode_mono_bind (m k : nn_Module) :
mode_mono m -> mode_mono k ->
mode_mono (fun training sh => rbind (m training sh) (k training)).
Proof.
intros Hm Hk sh Hok.
destruct (m true sh) as [a|e] eqn:E; cbn [rbind] in Hok; [|discriminate].
rewrite <- (Hm sh), E by now rewrite E. cbn [rbind]. now apply Hk.
Qed.

Lemma mode_mono_Sequential (layers : list nn_Module) :
Forall mode_mono layers -> mode_mono (Sequential layers).
Proof.
induction 1 as [|l rest Hl _ IH]; [intros sh _; reflexivity|].
exact (mode_mono_bind Hl IH).
Qed.

Lemma mode_mono_ext (m m' : nn_Module) :
(forall training sh, m training sh = m' training sh) -> mode_mono m' -> mode_mono m.
Proof. intros E Hm sh Hok. rewrite !E in *. now apply Hm. Qed.

End ModeMonotone.

(** Stacks of layers that are monotone in the mode. *)
Ltac mono :=
  repeat first
    [ apply mode_mono_BatchNorm2d
    | apply mode_mono_Sequential
    | apply Forall_cons
    | apply Forall_nil
    | (apply mode_mono_flagless; intros; reflexivity) ].

(* ================================================================== *)
(** * The networks of Part II: main results *)
(* ================================================================== *)

(** X17.  Shapes through [SimpleNet] built on [nn.Conv2d].  For a batch
    [(N, 3, H, W)] with [N, H, W >= 1], in either mode, [self.features]
    returns [(N, 512, ceil(H/16), ceil(W/16))] and lines 223-227 of
    [forward] return [(N, num_classes)]: no input is too small.  With a
    number of channels other than 3 the first convolution raises
    [RuntimeError]. *)
Theorem SimpleNet_shapes (num_classes N C H W : nat) (training : bool) :
  (1 <= N)%nat -> (1 <= H)%nat -> (1 <= W)%nat ->
  (C = 3%nat ->
   SimpleNet_features nn_Conv2d training [N; C; H; W]
   = Ok [N; 512; (H + 15) / 16; (W + 15) / 16]%nat
   /\ SimpleNet_body nn_Conv2d num_classes training [N; C; H; W]
      = Ok [N; num_classes])
  /\ (C <> 3%nat ->
      SimpleNet_body nn_Conv2d num_classes training [N; C; H; W]
      = Raise RuntimeError).
Proof.
  intros HN HH HW. split.
  - intros ->.
    pose proof (@SimpleNet_features_shape training N H W HH HW) as Hf.
    split.
    + rewrite Hf.
      replace (half (half (half (half H)))) with ((H + 15) / 16)%nat by (unfold half; dlia).
      replace (half (half (half (half W)))) with ((W + 15) / 16)%nat by (unfold half; dlia).
      reflexivity.
    + unfold SimpleNet_body. rewrite Hf. cbn [rbind].
      rewrite AdaptiveAvgPool2d_shape by size_pos. cbn [rbind].
      rewrite view_flat_shape by assumption. cbn [rbind].
      apply Linear_shape. lia.
  - intros HC. unfold SimpleNet_body, SimpleNet_features, nn_Conv2d.
    cbn [Sequential rbind]. now rewrite Conv2d_channels.
Qed.

Lemma SimpleNet_shapes_witness :
  SimpleNet_features nn_Conv2d true [8; 3; 128; 128]%nat = Ok [8; 512; 8; 8]%nat
  /\ SimpleNet_body nn_Conv2d 100 true [8; 3; 128; 128]%nat = Ok [8; 100]%nat
  /\ SimpleNet_body nn_Conv2d 100 true [8; 1; 128; 128]%nat = Raise RuntimeError.
Proof.
  destruct (@SimpleNet_shapes 100 8 3 128 128 true ltac:(lia) ltac:(lia) ltac:(lia))
    as [H1 _].
  destruct (@SimpleNet_shapes 100 8 1 128 128 true ltac:(lia) ltac:(lia) ltac:(lia))
    as [_ H2].
  destruct (H1 eq_refl) as [Hf Hb].
  split; [exact Hf|]. split; [exact Hb|]. apply H2. discriminate.
Defined.

Section MobileNetShapes.

Open Scope nat_scope.

(** Five halvings. *)
Let h5 (h : nat) : nat := half (half (half (half (half h)))).

Lemma h5_window H : 1 <= H -> (7 <= h5 H <= 13 <-> 193 <= H <= 416).
Proof. unfold h5, half. intros. dlia. Qed.

Lemma MobileNet_conv_batch_norm_s2 inp out tr N H W :
1 <= H -> 1 <= W -> tr = false \/ N * (half H * half W) <> 1 ->
MobileNet_conv_batch_norm inp out 2 tr [N; inp; H; W] = Ok [N; out; half H; half W].
Proof.
intros HH HW Hbn. unfold MobileNet_conv_batch_norm, ReLU. cbn [Sequential rbind].
repeat layer_step ltac:(exact Hbn). reflexivity.
Qed.

Lemma MobileNet_conv_dw_s1 inp out tr N H W :
1 <= H -> 1 <= W -> tr = false \/ N * (H * W) <> 1 ->
MobileNet_conv_dw inp out 1 tr [N; inp; H; W] = Ok [N; out; H; W].
Proof.
intros HH HW Hbn. unfold MobileNet_conv_dw, ReLU. cbn [Sequential rbind].
repeat layer_step ltac:(exact Hbn). reflexivity.
Qed.

Lemma MobileNet_conv_dw_s2 inp out tr N H W :
1 <= H -> 1 <= W -> tr = false \/ N * (half H * half W) <> 1 ->
MobileNet_conv_dw inp out 2 tr [N; inp; H; W] = Ok [N; out; half H; half W].
Proof.
intros HH HW Hbn. unfold MobileNet_conv_dw, ReLU. cbn [Sequential rbind].
repeat layer_step ltac:(exact Hbn). reflexivity.
Qed.

(** One block of [MobileNet.features]. *)
Ltac block_step bn :=
  first
    [ rewrite MobileNet_conv_batch_norm_s2 by (first [size_pos | bn])
    | rewrite MobileNet_conv_dw_s1 by (first [size_pos | bn])
    | rewrite MobileNet_conv_dw_s2 by (first [size_pos | bn]) ];
  cbn [Sequential rbind].

Lemma MobileNet_features_eval N H W :
1 <= H -> 1 <= W ->
MobileNet_features false [N; 3; H; W] = AvgPool2d 7 false [N; 512; h5 H; h5 W].
Proof.
intros HH HW. unfold MobileNet_features. cbn [Sequential rbind].
repeat block_step ltac:(left; reflexivity).
apply rbind_Ok.
Qed.

Lemma MobileNet_features_train N H W :
1 <= N -> 193 <= H -> 193 <= W ->
MobileNet_features true [N; 3; H; W] = AvgPool2d 7 true [N; 512; h5 H; h5 W].
Proof.
intros HN HH HW.
assert (1 <= H) by lia. assert (1 <= W) by lia.
unfold MobileNet_features. cbn [Sequential rbind].
repeat block_step ltac:(right; apply bn_plane; [assumption | size_lb | size_lb]).
apply rbind_Ok.
Qed.

Lemma MobileNet_forward_mono conv_op num_classes :
mode_mono (MobileNet_forward conv_op num_classes).
Proof.
apply mode_mono_ext
  with (m' := Sequential [MobileNet_features; (fun _ => view_flat); Linear 512 100]).
- intros training sh. unfold MobileNet_forward. cbn [Sequential].
  destruct (MobileNet_features training sh) as [x|e]; cbn [rbind]; [|reflexivity].
  destruct (view_flat x) as [y|e]; cbn [rbind]; [|reflexivity].
  now rewrite rbind_Ok.
- unfold MobileNet_features, MobileNet_conv_dw, MobileNet_conv_batch_norm. mono.
Qed.

Lemma MobileNet_forward_eval conv_op num_classes N H W :
1 <= N -> 1 <= H -> 1 <= W ->
MobileNet_forward conv_op num_classes false [N; 3; H; W]
= if (7 <=? h5 H) && (h5 H <=? 13) && (7 <=? h5 W) && (h5 W <=? 13)
  then Ok [N; 100] else Raise RuntimeError.
Proof.
intros HN HH HW. unfold MobileNet_forward.
rewrite MobileNet_features_eval by assumption.
destruct (Nat.leb_spec 7 (h5 H)) as [Ha|Ha];
  [|cbn [andb]; rewrite AvgPool2d_small by lia; reflexivity].
destruct (Nat.leb_spec 7 (h5 W)) as [Hb|Hb];
  [|rewrite !andb_false_r; cbn [andb]; rewrite AvgPool2d_small by lia; reflexivity].
rewrite AvgPool2d_shape by lia. cbn [rbind].
rewrite view_flat_shape by assumption. cbn [rbind andb].
destruct (Nat.leb_spec (h5 H) 13) as [Hc|Hc]; cbn [andb].
- destruct (Nat.leb_spec (h5 W) 13) as [Hd|Hd]; cbn [andb].
  + apply Linear_shape.
    replace ((h5 H - 7) / 7 + 1) with 1 by dlia.
    replace ((h5 W - 7) / 7 + 1) with 1 by dlia. lia.
  + apply Linear_mismatch.
    assert (1 <= (h5 H - 7) / 7 + 1) by lia.
    assert (2 <= (h5 W - 7) / 7 + 1) by dlia. nia.
- apply Linear_mismatch.
  assert (2 <= (h5 H - 7) / 7 + 1) by dlia.
  assert (1 <= (h5 W - 7) / 7 + 1) by lia. nia.
Qed.

End MobileNetShapes.

(** X18.  [MobileNet.forward] accepts a batch [(N, 3, H, W)] exactly when
    both [H] and [W] lie between 193 and 416, in either mode: below, the
    planes that reach [nn.AvgPool2d(7)] are smaller than its window; above,
    more than 512 features reach [nn.Linear(512, 100)].  When it returns,
    the result has shape [(N, 100)] whatever [num_classes] and [conv_op]
    were given to the constructor. *)
Theorem MobileNet_input_window
    (conv_op : conv_op_t) (num_classes N H W : nat) (training : bool) :
  (1 <= N)%nat -> (1 <= H)%nat -> (1 <= W)%nat ->
  ((193 <= H <= 416)%nat /\ (193 <= W <= 416)%nat ->
   MobileNet_forward conv_op num_classes training [N; 3%nat; H; W] = Ok [N; 100%nat])
  /\ (~ ((193 <= H <= 416)%nat /\ (193 <= W <= 416)%nat) ->
      is_ok (MobileNet_forward conv_op num_classes training [N; 3%nat; H; W]) = false).
Proof.
  intros HN HH HW.
  pose proof (@MobileNet_forward_eval conv_op num_classes N H W HN HH HW) as He.
  pose proof (h5_window HH) as WH. pose proof (h5_window HW) as WW.
  cbv zeta in He, WH, WW.
  set (a := half (half (half (half (half H))))) in *.
  set (b := half (half (half (half (half W))))) in *.
  split.
  - intros [H1 H2].
    assert (Hev : MobileNet_forward conv_op num_classes false [N; 3%nat; H; W]
                  = Ok [N; 100%nat]).
    { rewrite He.
      destruct (Nat.leb_spec 7 a); [|lia]. destruct (Nat.leb_spec a 13); [|lia].
      destruct (Nat.leb_spec 7 b); [|lia]. destruct (Nat.leb_spec b 13); [|lia].
      reflexivity. }
    destruct training; [|exact Hev].
    unfold MobileNet_forward in *.
    rewrite MobileNet_features_train by lia.
    rewrite MobileNet_features_eval in Hev by assumption.
    exact Hev.
  - intros Hout.
    assert (Hev : MobileNet_forward conv_op num_classes false [N; 3%nat; H; W]
                  = Raise RuntimeError).
    { rewrite He.
      destruct (Nat.leb_spec 7 a); [|reflexivity].
      destruct (Nat.leb_spec a 13); [|reflexivity].
      destruct (Nat.leb_spec 7 b); [|reflexivity].
      destruct (Nat.leb_spec b 13); [|reflexivity].
      exfalso. apply Hout. split; [apply WH|apply WW]; lia. }
    destruct training; [|now rewrite Hev].
    destruct (is_ok (MobileNet_forward conv_op num_classes true [N; 3%nat; H; W])) eqn:Eo;
      [|reflexivity].
    pose proof (@MobileNet_forward_mono conv_op num_classes _ Eo) as Em.
    rewrite Em, Hev in Eo. discriminate.
Qed.

Lemma MobileNet_input_window_witness :
  MobileNet_forward nn_Conv2d 10 true [8; 3; 224; 224]%nat = Ok [8; 100]%nat
  /\ is_ok (MobileNet_forward nn_Conv2d 10 true [8; 3; 128; 128]%nat) = false.
Proof.
  destruct (@MobileNet_input_window nn_Conv2d 10 8 224 224 true
              ltac:(lia) ltac:(lia) ltac:(lia)) as [H1 _].
  destruct (@MobileNet_input_window nn_Conv2d 10 8 128 128 true
              ltac:(lia) ltac:(lia) ltac:(lia)) as [_ H2].
  split; [apply H1; lia|apply H2; lia].
Defined.

Section ResidualShapes.

Open Scope nat_scope.

(** The condition of a batch normalisation on planes of size [h x w]. *)
Let bn_ok (tr : bool) (N h w : nat) : Prop := tr = false \/ N * (h * w) <> 1.

Lemma bn_ok_half tr N h w :
1 <= N -> 1 <= h -> 1 <= w -> bn_ok tr N (half h) (half w) -> bn_ok tr N h w.
Proof.
intros HN Hh Hw [->|Hb]; [now left|right].
intros E. apply Hb.
assert (N = 1 /\ h = 1 /\ w = 1) as (-> & -> & ->) by nia.
reflexivity.
Qed.

Lemma bn_ok_cases tr N h w :
1 <= N -> 1 <= h -> 1 <= w -> tr = false \/ 2 <= N \/ 2 <= h \/ 2 <= w ->
bn_ok tr N h w.
Proof.
intros HN Hh Hw [->|Hc]; [now left|right]. nia.
Qed.

Lemma conv_dw_s1 inp out k p d tr N H W :
2 * p = d * (k - 1) -> 1 <= H -> 1 <= W ->
conv_dw inp out k 1 p d tr [N; inp; H; W] = Ok [N; out; H; W].
Proof.
intros Hp HH HW. unfold conv_dw. cbn [Sequential rbind].
rewrite Conv2d_s1 by (first [reflexivity | assumption]). cbn [rbind Sequential].
rewrite Conv2d_s1 by (first [reflexivity | assumption]). reflexivity.
Qed.

Lemma conv_dw_s2 inp out k p d tr N H W :
2 * p = d * (k - 1) -> 1 <= H -> 1 <= W ->
conv_dw inp out k 2 p d tr [N; inp; H; W] = Ok [N; out; half H; half W].
Proof.
intros Hp HH HW. unfold conv_dw. cbn [Sequential rbind].
rewrite Conv2d_s2 by (first [reflexivity | assumption]). cbn [rbind Sequential].
rewrite Conv2d_s1 by (first [reflexivity | now apply half_pos]). reflexivity.
Qed.

Lemma downsample_s1 inp out tr N H W :
1 <= H -> 1 <= W -> bn_ok tr N H W ->
downsample inp out 1 tr [N; inp; H; W] = Ok [N; out; H; W].
Proof.
intros HH HW Hb. unfold downsample, conv1x1. cbn [Sequential rbind].
rewrite conv_dw_s1 by (first [reflexivity | assumption]). cbn [rbind Sequential].
rewrite BatchNorm2d_shape by (first [reflexivity | exact Hb]). reflexivity.
Qed.

Lemma downsample_s2 inp out tr N H W :
1 <= H -> 1 <= W -> bn_ok tr N (half H) (half W) ->
downsample inp out 2 tr [N; inp; H; W] = Ok [N; out; half H; half W].
Proof.
intros HH HW Hb. unfold downsample, conv1x1. cbn [Sequential rbind].
rewrite conv_dw_s2 by (first [reflexivity | assumption]). cbn [rbind Sequential].
rewrite BatchNorm2d_shape by (first [reflexivity | exact Hb]). reflexivity.
Qed.

Lemma BasicBlock_s1 inp outp tr N H W :
1 <= H -> 1 <= W -> bn_ok tr N H W ->
BasicBlock inp outp 1 (Some (downsample inp outp 1)) tr [N; inp; H; W]
= Ok [N; outp; H; W].
Proof.
intros HH HW Hb. unfold BasicBlock, conv3x3, ReLU.
rewrite conv_dw_s1 by (first [reflexivity | assumption]). cbn [rbind].
rewrite BatchNorm2d_shape by (first [reflexivity | exact Hb]). cbn [rbind].
rewrite conv_dw_s1 by (first [reflexivity | assumption]). cbn [rbind].
rewrite BatchNorm2d_shape by (first [reflexivity | exact Hb]). cbn [rbind].
rewrite downsample_s1 by assumption. cbn [rbind].
rewrite iadd_same. reflexivity.
Qed.

Lemma BasicBlock_s2 inp outp tr N H W :
1 <= H -> 1 <= W -> bn_ok tr N (half H) (half W) ->
BasicBlock inp outp 2 (Some (downsample inp outp 2)) tr [N; inp; H; W]
= Ok [N; outp; half H; half W].
Proof.
intros HH HW Hb. unfold BasicBlock, conv3x3, ReLU.
pose proof (half_pos HH). pose proof (half_pos HW).
rewrite conv_dw_s2 by (first [reflexivity | assumption]). cbn [rbind].
rewrite BatchNorm2d_shape by (first [reflexivity | exact Hb]). cbn [rbind].
rewrite conv_dw_s1 by (first [reflexivity | assumption]). cbn [rbind].
rewrite BatchNorm2d_shape by (first [reflexivity | exact Hb]). cbn [rbind].
rewrite downsample_s2 by assumption. cbn [rbind].
rewrite iadd_same. reflexivity.
Qed.

Lemma Bottleneck_s2 inp outp tr N H W :
1 <= N -> 1 <= H -> 1 <= W -> bn_ok tr N (half H) (half W) ->
Bottleneck inp outp 2 (Some (downsample inp inp 2)) tr [N; inp; H; W]
= Ok [N; inp; half H; half W].
Proof.
intros HN HH HW Hb. unfold Bottleneck, conv3x3, conv1x1, ReLU.
pose proof (half_pos HH). pose proof (half_pos HW).
pose proof (bn_ok_half HN HH HW Hb) as Hb0.
rewrite conv_dw_s1 by (first [reflexivity | assumption]). cbn [rbind].
rewrite BatchNorm2d_shape by (first [reflexivity | exact Hb0]). cbn [rbind].
rewrite conv_dw_s2 by (first [reflexivity | assumption]). cbn [rbind].
rewrite BatchNorm2d_shape by (first [reflexivity | exact Hb]). cbn [rbind].
rewrite conv_dw_s1 by (first [reflexivity | assumption]). cbn [rbind].
rewrite BatchNorm2d_shape by (first [reflexivity | exact Hb]). cbn [rbind].
fold (conv1x1 inp inp 2). fold (downsample inp inp 2).
rewrite downsample_s2 by assumption. cbn [rbind].
rewrite iadd_same. reflexivity.
Qed.

Lemma LessSimpleNetBN2D_ConvDW_features_shape tr N H W :
1 <= N -> 1 <= H -> 1 <= W ->
tr = false \/ 2 <= N \/ 65 <= H \/ 65 <= W ->
LessSimpleNetBN2D_ConvDW_features tr [N; 3; H; W]
= Ok [N; 512; half (half (half (half (half (half H)))));
      half (half (half (half (half (half W)))))].
Proof.
intros HN HH HW Hm.
assert (Hb6 : bn_ok tr N (half (half (half (half (half (half H))))))
                         (half (half (half (half (half (half W))))))).
{ apply bn_ok_cases; try size_pos.
  destruct Hm as [Hm|[Hm|[Hm|Hm]]]; [now left|right; now left| |].
  - right; right; left. size_lb.
  - right; right; right. size_lb. }
assert (Hb5 : bn_ok tr N (half (half (half (half (half H))))) (half (half (half (half (half W))))))
  by (apply bn_ok_half; [assumption|size_pos|size_pos|exact Hb6]).
assert (Hb4 : bn_ok tr N (half (half (half (half H)))) (half (half (half (half W)))))
  by (apply bn_ok_half; [assumption|size_pos|size_pos|exact Hb5]).
assert (Hb3 : bn_ok tr N (half (half (half H))) (half (half (half W))))
  by (apply bn_ok_half; [assumption|size_pos|size_pos|exact Hb4]).
assert (Hb2 : bn_ok tr N (half (half H)) (half (half W)))
  by (apply bn_ok_half; [assumption|size_pos|size_pos|exact Hb3]).
assert (Hb1 : bn_ok tr N (half H) (half W))
  by (apply bn_ok_half; [assumption|size_pos|size_pos|exact Hb2]).
assert (Hb0 : bn_ok tr N H W)
  by (apply bn_ok_half; [assumption|size_pos|size_pos|exact Hb1]).
unfold LessSimpleNetBN2D_ConvDW_features, ReLU. cbn [Sequential rbind].
rewrite BatchNorm2d_shape by (first [reflexivity | exact Hb0]). cbn [rbind Sequential].
rewrite conv_dw_s2 by (first [reflexivity | assumption]). cbn [rbind Sequential].
rewrite BatchNorm2d_shape by (first [reflexivity | exact Hb1]). cbn [rbind Sequential].
rewrite BasicBlock_s2 by (first [size_pos | exact Hb2]). cbn [rbind Sequential].
rewrite BasicBlock_s1 by (first [size_pos | exact Hb2]). cbn [rbind Sequential].
rewrite MaxPool2d_half by size_pos. cbn [rbind Sequential].
rewrite BatchNorm2d_shape by (first [reflexivity | exact Hb3]). cbn [rbind Sequential].
rewrite Bottleneck_s2 by (first [assumption | size_pos | exact Hb4]).
cbn [rbind Sequential].
rewrite MaxPool2d_half by size_pos. cbn [rbind Sequential].
rewrite BatchNorm2d_shape by (first [reflexivity | exact Hb5]). cbn [rbind Sequential].
rewrite Bottleneck_s2 by (first [assumption | size_pos | exact Hb6]).
reflexivity.
Qed.

Lemma SimpleNetBN2D_ConvDW_conv_dw_s1 inp out k p tr N H W :
2 * p = k - 1 -> 1 <= H -> 1 <= W ->
SimpleNetBN2D_ConvDW_conv_dw inp out k 1 p tr [N; inp; H; W] = Ok [N; out; H; W].
Proof.
intros Hp HH HW. unfold SimpleNetBN2D_ConvDW_conv_dw. cbn [Sequential rbind].
rewrite Conv2d_s1 by (first [reflexivity | assumption | lia]). cbn [rbind Sequential].
rewrite Conv2d_s1 by (first [reflexivity | assumption]). reflexivity.
Qed.

Lemma SimpleNetBN2D_ConvDW_conv_dw_s2 inp out k p tr N H W :
2 * p = k - 1 -> 1 <= H -> 1 <= W ->
SimpleNetBN2D_ConvDW_conv_dw inp out k 2 p tr [N; inp; H; W]
= Ok [N; out; half H; half W].
Proof.
intros Hp HH HW. unfold SimpleNetBN2D_ConvDW_conv_dw. cbn [Sequential rbind].
rewrite Conv2d_s2 by (first [reflexivity | assumption | lia]). cbn [rbind Sequential].
rewrite Conv2d_s1 by (first [reflexivity | now apply half_pos]). reflexivity.
Qed.

Lemma SimpleNetBN2D_ConvDW_features_shape tr N H W :
1 <= N -> 1 <= H -> 1 <= W ->
tr = false \/ 2 <= N \/ 17 <= H \/ 17 <= W ->
SimpleNetBN2D_ConvDW_features tr [N; 3; H; W]
= Ok [N; 512; half (half (half (half H))); half (half (half (half W)))].
Proof.
intros HN HH HW Hm.
assert (Hb4 : bn_ok tr N (half (half (half (half H)))) (half (half (half (half W))))).
{ apply bn_ok_cases; try size_pos.
  destruct Hm as [Hm|[Hm|[Hm|Hm]]]; [now left|right; now left| |].
  - right; right; left. size_lb.
  - right; right; right. size_lb. }
assert (Hb3 : bn_ok tr N (half (half (half H))) (half (half (half W))))
  by (apply bn_ok_half; [assumption|size_pos|size_pos|exact Hb4]).
assert (Hb2 : bn_ok tr N (half (half H)) (half (half W)))
  by (apply bn_ok_half; [assumption|size_pos|size_pos|exact Hb3]).
assert (Hb1 : bn_ok tr N (half H) (half W))
  by (apply bn_ok_half; [assumption|size_pos|size_pos|exact Hb2]).
assert (Hb0 : bn_ok tr N H W)
  by (apply bn_ok_half; [assumption|size_pos|size_pos|exact Hb1]).
unfold SimpleNetBN2D_ConvDW_features, ReLU. cbn [Sequential rbind].
repeat first
  [ rewrite SimpleNetBN2D_ConvDW_conv_dw_s1 by (first [reflexivity | size_pos])
  | rewrite SimpleNetBN2D_ConvDW_conv_dw_s2 by (first [reflexivity | size_pos])
  | rewrite MaxPool2d_half by size_pos
  | rewrite BatchNorm2d_shape
      by (first [reflexivity | exact Hb0 | exact Hb2 | exact Hb3 | exact Hb4])
  | progress cbn [rbind Sequential] ].
reflexivity.
Qed.

End ResidualShapes.

(** X19.  Shapes through [LessSimpleNetBN2D_ConvDW]: in every
    [BasicBlock] and [Bottleneck] of the stack the [downsample] branch
    returns the shape of the main branch, so that [out += identity] never
    fails.  For a batch [(N, 3, H, W)] with [N, H, W >= 1], [self.features]
    returns [(N, 512, ceil(H/64), ceil(W/64))] and [forward] returns
    [(N, num_classes)], in inference mode always and in training mode as
    soon as the last batch normalisation sees more than one value per
    channel ([N >= 2], or [H >= 65], or [W >= 65]). *)
Theorem LessSimpleNetBN2D_ConvDW_shapes
    (conv_op : conv_op_t) (num_classes N H W : nat) (training : bool) :
  (1 <= N)%nat -> (1 <= H)%nat -> (1 <= W)%nat ->
  training = false \/ (2 <= N)%nat \/ (65 <= H)%nat \/ (65 <= W)%nat ->
  LessSimpleNetBN2D_ConvDW_features training [N; 3%nat; H; W]
  = Ok [N; 512; (H + 63) / 64; (W + 63) / 64]%nat
  /\ LessSimpleNetBN2D_ConvDW_forward conv_op num_classes training [N; 3%nat; H; W]
     = Ok [N; num_classes].
Proof.
  intros HN HH HW Hm.
  pose proof (@LessSimpleNetBN2D_ConvDW_features_shape training N H W HN HH HW Hm) as Hf.
  split.
  - rewrite Hf.
    replace (half (half (half (half (half (half H)))))) with ((H + 63) / 64)%nat
      by (unfold half; dlia).
    replace (half (half (half (half (half (half W)))))) with ((W + 63) / 64)%nat
      by (unfold half; dlia).
    reflexivity.
  - unfold LessSimpleNetBN2D_ConvDW_forward. rewrite Hf. cbn [rbind].
    rewrite AdaptiveAvgPool2d_shape by size_pos. cbn [rbind].
    rewrite view_flat_shape by assumption. cbn [rbind].
    apply Linear_shape. lia.
Qed.

Lemma LessSimpleNetBN2D_ConvDW_shapes_witness :
  LessSimpleNetBN2D_ConvDW_features true [8; 3; 128; 128]%nat = Ok [8; 512; 2; 2]%nat
  /\ LessSimpleNetBN2D_ConvDW_forward nn_Conv2d 100 true [8; 3; 128; 128]%nat
     = Ok [8; 100]%nat.
Proof.
  exact (@LessSimpleNetBN2D_ConvDW_shapes nn_Conv2d 100 8 128 128 true
           ltac:(lia) ltac:(lia) ltac:(lia) ltac:(right; left; lia)).
Defined.

(** X20.  Shapes through [SimpleNetBN2D_ConvDW].  For a batch
    [(N, 3, H, W)] with [N, H, W >= 1], [self.features] returns
    [(N, 512, ceil(H/16), ceil(W/16))] and [forward] returns
    [(N, num_classes)], in inference mode always and in training mode as
    soon as the last batch normalisation sees more than one value per
    channel ([N >= 2], or [H >= 17], or [W >= 17]). *)
Theorem SimpleNetBN2D_ConvDW_shapes
    (conv_op : conv_op_t) (num_classes N H W : nat) (training : bool) :
  (1 <= N)%nat -> (1 <= H)%nat -> (1 <= W)%nat ->
  training = false \/ (2 <= N)%nat \/ (17 <= H)%nat \/ (17 <= W)%nat ->
  SimpleNetBN2D_ConvDW_features training [N; 3%nat; H; W]
  = Ok [N; 512; (H + 15) / 16; (W + 15) / 16]%nat
  /\ SimpleNetBN2D_ConvDW_forward conv_op num_classes training [N; 3%nat; H; W]
     = Ok [N; num_classes].
Proof.
  intros HN HH HW Hm.
  pose proof (@SimpleNetBN2D_ConvDW_features_shape training N H W HN HH HW Hm) as Hf.
  split.
  - rewrite Hf.
    replace (half (half (half (half H)))) with ((H + 15) / 16)%nat by (unfold half; dlia).
    replace (half (half (half (half W)))) with ((W + 15) / 16)%nat by (unfold half; dlia).
    reflexivity.
  - unfold SimpleNetBN2D_ConvDW_forward. rewrite Hf. cbn [rbind].
    rewrite AdaptiveAvgPool2d_shape by size_pos. cbn [rbind].
    rewrite view_flat_shape by assumption. cbn [rbind].
    apply Linear_shape. lia.
Qed.

Lemma SimpleNetBN2D_ConvDW_shapes_witness :
  SimpleNetBN2D_ConvDW_features true [8; 3; 128; 128]%nat = Ok [8; 512; 8; 8]%nat
  /\ SimpleNetBN2D_ConvDW_forward nn_Conv2d 100 true [8; 3; 128; 128]%nat
     = Ok [8; 100]%nat.
Proof.
  exact (@SimpleNetBN2D_ConvDW_shapes nn_Conv2d 100 8 128 128 true
           ltac:(lia) ltac:(lia) ltac:(lia) ltac:(right; left; lia)).
Defined.

(** X21.  Two of the six network classes cannot be instantiated, whatever
    the arguments: [SimpleNetBN2D.__init__] calls [super(SimpleNet, self)]
    although [SimpleNetBN2D] does not derive from [SimpleNet]
    ([TypeError]), and [VGGNet.__init__] calls [super(NotSoSimpleNet, self)],
    a name that is bound nowhere ([NameError]).  The constructors of the
    other four classes get past their [super] call, which succeeds exactly
    for the class itself and for [nn.Module]. *)
Theorem network_constructors (conv_op : conv_op_t) (num_classes : nat) :
  SimpleNetBN2D_new conv_op num_classes = inl SuperTypeError
  /\ VGGNet_new conv_op num_classes = inl NameError
  /\ SimpleNet_new conv_op num_classes = inr (SimpleNet_body conv_op num_classes)
  /\ LessSimpleNetBN2D_ConvDW_new conv_op num_classes
     = inr (LessSimpleNetBN2D_ConvDW_forward conv_op num_classes)
  /\ SimpleNetBN2D_ConvDW_new conv_op num_classes
     = inr (SimpleNetBN2D_ConvDW_forward conv_op num_classes)
  /\ MobileNet_new conv_op num_classes = inr (MobileNet_forward conv_op num_classes)
  /\ forall c d : pyclass,
       super_init (Some d) c = inr tt <-> (c = d \/ d = cls_nn_Module).
Proof.
  repeat (split; [reflexivity|]).
  intros c d. unfold super_init.
  destruct c, d; cbn; split; intros H; try reflexivity; try discriminate;
    try (now left); try (now right);
    destruct H as [H|H]; discriminate.
Qed.
